(** * gonano: the ledger core, its badger-backed store and the balance type

    A shallow embedding of
    - [nano/store/ledger.go]  (the ledger: genesis, the four block handlers,
      [addBlock], [AddBlock], [AddBlocks], [getRepresentative]),
    - [nano/store/badger.go]  (the typed store operations of a transaction),
    - [nano/wallet/balance.go] ([Balance], [ParseBalance], [String]),
    and the properties of the ledger specification checked against them.

    Conventions.  A 32-byte hash, a public key and a signature are read as
    the natural number their bytes spell; a [Balance] is the integer value
    of the 128-bit word.  The badger key space [prefix byte || key] is five
    disjoint tables, one finite map each.  Blocks, account records and
    pending records are held decoded: their codecs are not among the
    sources, and the specification states that they round-trip.  The
    codec of a voting weight is [Balance.MarshalBinary] and
    [Balance.UnmarshalBinary] of balance.go, so the representation table
    holds the bytes written and reading it decodes them.  A transaction is a state
    transformer over the tables that also yields how the Go function
    left: a normal return, a returned [error], or a panic.  Writes made
    before an error is returned stay in the transaction's view, exactly as
    with a badger [Txn]; whether they reach the database is decided by
    [Update]. *)

From stdpp Require Import base option gmap strings list.
From Stdlib Require Import ZArith Lia Ascii DecimalString DecimalPos.

Local Open Scope Z_scope.

(** ** Plain data *)

Abbreviation Hash := N (only parsing).
Abbreviation Address := N (only parsing).
Abbreviation Signature := N (only parsing).
Abbreviation Work := N (only parsing).
Abbreviation Balance := Z (only parsing).

(** The four block variants of package [block], with the fields the ledger
    reads, and any further implementation of the [block.Block] interface. *)
Record OpenBlock := mkOpenBlock {
  open_SourceHash : Hash;
  open_Representative : Address;
  open_Address : Address;
  open_Signature : Signature;
  open_Work : Work }.

Record SendBlock := mkSendBlock {
  send_PreviousHash : Hash;
  send_Destination : Address;
  send_Balance : Balance;
  send_Signature : Signature;
  send_Work : Work }.

Record ReceiveBlock := mkReceiveBlock {
  receive_PreviousHash : Hash;
  receive_SourceHash : Hash;
  receive_Signature : Signature;
  receive_Work : Work }.

Record ChangeBlock := mkChangeBlock {
  change_PreviousHash : Hash;
  change_Representative : Address;
  change_Signature : Signature;
  change_Work : Work }.

Inductive Block :=
| BOpen (b : OpenBlock)
| BSend (b : SendBlock)
| BReceive (b : ReceiveBlock)
| BChange (b : ChangeBlock)
| BOther (payload : N).

(** What the ledger takes from package [block] and from the signature
    scheme without looking inside: the digest of a block, the
    proof-of-work test, signature verification, and the root of a value
    of a foreign block type. *)
Class BlockOps := {
  block_Hash : Block -> Hash;
  block_Valid : Block -> bool;
  other_Root : N -> Hash;
  address_Verify : Address -> Hash -> Signature -> bool }.

(** Modelled from the spec: [Root()] of package [block], which is not among
    the sources: "the hash this block extends (the previous for
    Send/Receive/Change; the source for Open)". *)
Definition block_Root `{BlockOps} (blk : Block) : Hash :=
  match blk with
  | BOpen b => open_SourceHash b
  | BSend b => send_PreviousHash b
  | BReceive b => receive_PreviousHash b
  | BChange b => change_PreviousHash b
  | BOther p => other_Root p
  end.

Definition Hash_Equal (h1 h2 : Hash) : bool := N.eqb h1 h2.

(** The one-byte prefixes of the five tables in the shared key space. *)
Definition idPrefixBlock : N := 0.
Definition idPrefixAddress : N := 1.
Definition idPrefixFrontier : N := 2.
Definition idPrefixPending : N := 3.
Definition idPrefixRepresentation : N := 4.

Record AddressInfo := mkAddressInfo {
  info_HeadBlock : Hash;
  info_RepBlock : Hash;
  info_OpenBlock : Hash;
  info_Balance : Balance }.

Record Frontier := mkFrontier {
  frontier_Address : Address;
  frontier_Hash : Hash }.

Record Pending := mkPending {
  pending_Address : Address;
  pending_Amount : Balance }.

#[global] Instance OpenBlock_eq_dec : EqDecision OpenBlock.
Proof. solve_decision. Defined.
#[global] Instance SendBlock_eq_dec : EqDecision SendBlock.
Proof. solve_decision. Defined.
#[global] Instance ReceiveBlock_eq_dec : EqDecision ReceiveBlock.
Proof. solve_decision. Defined.
#[global] Instance ChangeBlock_eq_dec : EqDecision ChangeBlock.
Proof. solve_decision. Defined.
#[global] Instance Block_eq_dec : EqDecision Block.
Proof. solve_decision. Defined.
#[global] Instance AddressInfo_eq_dec : EqDecision AddressInfo.
Proof. solve_decision. Defined.
#[global] Instance Pending_eq_dec : EqDecision Pending.
Proof. solve_decision. Defined.

(** ** Errors and outcomes of a Go call *)

Inductive Error :=
| ErrBadWork
| ErrBadGenesis
| ErrMissingPrevious
| ErrMissingSource
| ErrBlockExists
| ErrKeyNotFound                        (* badger.ErrKeyNotFound *)
| ErrBadBalanceSize
| ErrNew (msg : string)                 (* errors.New(msg) *)
| ErrNegativeSpend (b B : Balance)      (* fmt.Errorf("negative/zero spend: %s >= %s", b, B) *)
| ErrDecimal (msg : string).            (* an error of decimal.NewFromString *)

Inductive Outcome (A : Type) :=
| Ok (a : A)
| Err (e : Error)
| Panic (msg : string).
Arguments Ok {A} a.
Arguments Err {A} e.
Arguments Panic {A} msg.

#[global] Instance Error_eq_dec : EqDecision Error.
Proof. solve_decision. Defined.

(** ** Balances (wallet/balance.go) *)

Module wallet.

Definition BalanceSize : nat := 16.
Definition BalanceMaxPrecision : Z := 33.
Definition uint128_modulus : Z := 2 ^ 128.

(** A balance is canonical when it is the value of a 128-bit word. *)
Definition canonical (b : Balance) : Prop := 0 <= b < uint128_modulus.

(** Modelled from the spec: package [internal/uint128] is not among the
    sources.  The spec calls a balance a "128-bit unsigned" value and notes
    that the source's arithmetic is not checked; [Add] and [Sub] are the
    fixed-width operations, which wrap around. *)
Definition uint128_Add (u n : Z) : Z := (u + n) mod uint128_modulus.
Definition uint128_Sub (u n : Z) : Z := (u - n) mod uint128_modulus.

Definition zeroBalance : Balance := 0.

Definition Add (b n : Balance) : Balance := uint128_Add b n.
Definition Sub (b n : Balance) : Balance := uint128_Sub b n.

(** Modelled from the spec: [Compare] and its three results are used by the
    ledger but missing from balance.go as given; the spec reads the test
    in [addSendBlock] as the order on the 128-bit values. *)
Inductive BalanceComp := BalanceCompEqual | BalanceCompBigger | BalanceCompSmaller.

Definition Compare (b n : Balance) : BalanceComp :=
  match b ?= n with
  | Eq => BalanceCompEqual
  | Gt => BalanceCompBigger
  | Lt => BalanceCompSmaller
  end.

(** *** Bytes *)

(** [math/big]: [x.Bytes()] is the absolute value of [x] as a big-endian
    byte slice without leading zero bytes (empty for 0); [SetBytes] reads a
    big-endian slice. *)
Definition be_bytes (len : nat) (n : N) : list N :=
  map (fun i => (n / 256 ^ N.of_nat i) mod 256)%N (rev (seq 0 len)).

Definition bytes_len (n : N) : nat :=
  if (n =? 0)%N then 0%nat else S (N.to_nat (N.log2 n / 8)).

Definition big_Bytes (x : Z) : list N := be_bytes (bytes_len (Z.abs_N x)) (Z.abs_N x).

Definition big_SetBytes (data : list N) : Z :=
  Z.of_N (fold_left (fun acc b => acc * 256 + b)%N data 0%N).

(** Modelled from the spec: [uint128.GetBytes] and [uint128.FromBytes] are
    not among the sources; a balance is "16 bytes, big-endian", and
    [Bytes] hands [GetBytes] out unchanged for [binary.BigEndian]. *)
Definition uint128_GetBytes (u : Z) : list N :=
  be_bytes 16 (Z.to_N (u mod uint128_modulus)).
Definition uint128_FromBytes (data : list N) : Z := big_SetBytes data.

Inductive ByteOrder := BigEndian | LittleEndian.

Definition Bytes (b : Balance) (order : ByteOrder) : list N :=
  let bytes := uint128_GetBytes b in
  match order with
  | BigEndian => bytes
  | LittleEndian => rev bytes
  end.

Definition MarshalBinary (b : Balance) : list N := Bytes b LittleEndian.

Definition UnmarshalBinary (data : list N) : Outcome Balance :=
  if negb (Nat.eqb (length data) BalanceSize) then Err ErrBadBalanceSize
  else Ok (uint128_FromBytes data).

Definition BigInt (b : Balance) : Z := big_SetBytes (Bytes b BigEndian).

(** *** Decimals

    The part of [github.com/shopspring/decimal] that balance.go calls: a
    decimal is [value * 10 ^ exp]. *)
Record Decimal := mkDecimal { d_value : Z; d_exp : Z }.

Definition decimal_New (value exp : Z) : Decimal := mkDecimal value exp.
Definition decimal_NewFromBigInt (value exp : Z) : Decimal := mkDecimal value exp.

Definition decimal_rescale (d : Decimal) (exp : Z) : Decimal :=
  if d_exp d =? exp then d
  else
    let diff := Z.abs (exp - d_exp d) in
    if exp >? d_exp d then mkDecimal (Z.quot (d_value d) (10 ^ diff)) exp
    else mkDecimal (d_value d * 10 ^ diff) exp.

Definition decimal_Mul (d d2 : Decimal) : Decimal :=
  mkDecimal (d_value d * d_value d2) (d_exp d + d_exp d2).

Definition decimal_Add (d d2 : Decimal) : Decimal :=
  let baseScale := Z.min (d_exp d) (d_exp d2) in
  mkDecimal (d_value (decimal_rescale d baseScale) + d_value (decimal_rescale d2 baseScale))
            baseScale.

Definition decimal_Sub (d d2 : Decimal) : Decimal :=
  let baseScale := Z.min (d_exp d) (d_exp d2) in
  mkDecimal (d_value (decimal_rescale d baseScale) - d_value (decimal_rescale d2 baseScale))
            baseScale.

Definition decimal_Abs (d : Decimal) : Decimal := mkDecimal (Z.abs (d_value d)) (d_exp d).

Definition decimal_Cmp (d d2 : Decimal) : comparison :=
  let baseScale := Z.min (d_exp d) (d_exp d2) in
  d_value (decimal_rescale d baseScale) ?= d_value (decimal_rescale d2 baseScale).

(** [QuoRem] divides with truncation towards zero; the divisor is never
    zero in balance.go's one call with a known unit. *)
Definition decimal_QuoRem (d d2 : Decimal) (precision : Z) : Decimal * Decimal :=
  let scale := - precision in
  let e := d_exp d - d_exp d2 - scale in
  let '(aa, bb, scalerest) :=
    if e <? 0 then (d_value d, d_value d2 * 10 ^ (- e), d_exp d)
    else (d_value d * 10 ^ e, d_value d2, scale + d_exp d2) in
  (mkDecimal (Z.quot aa bb) scale, mkDecimal (Z.rem aa bb) scalerest).

Definition decimal_DivRound (d d2 : Decimal) (precision : Z) : Decimal :=
  let '(q, r) := decimal_QuoRem d d2 precision in
  let rv2 := Z.abs (d_value r) * 2 in
  let r2 := mkDecimal rv2 (d_exp r + precision) in
  match decimal_Cmp r2 (decimal_Abs d2) with
  | Lt => q
  | _ =>
      if Z.sgn (d_value d) * Z.sgn (d_value d2) <? 0
      then decimal_Sub q (decimal_New 1 (- precision))
      else decimal_Add q (decimal_New 1 (- precision))
  end.

Definition decimal_Truncate (d : Decimal) (precision : Z) : Decimal :=
  if (precision >=? 0) && (- precision >? d_exp d)
  then decimal_rescale d (- precision) else d.

Definition big_String (x : Z) : string := NilZero.string_of_int (Z.to_int x).

Fixpoint repeat0 (n : nat) : string :=
  match n with O => EmptyString | S k => String "0"%char (repeat0 k) end.

(** [strings.TrimRight(s, "0")] *)
Fixpoint trimRight0 (s : string) : string :=
  match s with
  | EmptyString => EmptyString
  | String c r =>
      match trimRight0 r with
      | EmptyString => if Ascii.eqb c "0"%char then EmptyString else String c EmptyString
      | r' => String c r'
      end
  end.

(** [d.String()]: the digits with the point put in and trailing zeros of
    the fraction dropped. *)
Definition decimal_String (d : Decimal) : string :=
  if d_exp d >=? 0 then big_String (d_value (decimal_rescale d 0))
  else
    let str := big_String (Z.abs (d_value d)) in
    let dExpInt := Z.to_nat (- d_exp d) in
    let '(intPart, fractionalPart) :=
      if (dExpInt <? String.length str)%nat
      then (String.substring 0 (String.length str - dExpInt) str,
            String.substring (String.length str - dExpInt) dExpInt str)
      else ("0"%string, (repeat0 (dExpInt - String.length str) +:+ str)%string) in
    let fractionalPart := trimRight0 fractionalPart in
    let number :=
      match fractionalPart with
      | EmptyString => intPart
      | _ => (intPart +:+ "." +:+ fractionalPart)%string
      end in
    if d_value d <? 0 then ("-" +:+ number)%string else number.

(** [strings.Split(s, ".")] *)
Fixpoint splitDot (s : string) : list string :=
  match s with
  | EmptyString => [EmptyString]
  | String c r =>
      if Ascii.eqb c "."%char then EmptyString :: splitDot r
      else
        match splitDot r with
        | p :: ps => String c p :: ps
        | [] => [String c EmptyString]
        end
  end.

(** [new(big.Int).SetString(s, 10)]: an optional sign and at least one
    decimal digit. *)
Definition big_SetString (s : string) : option Z :=
  match s with
  | String "-"%char r => option_map (fun u => - Z.of_uint u) (NilZero.uint_of_string r)
  | String "+"%char r => option_map Z.of_uint (NilZero.uint_of_string r)
  | _ => option_map Z.of_uint (NilZero.uint_of_string s)
  end.

(** [decimal.NewFromString] on plain decimal notation (digits with at most
    one point); the exponent notation is not needed for what [String]
    prints and is left out. *)
Definition decimal_NewFromString (value : string) : Outcome Decimal :=
  match splitDot value with
  | [intString] =>
      match big_SetString intString with
      | Some v => Ok (mkDecimal v 0)
      | None => Err (ErrDecimal "can't convert to decimal")
      end
  | [p0; p1] =>
      let decimalPart := trimRight0 p1 in
      match big_SetString (p0 +:+ decimalPart) with
      | Some v => Ok (mkDecimal v (- Z.of_nat (String.length decimalPart)))
      | None => Err (ErrDecimal "can't convert to decimal")
      end
  | _ => Err (ErrDecimal "can't convert to decimal: too many .s")
  end.

(** *** Units, parsing and printing *)

(** The [units] table; indexing a Go map with a missing key gives the zero
    [Decimal]. *)
Definition units (unit : string) : Decimal :=
  if String.eqb unit "raw" then decimal_New 1 0
  else if String.eqb unit "uxrb" then decimal_New 1 18
  else if String.eqb unit "mxrb" then decimal_New 1 21
  else if String.eqb unit "xrb" then decimal_New 1 24
  else if String.eqb unit "kxrb" then decimal_New 1 27
  else if String.eqb unit "Mxrb" then decimal_New 1 30
  else if String.eqb unit "Gxrb" then decimal_New 1 33
  else mkDecimal 0 0.

(** [bigPow] ignores its base argument and raises 10; [Exp] with an
    exponent that is not positive gives 1. *)
Definition bigPow (base exp : Z) : Z :=
  if exp <=? 0 then 1 else 10 ^ exp.

Definition ParseBalance (s : string) (unit : string) : Outcome Balance :=
  match decimal_NewFromString s with
  | Err e => Err e
  | Panic p => Panic p
  | Ok d =>
      let d := decimal_Mul d (units unit) in
      let c := d_value d in
      let f := bigPow 10 (d_exp d) in
      let i := c * f in
      UnmarshalBinary (big_Bytes i)
  end.

Definition UnitString (b : Balance) (unit : string) (precision : Z) : string :=
  let d := decimal_NewFromBigInt (BigInt b) 0 in
  decimal_String
    (decimal_Truncate (decimal_DivRound d (units unit) BalanceMaxPrecision) precision).

Definition String (b : Balance) : string := UnitString b "Mxrb" BalanceMaxPrecision.

Definition MarshalText (b : Balance) : string := String b.

Definition UnmarshalText (text : string) : Outcome Balance := ParseBalance text "Mxrb".

End wallet.

(** ** Strings of decimal digits

    What [big.Int.String] prints and [SetString] reads, as numbers. *)

Definition digitValue (c : ascii) : option N :=
  let code := N_of_ascii c in
  if ((48 <=? code) && (code <=? 57))%N then Some (code - 48)%N else None.

(** The number a string of decimal digits spells, read after the digits
    already held in [acc]; [None] when a character is not a digit. *)
Fixpoint decimalValue (acc : N) (s : string) : option N :=
  match s with
  | EmptyString => Some acc
  | String c r =>
      match digitValue c with
      | Some d => decimalValue (10 * acc + d)%N r
      | None => None
      end
  end.

(** ** The transaction monad *)

Record Store := mkStore {
  blocks : gmap N Block;                    (* prefix 0: hash -> block *)
  addresses : gmap N AddressInfo;           (* prefix 1: address -> info *)
  frontiers : gmap N N;                     (* prefix 2: hash -> address *)
  pendings : gmap (N * N) Pending;          (* prefix 3: destination, hash *)
  representation : gmap N Z }.              (* prefix 4: address -> 16 bytes *)

Definition emptyStore : Store := mkStore ∅ ∅ ∅ ∅ ∅.

Definition Tx (A : Type) : Type := Store -> Store * Outcome A.

Definition ret {A} (a : A) : Tx A := fun s => (s, Ok a).
Definition fail {A} (e : Error) : Tx A := fun s => (s, Err e).
Definition panic {A} (msg : string) : Tx A := fun s => (s, Panic msg).

Definition bind {A B} (m : Tx A) (k : A -> Tx B) : Tx B :=
  fun s =>
    match m s with
    | (s', Ok a) => k a s'
    | (s', Err e) => (s', Err e)
    | (s', Panic p) => (s', Panic p)
    end.

Notation "'do' x <- m ; k" := (bind m (fun x => k))
  (at level 10, x name, m at level 100, k at level 200).
Notation "'do' '_' <- m ; k" := (bind m (fun _ => k))
  (at level 10, m at level 100, k at level 200).

(** [v, err := m; if err != nil { return e }] *)
Definition orReturn {A} (e : Error) (m : Tx A) : Tx A :=
  fun s =>
    match m s with
    | (s', Err _) => (s', Err e)
    | r => r
    end.

(** [_, err := m], keeping only whether [err == nil] *)
Definition errIsNil {A} (m : Tx A) : Tx bool :=
  fun s =>
    match m s with
    | (s', Ok _) => (s', Ok true)
    | (s', Err _) => (s', Ok false)
    | (s', Panic p) => (s', Panic p)
    end.

(** ** The store transaction (store/badger.go) *)

Section Ledger.
Context `{BlockOps}.

(** [Empty] reports whether the block table has no key. *)
Definition Empty : Tx bool :=
  fun s => (s, Ok (bool_decide (blocks s = ∅))).

(** [AddBlock] never overwrites implicitly. *)
Definition txn_AddBlock (blk : Block) : Tx unit :=
  fun s =>
    let hash := block_Hash blk in
    match blocks s !! hash with
    | Some _ => (s, Err ErrBlockExists)
    | None =>
        (mkStore (<[hash := blk]> (blocks s)) (addresses s) (frontiers s)
                 (pendings s) (representation s), Ok tt)
    end.

Definition GetBlock (hash : Hash) : Tx Block :=
  fun s =>
    match blocks s !! hash with
    | Some blk => (s, Ok blk)
    | None => (s, Err ErrKeyNotFound)
    end.

Definition HasBlock (hash : Hash) : Tx bool :=
  fun s =>
    match blocks s !! hash with
    | Some _ => (s, Ok true)
    | None => (s, Ok false)
    end.

Definition DeleteBlock (hash : Hash) : Tx unit :=
  fun s =>
    (mkStore (delete hash (blocks s)) (addresses s) (frontiers s)
             (pendings s) (representation s), Ok tt).

Definition txn_CountBlocks : Tx nat :=
  fun s => (s, Ok (size (blocks s))).

Definition AddAddress (address : Address) (info : AddressInfo) : Tx unit :=
  fun s =>
    match addresses s !! address with
    | Some _ => (s, Err (ErrNew "address already exists"))
    | None =>
        (mkStore (blocks s) (<[address := info]> (addresses s)) (frontiers s)
                 (pendings s) (representation s), Ok tt)
    end.

Definition GetAddress (address : Address) : Tx AddressInfo :=
  fun s =>
    match addresses s !! address with
    | Some info => (s, Ok info)
    | None => (s, Err ErrKeyNotFound)
    end.

Definition UpdateAddress (address : Address) (info : AddressInfo) : Tx unit :=
  fun s =>
    (mkStore (blocks s) (<[address := info]> (addresses s)) (frontiers s)
             (pendings s) (representation s), Ok tt).

Definition DeleteAddress (address : Address) : Tx unit :=
  fun s =>
    (mkStore (blocks s) (delete address (addresses s)) (frontiers s)
             (pendings s) (representation s), Ok tt).

Definition AddFrontier (frontier : Frontier) : Tx unit :=
  fun s =>
    match frontiers s !! frontier_Hash frontier with
    | Some _ => (s, Err (ErrNew "frontier already exists"))
    | None =>
        (mkStore (blocks s) (addresses s)
                 (<[frontier_Hash frontier := frontier_Address frontier]> (frontiers s))
                 (pendings s) (representation s), Ok tt)
    end.

Definition GetFrontier (hash : Hash) : Tx Frontier :=
  fun s =>
    match frontiers s !! hash with
    | Some address => (s, Ok (mkFrontier address hash))
    | None => (s, Err ErrKeyNotFound)
    end.

(** [GetFrontiers] fills the hash of each frontier with
    [copy(frontier.Hash[:], item.Key())], and the key of the item is the
    33-byte [prefix || hash]: the 32 bytes copied are the prefix byte and the
    first 31 bytes of the hash.  The order of the iteration is badger's;
    here it is the map's. *)
Definition copyKey32 (prefix : N) (hash : Hash) : Hash :=
  (prefix * 256 ^ 31 + hash / 256)%N.

Definition GetFrontiers : Tx (list Frontier) :=
  fun s =>
    (s, Ok (map (fun kv => mkFrontier (snd kv) (copyKey32 idPrefixFrontier (fst kv)))
                (map_to_list (frontiers s)))).

Definition DeleteFrontier (hash : Hash) : Tx unit :=
  fun s =>
    (mkStore (blocks s) (addresses s) (delete hash (frontiers s))
             (pendings s) (representation s), Ok tt).

Definition txn_CountFrontiers : Tx nat :=
  fun s => (s, Ok (size (frontiers s))).

Definition AddPending (destination : Address) (hash : Hash) (pending : Pending) : Tx unit :=
  fun s =>
    match pendings s !! (destination, hash) with
    | Some _ => (s, Err (ErrNew "pending transaction already exists"))
    | None =>
        (mkStore (blocks s) (addresses s) (frontiers s)
                 (<[(destination, hash) := pending]> (pendings s))
                 (representation s), Ok tt)
    end.

Definition GetPending (destination : Address) (hash : Hash) : Tx Pending :=
  fun s =>
    match pendings s !! (destination, hash) with
    | Some pending => (s, Ok pending)
    | None => (s, Err ErrKeyNotFound)
    end.

Definition DeletePending (destination : Address) (hash : Hash) : Tx unit :=
  fun s =>
    (mkStore (blocks s) (addresses s) (frontiers s)
             (delete (destination, hash) (pendings s)) (representation s), Ok tt).

(** The value of a key of the representation table is the 16 bytes that
    [setRepresentation], the only writer of the table, got from
    [amount.MarshalBinary()].  The table holds 16 bytes as the number they
    spell in the order [MarshalBinary] writes a balance, least significant
    byte first: [valueOfBytes] is the number of a byte slice and
    [bytesOfValue] gives the 16 bytes of an item back. *)
Definition valueOfBytes (data : list N) : Z := wallet.big_SetBytes (rev data).

Definition bytesOfValue (item : Z) : list N :=
  rev (wallet.be_bytes 16 (Z.to_N (item mod 2 ^ 128))).

Definition setRepresentation (address : Address) (amount : Balance) : Tx unit :=
  fun s =>
    let amountBytes := wallet.MarshalBinary amount in
    (mkStore (blocks s) (addresses s) (frontiers s) (pendings s)
             (<[address := valueOfBytes amountBytes]> (representation s)), Ok tt).

(** A missing key reads as [ZeroBalance]; the bytes of an item go through
    [amount.UnmarshalBinary], whose error is returned. *)
Definition GetRepresentation (address : Address) : Tx Balance :=
  fun s =>
    match representation s !! address with
    | None => (s, Ok wallet.zeroBalance)
    | Some item =>
        let amountBytes := bytesOfValue item in
        match wallet.UnmarshalBinary amountBytes with
        | Ok amount => (s, Ok amount)
        | Err e => (s, Err e)
        | Panic p => (s, Panic p)
        end
    end.

Definition AddRepresentation (address : Address) (amount : Balance) : Tx unit :=
  do oldAmount <- GetRepresentation address;
  setRepresentation address (wallet.Add oldAmount amount).

Definition SubRepresentation (address : Address) (amount : Balance) : Tx unit :=
  do oldAmount <- GetRepresentation address;
  setRepresentation address (wallet.Sub oldAmount amount).

(** [db.Update(fn)]: the writes of [fn] are committed when it returns nil
    and discarded when it returns an error or panics. *)
Definition Update {A} (fn : Tx A) (db : Store) : Store * Outcome A :=
  match fn db with
  | (db', Ok a) => (db', Ok a)
  | (_, Err e) => (db, Err e)
  | (_, Panic p) => (db, Panic p)
  end.

(** [db.View(fn)]: a read-only transaction. *)
Definition View {A} (fn : Tx A) (db : Store) : Outcome A :=
  snd (fn db).

(** ** The ledger (store/ledger.go) *)

Record LedgerOptions := mkLedgerOptions {
  GenesisBlock : OpenBlock;
  GenesisBalance : Balance }.

Definition setGenesis (blk : OpenBlock) (balance : Balance) (db : Store)
  : Store * Outcome unit :=
  let hash := block_Hash (BOpen blk) in
  (* a bad work value only prints a warning *)
  let signature := open_Signature blk in
  if negb (address_Verify (open_Address blk) hash signature) then
    (db, Err (ErrNew "bad signature for genesis block"))
  else
    Update
      (do empty <- Empty;
       if negb empty then
         do found <- HasBlock hash;
         if negb found then fail ErrBadGenesis else ret tt
       else
         do _ <- txn_AddBlock (BOpen blk);
         let info := mkAddressInfo hash hash hash balance in
         do _ <- AddAddress (open_Address blk) info;
         AddFrontier (mkFrontier (open_Address blk) hash))
      db.

(** [NewLedger] keeps the options and the store and initialises the store
    with the genesis block if needed; the ledger it returns is the store
    it leaves. *)
Definition NewLedger (store : Store) (opts : LedgerOptions) : Store * Outcome unit :=
  setGenesis (GenesisBlock opts) (GenesisBalance opts) store.

Definition getRepresentative (address : Address) : Tx Address :=
  do info <- GetAddress address;
  do blk <- GetBlock (info_RepBlock info);
  match blk with
  | BOpen b => ret (open_Representative b)
  | BChange b => ret (change_Representative b)
  | _ => fail (ErrNew "bad representative block type")
  end.

Definition addOpenBlock (blk : OpenBlock) : Tx unit :=
  let hash := block_Hash (BOpen blk) in
  let signature := open_Signature blk in
  if negb (address_Verify (open_Address blk) hash signature) then
    fail (ErrNew "bad block signature")
  else
    do exists_ <- errIsNil (GetAddress (open_Address blk));
    if (exists_ : bool) then fail (ErrNew "account already exists") else
    do pending <- orReturn ErrMissingSource
                    (GetPending (open_Address blk) (open_SourceHash blk));
    let info := mkAddressInfo hash hash hash (pending_Amount pending) in
    do _ <- AddAddress (open_Address blk) info;
    do _ <- DeletePending (open_Address blk) (open_SourceHash blk);
    do _ <- AddRepresentation (open_Representative blk) (pending_Amount pending);
    let frontier := mkFrontier (open_Address blk) hash in
    do _ <- AddFrontier frontier;
    txn_AddBlock (BOpen blk).

Definition addSendBlock (blk : SendBlock) : Tx unit :=
  let hash := block_Hash (BSend blk) in
  do frontier <- GetFrontier (block_Root (BSend blk));
  let signature := send_Signature blk in
  if negb (address_Verify (frontier_Address frontier) hash signature) then
    fail (ErrNew "bad block signature")
  else
    do info <- GetAddress (frontier_Address frontier);
    if negb (Hash_Equal (info_HeadBlock info) (frontier_Hash frontier)) then
      fail (ErrNew "unexpected head block for account")
    else
      let comp := wallet.Compare (send_Balance blk) (info_Balance info) in
      match comp with
      | wallet.BalanceCompBigger | wallet.BalanceCompEqual =>
          fail (ErrNegativeSpend (send_Balance blk) (info_Balance info))
      | wallet.BalanceCompSmaller =>
          let pending :=
            mkPending (frontier_Address frontier)
                      (wallet.Sub (info_Balance info) (send_Balance blk)) in
          do _ <- AddPending (send_Destination blk) hash pending;
          let info := mkAddressInfo hash (info_RepBlock info) (info_OpenBlock info)
                                    (send_Balance blk) in
          do _ <- UpdateAddress (frontier_Address frontier) info;
          do rep <- getRepresentative (frontier_Address frontier);
          do _ <- SubRepresentation rep (send_Balance blk);
          do _ <- DeleteFrontier hash;
          let frontier := mkFrontier (frontier_Address frontier) hash in
          do _ <- AddFrontier frontier;
          txn_AddBlock (BSend blk)
      end.

Definition addReceiveBlock (blk : ReceiveBlock) : Tx unit :=
  let hash := block_Hash (BReceive blk) in
  do frontier <- GetFrontier (block_Root (BReceive blk));
  let signature := receive_Signature blk in
  if negb (address_Verify (frontier_Address frontier) hash signature) then
    fail (ErrNew "bad block signature")
  else
    do info <- GetAddress (frontier_Address frontier);
    if negb (Hash_Equal (info_HeadBlock info) (frontier_Hash frontier)) then
      fail (ErrNew "unexpected head block for account")
    else
      do pending <- orReturn ErrMissingSource
                      (GetPending (frontier_Address frontier) (receive_SourceHash blk));
      let info := mkAddressInfo hash (info_RepBlock info) (info_OpenBlock info)
                                (wallet.Add (info_Balance info) (pending_Amount pending)) in
      do _ <- UpdateAddress (frontier_Address frontier) info;
      do _ <- DeletePending (frontier_Address frontier) (receive_SourceHash blk);
      do rep <- getRepresentative (frontier_Address frontier);
      do _ <- AddRepresentation rep (pending_Amount pending);
      do _ <- DeleteFrontier hash;
      let frontier := mkFrontier (frontier_Address frontier) hash in
      do _ <- AddFrontier frontier;
      txn_AddBlock (BReceive blk).

Definition addChangeBlock (blk : ChangeBlock) : Tx unit :=
  let hash := block_Hash (BChange blk) in
  do frontier <- GetFrontier (block_Root (BChange blk));
  let signature := change_Signature blk in
  if negb (address_Verify (frontier_Address frontier) hash signature) then
    fail (ErrNew "bad block signature")
  else
    do info <- GetAddress (frontier_Address frontier);
    if negb (Hash_Equal (info_HeadBlock info) (frontier_Hash frontier)) then
      fail (ErrNew "unexpected head block for account")
    else
      let info := mkAddressInfo hash hash (info_OpenBlock info) (info_Balance info) in
      do _ <- UpdateAddress (frontier_Address frontier) info;
      do oldRep <- getRepresentative (frontier_Address frontier);
      do _ <- SubRepresentation oldRep (info_Balance info);
      do _ <- AddRepresentation (change_Representative blk) (info_Balance info);
      do _ <- DeleteFrontier hash;
      let frontier := mkFrontier (frontier_Address frontier) hash in
      do _ <- AddFrontier frontier;
      txn_AddBlock (BChange blk).

Definition addBlock (blk : Block) : Tx unit :=
  let hash := block_Hash blk in
  if negb (block_Valid blk) then fail ErrBadWork else
  do found <- HasBlock hash;
  if (found : bool) then fail ErrBlockExists else
  do found <- HasBlock (block_Root blk);
  if negb found then fail ErrMissingPrevious else
  match blk with
  | BOpen b => addOpenBlock b
  | BSend b => addSendBlock b
  | BReceive b => addReceiveBlock b
  | BChange b => addChangeBlock b
  | BOther _ => panic "bad block type"
  end.

Definition AddBlock (blk : Block) (db : Store) : Store * Outcome unit :=
  Update (addBlock blk) db.

(** The loop of [AddBlocks]: an error of [addBlock] is classified
    (ignored, left for the unchecked list, or printed) and the loop goes
    on with the next block in the same transaction. *)
Fixpoint addBlocks_loop (blks : list Block) : Tx unit :=
  match blks with
  | [] => ret tt
  | blk :: rest =>
      fun s =>
        match addBlock blk s with
        | (s', Ok _) => addBlocks_loop rest s'
        | (s', Err _) => addBlocks_loop rest s'
        | (s', Panic p) => (s', Panic p)
        end
  end.

Definition AddBlocks (blks : list Block) (db : Store) : Store * Outcome unit :=
  Update (addBlocks_loop blks) db.

Definition CountBlocks (db : Store) : Outcome nat :=
  View txn_CountBlocks db.

End Ledger.

(** The value [GetRepresentation] reads for an address: zero for a missing
    key, and what [uint128.FromBytes] makes of the bytes of the item. *)
Definition repOf (s : Store) (a : Address) : Balance :=
  match representation s !! a with
  | None => wallet.zeroBalance
  | Some item => wallet.uint128_FromBytes (bytesOfValue item)
  end.

(** The bytes held for an address in the representation table. *)
Definition storedWeight (s : Store) (a : Address) : option (list N) :=
  bytesOfValue <$> representation s !! a.

(** The errors that [addBlock] and the handlers return from a check made
    before the first write of the handler. *)
Definition validationError (e : Error) : bool :=
  match e with
  | ErrBadWork | ErrBlockExists | ErrMissingPrevious | ErrMissingSource => true
  | ErrNegativeSpend _ _ => true
  | ErrNew msg =>
      String.eqb msg "bad block signature"
      || String.eqb msg "account already exists"
      || String.eqb msg "unexpected head block for account"
  | _ => false
  end.

(** States of one transaction view that follow each other through calls of
    [addBlock], whatever their outcome. *)
Inductive later `{BlockOps} : Store -> Store -> Prop :=
| later_refl s : later s s
| later_step s1 s2 s3 blk r :
    later s1 s2 -> addBlock blk s2 = (s3, r) -> later s1 s3.

(** The representative a stored block names, as [getRepresentative] reads
    it: only open and change blocks name one. *)
Definition representativeOf (blk : Block) : option Address :=
  match blk with
  | BOpen b => Some (open_Representative b)
  | BChange b => Some (change_Representative b)
  | _ => None
  end.

(** A computation that leaves the tables as they are, and one that keeps a
    property of the tables whatever its outcome. *)
Definition readonly {A} (m : Tx A) : Prop := forall s, fst (m s) = s.

Definition preserves {A} (P : Store -> Prop) (m : Tx A) : Prop :=
  forall s, P s -> P (fst (m s)).

(** Account [a] has a record, the block [src] is stored and no pending
    record is left for the pair: the send [src] to [a] has been claimed. *)
Definition claimed (a : Address) (src : Hash) (s : Store) : Prop :=
  is_Some (addresses s !! a) /\ is_Some (blocks s !! src) /\
  pendings s !! (a, src) = None.

(** ** Properties of the tables

    Every block is stored under its own hash. *)
Definition hashKeyed `{BlockOps} (s : Store) : Prop :=
  forall h blk, blocks s !! h = Some blk -> block_Hash blk = h.

(** The four block types that [addBlock] dispatches on. *)
Definition knownVariant (blk : Block) : Prop := forall p, blk <> BOther p.

(** The frontier table has a key for every stored block and for nothing
    else. *)
Definition frontierPerBlock (s : Store) : Prop :=
  dom (frontiers s) = dom (blocks s).

(** The head of every account record is a frontier of that account. *)
Definition headsAreFrontiers (s : Store) : Prop :=
  forall a info, addresses s !! a = Some info ->
                 frontiers s !! info_HeadBlock info = Some a.

(** A fork point: [root] is a stored block that still has a frontier of
    the account, while the head of the account has moved on. *)
Definition forkPoint (root : Hash) (n : Address) (s : Store) : Prop :=
  is_Some (blocks s !! root) /\ frontiers s !! root = Some n /\
  exists info, addresses s !! n = Some info /\ info_HeadBlock info <> root.

(** ** A small test fixture

    A deterministic stand-in for package [block] and the signature scheme:
    the work value serves as a nonce and names the block, a work value of 0
    is invalid, and the signature of hash [h] under key [a] is [a + h]. *)
Module fixture.

Definition digest (blk : Block) : Hash :=
  match blk with
  | BOpen b => 8 * open_Work b + 1
  | BSend b => 8 * send_Work b + 2
  | BReceive b => 8 * receive_Work b + 3
  | BChange b => 8 * change_Work b + 4
  | BOther p => 8 * p + 5
  end%N.

Definition work (blk : Block) : Work :=
  match blk with
  | BOpen b => open_Work b
  | BSend b => send_Work b
  | BReceive b => receive_Work b
  | BChange b => change_Work b
  | BOther p => p
  end.

#[export] Instance ops : BlockOps := {|
  block_Hash := digest;
  block_Valid := fun blk => negb (N.eqb (work blk) 0);
  other_Root := fun p => N.div p 100;
  address_Verify := fun a h sig => N.eqb sig (a + h) |}.

Definition genesisAddress : Address := 100%N.
Definition genesisBalance : Balance := 2 ^ 128 - 1.

(** genesis: hash 9 *)
Definition genesis : OpenBlock := mkOpenBlock 0 genesisAddress genesisAddress 109 1.
Definition opts : LedgerOptions := mkLedgerOptions genesis genesisBalance.
(** another genesis: hash 65 *)
Definition genesis' : OpenBlock := mkOpenBlock 0 genesisAddress genesisAddress 165 8.
Definition opts' : LedgerOptions := mkLedgerOptions genesis' genesisBalance.

Definition genesisStore : Store := fst (NewLedger emptyStore opts).

(** the genesis account sends 10 to account 200: hash 18 *)
Definition send1 : SendBlock := mkSendBlock 9 200 (genesisBalance - 10) 118 2.
(** a send that leaves the balance as it is: hash 122 *)
Definition sendZero : SendBlock := mkSendBlock 9 200 genesisBalance 222 15.
(** account 200 opens with representative 300, claiming [send1]: hash 25 *)
Definition open1 : OpenBlock := mkOpenBlock 18 300 200 225 3.
(** a second open of account 200 claiming [send1] again: hash 33 *)
Definition open2 : OpenBlock := mkOpenBlock 18 400 200 233 4.
(** account 200 receives [send1] again on top of [open1]: hash 43 *)
Definition receive1 : ReceiveBlock := mkReceiveBlock 25 18 243 5.
(** the genesis account changes its representative to 300: hash 52 *)
Definition change1 : ChangeBlock := mkChangeBlock 9 300 152 6.
(** [send1] with a work value that is not valid *)
Definition sendBadWork : SendBlock := mkSendBlock 9 200 (genesisBalance - 10) 102 0.
(** a send whose previous block is unknown: hash 58 *)
Definition sendOrphan : SendBlock := mkSendBlock 77 200 5 158 7.
(** a value of a foreign block type with root 9: hash 7205 *)
Definition foreign : Block := BOther 900.

Definition afterSend : Store := fst (addBlock (BSend send1) genesisStore).
Definition afterOpen : Store := fst (addBlock (BOpen open1) afterSend).

(** the genesis account sends 20 more to account 200: hash 74 *)
Definition send2 : SendBlock := mkSendBlock 18 200 (genesisBalance - 30) 174 9.
(** account 200 receives [send2] on top of [open1]: hash 83 *)
Definition receive2 : ReceiveBlock := mkReceiveBlock 25 74 283 10.

Definition afterSend2 : Store := fst (addBlock (BSend send2) afterOpen).
Definition afterReceive : Store := fst (addBlock (BReceive receive2) afterSend2).

End fixture.

(** * Properties *)

(** ** Arithmetic of balances *)

Lemma Sub_exact (b n : Balance) :
  0 <= n <= b -> b < wallet.uint128_modulus -> wallet.Sub b n = b - n.
Proof.
  intros Hn Hb. unfold wallet.Sub, wallet.uint128_Sub.
  apply Z.mod_small. lia.
Qed.

Lemma Sub_wraps (b n : Balance) :
  0 <= b < n -> n <= wallet.uint128_modulus ->
  wallet.Sub b n = b - n + wallet.uint128_modulus.
Proof.
  intros Hb Hn. unfold wallet.Sub, wallet.uint128_Sub.
  symmetry. apply (Z.mod_unique_pos _ _ (-1)); lia.
Qed.

Lemma Add_exact (b n : Balance) :
  0 <= b -> 0 <= n -> b + n < wallet.uint128_modulus -> wallet.Add b n = b + n.
Proof.
  intros Hb Hn Hs. unfold wallet.Add, wallet.uint128_Add.
  apply Z.mod_small. lia.
Qed.

Lemma Compare_Smaller (b n : Balance) :
  wallet.Compare b n = wallet.BalanceCompSmaller <-> b < n.
Proof.
  unfold wallet.Compare. destruct (Z.compare_spec b n); split; intros; try lia; congruence.
Qed.

(** ** Bytes *)

Section Bytes.
Local Open Scope N_scope.

Lemma be_bytes_S (len : nat) (n : N) :
  wallet.be_bytes (S len) n =
  ((n / 256 ^ N.of_nat len) mod 256) :: wallet.be_bytes len n.
Proof.
  unfold wallet.be_bytes. rewrite seq_S, rev_app_distr. reflexivity.
Qed.

Lemma length_be_bytes (len : nat) (n : N) : length (wallet.be_bytes len n) = len.
Proof.
  unfold wallet.be_bytes. rewrite length_map, length_rev, length_seq. reflexivity.
Qed.

Lemma fold_be_bytes (len : nat) (n acc : N) :
  fold_left (fun acc b => acc * 256 + b) (wallet.be_bytes len n) acc =
  acc * 256 ^ N.of_nat len + n mod 256 ^ N.of_nat len.
Proof.
  revert acc. induction len as [|len IH]; intros acc.
  - cbn. rewrite N.mod_1_r. lia.
  - rewrite be_bytes_S. cbn [fold_left]. rewrite IH.
    rewrite Nat2N.inj_succ, N.pow_succ_r'.
    rewrite (N.mul_comm 256 (256 ^ N.of_nat len)).
    rewrite N.Div0.mod_mul_r. lia.
Qed.

End Bytes.

Lemma length_bytesOfValue (item : Z) : length (bytesOfValue item) = 16%nat.
Proof. unfold bytesOfValue. by rewrite length_rev, length_be_bytes. Qed.

(** The bytes of an item always pass the length check of
    [UnmarshalBinary]. *)
Lemma UnmarshalBinary_bytesOfValue (item : Z) :
  wallet.UnmarshalBinary (bytesOfValue item) =
  Ok (wallet.uint128_FromBytes (bytesOfValue item)).
Proof.
  unfold wallet.UnmarshalBinary. rewrite length_bytesOfValue. reflexivity.
Qed.

(** The item written for an amount, and its bytes. *)
Lemma valueOfBytes_MarshalBinary (v : Balance) :
  valueOfBytes (wallet.MarshalBinary v) = v mod 2 ^ 128.
Proof.
  unfold valueOfBytes, wallet.MarshalBinary, wallet.Bytes, wallet.uint128_GetBytes,
    wallet.big_SetBytes, wallet.uint128_modulus.
  rewrite rev_involutive, fold_be_bytes.
  pose proof (Z.mod_pos_bound v (2 ^ 128) ltac:(lia)) as Hr.
  change (N.of_nat 16) with 16%N.
  rewrite N.mod_small by (change (256 ^ 16)%N with (2 ^ 128)%N;
                          change (2 ^ 128) with (Z.of_N (2 ^ 128)) in Hr; lia).
  lia.
Qed.

Lemma bytesOfValue_MarshalBinary (v : Balance) :
  bytesOfValue (valueOfBytes (wallet.MarshalBinary v)) = wallet.MarshalBinary v.
Proof.
  rewrite valueOfBytes_MarshalBinary. unfold bytesOfValue. rewrite Z.mod_mod by lia.
  reflexivity.
Qed.

(** What [UnmarshalBinary] makes of the bytes [MarshalBinary] wrote. *)
Lemma UnmarshalBinary_MarshalBinary (v : Balance) :
  wallet.UnmarshalBinary (wallet.MarshalBinary v) =
  Ok (wallet.uint128_FromBytes (wallet.MarshalBinary v)).
Proof.
  rewrite <- bytesOfValue_MarshalBinary. apply UnmarshalBinary_bytesOfValue.
Qed.

(** A weight goes out least significant byte first and is read back most
    significant byte first. *)
Example UnmarshalBinary_MarshalBinary_ten :
  wallet.UnmarshalBinary (wallet.MarshalBinary 10) = Ok (10 * 2 ^ 120).
Proof. vm_compute. reflexivity. Qed.

(** ** The store operations *)

Lemma GetRepresentation_repOf (a : Address) (s : Store) :
  GetRepresentation a s = (s, Ok (repOf s a)).
Proof.
  unfold GetRepresentation, repOf. destruct (representation s !! a) as [item|];
    [|reflexivity].
  cbv zeta. rewrite UnmarshalBinary_bytesOfValue. reflexivity.
Qed.

Lemma SubRepresentation_eq (a : Address) (m : Balance) (s : Store) :
  SubRepresentation a m s =
  (mkStore (blocks s) (addresses s) (frontiers s) (pendings s)
           (<[a := valueOfBytes (wallet.MarshalBinary (wallet.Sub (repOf s a) m))]>
              (representation s)), Ok tt).
Proof.
  unfold SubRepresentation, bind. rewrite GetRepresentation_repOf. reflexivity.
Qed.

Lemma AddRepresentation_eq (a : Address) (m : Balance) (s : Store) :
  AddRepresentation a m s =
  (mkStore (blocks s) (addresses s) (frontiers s) (pendings s)
           (<[a := valueOfBytes (wallet.MarshalBinary (wallet.Add (repOf s a) m))]>
              (representation s)), Ok tt).
Proof.
  unfold AddRepresentation, bind. rewrite GetRepresentation_repOf. reflexivity.
Qed.

(** The table after a write: the bytes held for the address written are
    the bytes of the amount, the value read back is what
    [UnmarshalBinary] makes of them, and the other addresses read as
    before. *)
Lemma storedWeight_written (a : Address) (v : Balance) bk ad fr pe re :
  storedWeight (mkStore bk ad fr pe (<[a := valueOfBytes (wallet.MarshalBinary v)]> re)) a =
  Some (wallet.MarshalBinary v).
Proof.
  unfold storedWeight. cbn [representation]. rewrite lookup_insert_eq.
  change (Some (bytesOfValue (valueOfBytes (wallet.MarshalBinary v))) =
          Some (wallet.MarshalBinary v)).
  by rewrite bytesOfValue_MarshalBinary.
Qed.

Lemma repOf_written (a : Address) (v : Balance) bk ad fr pe re :
  repOf (mkStore bk ad fr pe (<[a := valueOfBytes (wallet.MarshalBinary v)]> re)) a =
  wallet.uint128_FromBytes (wallet.MarshalBinary v).
Proof.
  unfold repOf. cbn [representation]. rewrite lookup_insert_eq.
  by rewrite bytesOfValue_MarshalBinary.
Qed.

Lemma repOf_other (a a' : Address) (item : Z) (s : Store) bk ad fr pe :
  a' <> a ->
  repOf (mkStore bk ad fr pe (<[a := item]> (representation s))) a' = repOf s a'.
Proof.
  intros Hne. unfold repOf. cbn [representation]. by rewrite lookup_insert_ne.
Qed.

(** C4, as the code has it: [SubRepresentation] has no failing path of its
    own, and none for an amount that exceeds the current value.  For
    every store, address [a] and amount [m] it returns nil and writes,
    for [a] alone, the bytes [MarshalBinary] makes of [Balance.Sub] of
    the value read and [m]; what [GetRepresentation] then returns is what
    [UnmarshalBinary] makes of these bytes.  [Balance.Sub] is the
    difference when [m] does not exceed the value read and the difference
    wrapped around 2^128 when it does. *)
Theorem SubRepresentation_never_fails (a : Address) (m : Balance) (s : Store) :
  exists s', SubRepresentation a m s = (s', Ok tt) /\
    blocks s' = blocks s /\ addresses s' = addresses s /\
    frontiers s' = frontiers s /\ pendings s' = pendings s /\
    (forall a', a' <> a -> repOf s' a' = repOf s a') /\
    storedWeight s' a = Some (wallet.MarshalBinary (wallet.Sub (repOf s a) m)) /\
    GetRepresentation a s' =
      (s', wallet.UnmarshalBinary (wallet.MarshalBinary (wallet.Sub (repOf s a) m))) /\
    (wallet.canonical (repOf s a) -> wallet.canonical m ->
     (m <= repOf s a -> wallet.Sub (repOf s a) m = repOf s a - m) /\
     (repOf s a < m -> wallet.Sub (repOf s a) m = repOf s a - m + 2 ^ 128)).
Proof.
  rewrite SubRepresentation_eq.
  eexists; split; [reflexivity|]. cbn [blocks addresses frontiers pendings].
  repeat (split; [reflexivity|]).
  split; [intros a' Hne; by apply repOf_other|].
  split; [apply storedWeight_written|].
  split.
  - rewrite GetRepresentation_repOf, repOf_written, UnmarshalBinary_MarshalBinary.
    reflexivity.
  - intros [Hv0 Hv1] [Hm0 Hm1]. split.
    + intros Hle. apply Sub_exact; lia.
    + intros Hlt. apply Sub_wraps; unfold wallet.uint128_modulus in *; lia.
Qed.

Lemma SubRepresentation_never_fails_witness :
  exists s', SubRepresentation 7 1 (mkStore ∅ ∅ ∅ ∅ {[ 7%N := 5 ]}) = (s', Ok tt) /\
             storedWeight s' 7 = Some (wallet.MarshalBinary (5 * 2 ^ 120 - 1)) /\
             GetRepresentation 7 s' = (s', Ok (2 ^ 128 - 252)).
Proof.
  destruct (SubRepresentation_never_fails 7 1 (mkStore ∅ ∅ ∅ ∅ {[ 7%N := 5 ]}))
    as (s' & Heq & _ & _ & _ & _ & _ & Hst & Hget & Hval).
  destruct Hval as [Hle _].
  - vm_compute. split; [discriminate | reflexivity].
  - vm_compute. split; [discriminate | reflexivity].
  - exists s'. split; [exact Heq|].
    rewrite Hst, Hget, Hle by (vm_compute; discriminate).
    split; reflexivity.
Defined.

(** C4 as stated fails: with nothing recorded for address 7, subtracting 1
    exceeds the current value 0, yet the call returns nil and the value
    has changed to 2^128 - 1. *)
Lemma SubRepresentation_underflow_counterexample :
  1 > repOf emptyStore 7 /\
  snd (SubRepresentation 7 1 emptyStore) = Ok tt /\
  repOf (fst (SubRepresentation 7 1 emptyStore)) 7 = 2 ^ 128 - 1 /\
  repOf (fst (SubRepresentation 7 1 emptyStore)) 7 <> repOf emptyStore 7.
Proof. vm_compute. repeat split; discriminate. Qed.

(** ** Unfolding a handler *)

Ltac tx_unfold :=
  unfold addBlock, addOpenBlock, addSendBlock, addReceiveBlock, addChangeBlock,
    getRepresentative,
    bind, ret, fail, panic, orReturn, errIsNil,
    txn_AddBlock, GetBlock, HasBlock, AddAddress, GetAddress, UpdateAddress,
    AddFrontier, GetFrontier, DeleteFrontier, AddPending, GetPending,
    DeletePending.

Ltac tx_fields :=
  cbn [blocks addresses frontiers pendings representation fst snd
       frontier_Address frontier_Hash info_HeadBlock info_RepBlock
       info_OpenBlock info_Balance pending_Address pending_Amount negb] in *.

(** The two writers of the representation table are not unfolded: they
    never fail, and the store they leave is given by their equations. *)
Ltac tx_simpl :=
  tx_fields;
  rewrite ?lookup_insert_eq in *;
  repeat (progress (rewrite ?AddRepresentation_eq, ?SubRepresentation_eq); tx_fields).

Ltac tx_case :=
  match goal with
  | |- context [match ?m !! ?k with _ => _ end] => destruct (m !! k) eqn:?
  | |- context [if negb ?b then _ else _] => destruct b eqn:?
  | |- context [if ?b then _ else _] => destruct b eqn:?
  | |- context [match wallet.Compare ?a ?b with _ => _ end] =>
      destruct (wallet.Compare a b) eqn:?
  | |- context [match ?b with BOpen _ => _ | _ => _ end] => destruct b eqn:?
  end; tx_simpl.

Section LedgerFacts.
Context `{BlockOps}.

(** [addChangeBlock] writes the account record with [RepBlock] already set
    to the hash of the change block and only then asks
    [getRepresentative] for the old representative, which loads the block
    stored under [RepBlock].  That block is the change block itself: when
    it is not stored yet the lookup fails, and when it is, the closing
    [AddBlock] fails. *)
Lemma addChangeBlock_Err (blk : ChangeBlock) (s : Store) :
  exists e, snd (addChangeBlock blk s) = Err e.
Proof.
  tx_unfold. tx_simpl. repeat tx_case; try congruence; eauto.
Qed.

(** C1, what the code does: no change block is ever applied.  The handler
    returns an error on every store, so [AddBlock] leaves every store,
    its representation table included, as it was. *)
Theorem addChangeBlock_never_succeeds (blk : ChangeBlock) (s : Store) :
  (exists e, snd (addChangeBlock blk s) = Err e) /\
  (exists e, AddBlock (BChange blk) s = (s, Err e)).
Proof.
  pose proof (addChangeBlock_Err blk s) as Hh.
  split; [exact Hh|].
  destruct Hh as [e He].
  unfold AddBlock, Update, addBlock, bind, HasBlock, fail.
  repeat tx_case; eauto.
  destruct (addChangeBlock blk s) as [s' [u|e'|p]]; cbn in He; try discriminate; eauto.
Qed.

End LedgerFacts.

Section Scenarios.
#[local] Existing Instance fixture.ops.

(** The change of representative of the genesis account, on the ledger
    that holds only the genesis block, is turned down with badger's
    key-not-found. *)
Example change_on_genesis :
  AddBlock (BChange fixture.change1) fixture.genesisStore =
  (fixture.genesisStore, Err ErrKeyNotFound).
Proof. vm_compute. reflexivity. Qed.

End Scenarios.

(** ** What a handler does when it succeeds *)

Section Handlers.
Context `{BlockOps}.

Lemma Hash_Equal_true (h1 h2 : Hash) : Hash_Equal h1 h2 = true <-> h1 = h2.
Proof. unfold Hash_Equal. apply N.eqb_eq. Qed.

Lemma getRepresentative_eq (a : Address) (s : Store) info blk rep :
  addresses s !! a = Some info ->
  blocks s !! info_RepBlock info = Some blk ->
  representativeOf blk = Some rep ->
  getRepresentative a s = (s, Ok rep).
Proof.
  intros Ha Hb Hr. unfold getRepresentative, bind, GetAddress, GetBlock, ret, fail.
  rewrite Ha, Hb. destruct blk; cbn in Hr; try discriminate; congruence.
Qed.

Lemma getRepresentative_Ok_inv (a : Address) (s s' : Store) rep :
  getRepresentative a s = (s', Ok rep) ->
  s' = s /\ exists info blk, addresses s !! a = Some info /\
    blocks s !! info_RepBlock info = Some blk /\ representativeOf blk = Some rep.
Proof.
  unfold getRepresentative, bind, GetAddress, GetBlock, ret, fail.
  destruct (addresses s !! a) as [info|] eqn:Ha; [|discriminate].
  destruct (blocks s !! info_RepBlock info) as [blk|] eqn:Hb; [|discriminate].
  destruct blk; intros Heq; try discriminate; injection Heq as <- <-; eauto 10.
Qed.

(** The store a send block leaves. *)
Lemma addSendBlock_Ok (b : SendBlock) (s : Store) n info rblk rep :
  let h := block_Hash (BSend b) in
  frontiers s !! send_PreviousHash b = Some n ->
  address_Verify n h (send_Signature b) = true ->
  addresses s !! n = Some info ->
  info_HeadBlock info = send_PreviousHash b ->
  send_Balance b < info_Balance info ->
  pendings s !! (send_Destination b, h) = None ->
  blocks s !! info_RepBlock info = Some rblk ->
  representativeOf rblk = Some rep ->
  blocks s !! h = None ->
  addSendBlock b s =
  (mkStore (<[h := BSend b]> (blocks s))
           (<[n := mkAddressInfo h (info_RepBlock info) (info_OpenBlock info)
                                 (send_Balance b)]> (addresses s))
           (<[h := n]> (delete h (frontiers s)))
           (<[(send_Destination b, h) :=
                mkPending n (wallet.Sub (info_Balance info) (send_Balance b))]> (pendings s))
           (<[rep := valueOfBytes
                       (wallet.MarshalBinary (wallet.Sub (repOf s rep) (send_Balance b)))]>
              (representation s)),
   Ok tt).
Proof.
  intros h Hf Hsig Ha Hhead Hlt Hp Hb Hr Hh.
  unfold addSendBlock. cbv zeta. fold h. cbn [block_Root].
  unfold bind at 1. unfold GetFrontier. rewrite Hf. tx_simpl. rewrite Hsig. tx_simpl.
  unfold bind at 1. unfold GetAddress at 1. rewrite Ha.
  rewrite (proj2 (Hash_Equal_true _ _) Hhead). tx_simpl.
  rewrite (proj2 (Compare_Smaller _ _) Hlt).
  unfold bind at 1. unfold AddPending. rewrite Hp.
  unfold bind at 1. unfold UpdateAddress.
  unfold bind at 1.
  erewrite getRepresentative_eq; [| tx_simpl; reflexivity | tx_simpl; exact Hb | exact Hr].
  unfold bind at 1. rewrite SubRepresentation_eq. tx_simpl.
  unfold bind at 1. unfold DeleteFrontier. tx_simpl.
  unfold bind at 1. unfold AddFrontier. tx_simpl. rewrite lookup_delete_eq.
  unfold txn_AddBlock. fold h. tx_simpl. rewrite Hh. reflexivity.
Qed.

Lemma addSendBlock_Ok_inv (b : SendBlock) (s s' : Store) :
  let h := block_Hash (BSend b) in
  addSendBlock b s = (s', Ok tt) ->
  exists n info rblk rep,
    frontiers s !! send_PreviousHash b = Some n /\
    address_Verify n h (send_Signature b) = true /\
    addresses s !! n = Some info /\
    info_HeadBlock info = send_PreviousHash b /\
    send_Balance b < info_Balance info /\
    pendings s !! (send_Destination b, h) = None /\
    blocks s !! info_RepBlock info = Some rblk /\
    representativeOf rblk = Some rep /\
    blocks s !! h = None.
Proof.
  intros h. unfold addSendBlock. cbv zeta. fold h. cbn [block_Root].
  unfold bind at 1. unfold GetFrontier.
  destruct (frontiers s !! send_PreviousHash b) as [n|] eqn:Hf; [|discriminate]. tx_simpl.
  destruct (address_Verify n h (send_Signature b)) eqn:Hsig; [|discriminate]. tx_simpl.
  unfold bind at 1. unfold GetAddress at 1.
  destruct (addresses s !! n) as [info|] eqn:Ha; [|discriminate].
  destruct (Hash_Equal (info_HeadBlock info) (send_PreviousHash b)) eqn:Hhead;
    [|discriminate]. tx_simpl.
  destruct (wallet.Compare (send_Balance b) (info_Balance info)) eqn:Hc; try discriminate.
  unfold bind at 1. unfold AddPending.
  destruct (pendings s !! (send_Destination b, h)) eqn:Hp; [discriminate|].
  unfold bind at 1. unfold UpdateAddress.
  unfold bind at 1.
  match goal with |- context [getRepresentative n ?st] =>
    destruct (getRepresentative n st) as [s1 [rep|e|p]] eqn:Hg end; try discriminate.
  apply getRepresentative_Ok_inv in Hg as (-> & info' & rblk & Ha' & Hb & Hr).
  tx_simpl. injection Ha' as <-. tx_simpl.
  unfold bind at 1. rewrite SubRepresentation_eq. tx_simpl.
  unfold bind at 1. unfold DeleteFrontier. tx_simpl.
  unfold bind at 1. unfold AddFrontier. tx_simpl. rewrite lookup_delete_eq.
  unfold txn_AddBlock. fold h. tx_simpl.
  destruct (blocks s !! h) eqn:Hh; [discriminate|].
  intros _. exists n, info, rblk, rep.
  apply Hash_Equal_true in Hhead. apply Compare_Smaller in Hc. eauto 12.
Qed.

(** The store a receive block leaves. *)
Lemma addReceiveBlock_Ok (b : ReceiveBlock) (s : Store) n info pend rblk rep :
  let h := block_Hash (BReceive b) in
  frontiers s !! receive_PreviousHash b = Some n ->
  address_Verify n h (receive_Signature b) = true ->
  addresses s !! n = Some info ->
  info_HeadBlock info = receive_PreviousHash b ->
  pendings s !! (n, receive_SourceHash b) = Some pend ->
  blocks s !! info_RepBlock info = Some rblk ->
  representativeOf rblk = Some rep ->
  blocks s !! h = None ->
  addReceiveBlock b s =
  (mkStore (<[h := BReceive b]> (blocks s))
           (<[n := mkAddressInfo h (info_RepBlock info) (info_OpenBlock info)
                   (wallet.Add (info_Balance info) (pending_Amount pend))]> (addresses s))
           (<[h := n]> (delete h (frontiers s)))
           (delete (n, receive_SourceHash b) (pendings s))
           (<[rep := valueOfBytes
                       (wallet.MarshalBinary (wallet.Add (repOf s rep) (pending_Amount pend)))]>
              (representation s)),
   Ok tt).
Proof.
  intros h Hf Hsig Ha Hhead Hp Hb Hr Hh.
  unfold addReceiveBlock. cbv zeta. fold h. cbn [block_Root].
  unfold bind at 1. unfold GetFrontier. rewrite Hf. tx_simpl. rewrite Hsig. tx_simpl.
  unfold bind at 1. unfold GetAddress at 1. rewrite Ha.
  rewrite (proj2 (Hash_Equal_true _ _) Hhead). tx_simpl.
  unfold bind at 1. unfold orReturn, GetPending. rewrite Hp.
  unfold bind at 1. unfold UpdateAddress.
  unfold bind at 1. unfold DeletePending. tx_simpl.
  unfold bind at 1.
  erewrite getRepresentative_eq; [| tx_simpl; reflexivity | tx_simpl; exact Hb | exact Hr].
  unfold bind at 1. rewrite AddRepresentation_eq. tx_simpl.
  unfold bind at 1. unfold DeleteFrontier. tx_simpl.
  unfold bind at 1. unfold AddFrontier. tx_simpl. rewrite lookup_delete_eq.
  unfold txn_AddBlock. fold h. tx_simpl. rewrite Hh. reflexivity.
Qed.

Lemma addReceiveBlock_Ok_inv (b : ReceiveBlock) (s s' : Store) :
  let h := block_Hash (BReceive b) in
  addReceiveBlock b s = (s', Ok tt) ->
  exists n info pend rblk rep,
    frontiers s !! receive_PreviousHash b = Some n /\
    address_Verify n h (receive_Signature b) = true /\
    addresses s !! n = Some info /\
    info_HeadBlock info = receive_PreviousHash b /\
    pendings s !! (n, receive_SourceHash b) = Some pend /\
    blocks s !! info_RepBlock info = Some rblk /\
    representativeOf rblk = Some rep /\
    blocks s !! h = None.
Proof.
  intros h. unfold addReceiveBlock. cbv zeta. fold h. cbn [block_Root].
  unfold bind at 1. unfold GetFrontier.
  destruct (frontiers s !! receive_PreviousHash b) as [n|] eqn:Hf; [|discriminate]. tx_simpl.
  destruct (address_Verify n h (receive_Signature b)) eqn:Hsig; [|discriminate]. tx_simpl.
  unfold bind at 1. unfold GetAddress at 1.
  destruct (addresses s !! n) as [info|] eqn:Ha; [|discriminate].
  destruct (Hash_Equal (info_HeadBlock info) (receive_PreviousHash b)) eqn:Hhead;
    [|discriminate]. tx_simpl.
  unfold bind at 1. unfold orReturn, GetPending.
  destruct (pendings s !! (n, receive_SourceHash b)) as [pend|] eqn:Hp; [|discriminate].
  unfold bind at 1. unfold UpdateAddress.
  unfold bind at 1. unfold DeletePending. tx_simpl.
  unfold bind at 1.
  match goal with |- context [getRepresentative n ?st] =>
    destruct (getRepresentative n st) as [s1 [rep|e|p]] eqn:Hg end; try discriminate.
  apply getRepresentative_Ok_inv in Hg as (-> & info' & rblk & Ha' & Hb & Hr).
  tx_simpl. injection Ha' as <-. tx_simpl.
  unfold bind at 1. rewrite AddRepresentation_eq. tx_simpl.
  unfold bind at 1. unfold DeleteFrontier. tx_simpl.
  unfold bind at 1. unfold AddFrontier. tx_simpl. rewrite lookup_delete_eq.
  unfold txn_AddBlock. fold h. tx_simpl.
  destruct (blocks s !! h) eqn:Hh; [discriminate|].
  intros _. exists n, info, pend, rblk, rep.
  apply Hash_Equal_true in Hhead. eauto 12.
Qed.

(** The store an open block leaves. *)
Lemma addOpenBlock_Ok (b : OpenBlock) (s : Store) pend :
  let h := block_Hash (BOpen b) in
  address_Verify (open_Address b) h (open_Signature b) = true ->
  addresses s !! open_Address b = None ->
  pendings s !! (open_Address b, open_SourceHash b) = Some pend ->
  frontiers s !! h = None ->
  blocks s !! h = None ->
  addOpenBlock b s =
  (mkStore (<[h := BOpen b]> (blocks s))
           (<[open_Address b := mkAddressInfo h h h (pending_Amount pend)]> (addresses s))
           (<[h := open_Address b]> (frontiers s))
           (delete (open_Address b, open_SourceHash b) (pendings s))
           (<[open_Representative b :=
                valueOfBytes
                  (wallet.MarshalBinary
                     (wallet.Add (repOf s (open_Representative b)) (pending_Amount pend)))]>
              (representation s)),
   Ok tt).
Proof.
  intros h Hsig Ha Hp Hf Hh.
  unfold addOpenBlock. cbv zeta. fold h. rewrite Hsig. tx_simpl.
  unfold bind at 1. unfold errIsNil, GetAddress. rewrite Ha.
  unfold bind at 1. unfold orReturn, GetPending. rewrite Hp.
  unfold bind at 1. unfold AddAddress. rewrite Ha.
  unfold bind at 1. unfold DeletePending. tx_simpl.
  unfold bind at 1. rewrite AddRepresentation_eq. tx_simpl.
  unfold bind at 1. unfold AddFrontier. tx_simpl. rewrite Hf.
  unfold txn_AddBlock. fold h. tx_simpl. rewrite Hh. reflexivity.
Qed.

Lemma addOpenBlock_Ok_inv (b : OpenBlock) (s s' : Store) :
  let h := block_Hash (BOpen b) in
  addOpenBlock b s = (s', Ok tt) ->
  exists pend,
    address_Verify (open_Address b) h (open_Signature b) = true /\
    addresses s !! open_Address b = None /\
    pendings s !! (open_Address b, open_SourceHash b) = Some pend /\
    frontiers s !! h = None /\
    blocks s !! h = None.
Proof.
  intros h. unfold addOpenBlock. cbv zeta. fold h.
  destruct (address_Verify (open_Address b) h (open_Signature b)) eqn:Hsig;
    [|discriminate]. tx_simpl.
  unfold bind at 1. unfold errIsNil, GetAddress.
  destruct (addresses s !! open_Address b) eqn:Ha; [discriminate|].
  unfold bind at 1. unfold orReturn, GetPending.
  destruct (pendings s !! (open_Address b, open_SourceHash b)) as [pend|] eqn:Hp;
    [|discriminate].
  unfold bind at 1. unfold AddAddress. rewrite Ha.
  unfold bind at 1. unfold DeletePending. tx_simpl.
  unfold bind at 1. rewrite AddRepresentation_eq. tx_simpl.
  unfold bind at 1. unfold AddFrontier. tx_simpl.
  destruct (frontiers s !! h) eqn:Hf; [discriminate|].
  unfold txn_AddBlock. fold h. tx_simpl.
  destruct (blocks s !! h) eqn:Hh; [discriminate|].
  intros _. exists pend. eauto 10.
Qed.

(** Getting past the three checks of [addBlock]. *)
Lemma addBlock_dispatch (blk : Block) (s : Store) :
  block_Valid blk = true -> blocks s !! block_Hash blk = None ->
  is_Some (blocks s !! block_Root blk) ->
  addBlock blk s =
  match blk with
  | BOpen b => addOpenBlock b s
  | BSend b => addSendBlock b s
  | BReceive b => addReceiveBlock b s
  | BChange b => addChangeBlock b s
  | BOther _ => (s, Panic "bad block type")
  end.
Proof.
  intros Hv Hh [b Hb]. unfold addBlock, bind, HasBlock, fail, panic. cbv zeta.
  rewrite Hv; cbn. rewrite Hh; cbn. rewrite Hb; cbn. destruct blk; reflexivity.
Qed.

Lemma addBlock_Ok_inv (blk : Block) (s s' : Store) :
  addBlock blk s = (s', Ok tt) ->
  block_Valid blk = true /\ blocks s !! block_Hash blk = None /\
  is_Some (blocks s !! block_Root blk).
Proof.
  unfold addBlock, bind, HasBlock, fail, panic. cbv zeta.
  destruct (block_Valid blk); cbn; [|discriminate].
  destruct (blocks s !! block_Hash blk); cbn; [discriminate|].
  destruct (blocks s !! block_Root blk); cbn -[addOpenBlock addSendBlock
      addReceiveBlock addChangeBlock]; [|discriminate].
  eauto.
Qed.

End Handlers.

(** ** The checks of [addBlock] *)

Section AddBlockChecks.
Context `{BlockOps}.

Lemma handler_no_panic (s : Store) :
  (forall b msg, snd (addOpenBlock b s) <> Panic msg) /\
  (forall b msg, snd (addSendBlock b s) <> Panic msg) /\
  (forall b msg, snd (addReceiveBlock b s) <> Panic msg) /\
  (forall b msg, snd (addChangeBlock b s) <> Panic msg).
Proof.
  repeat split; intros b msg; tx_unfold; tx_simpl; repeat tx_case; discriminate.
Qed.

(** C7: [addBlock] checks in a fixed order.  Invalid work gives [ErrBadWork]
    whatever else holds; with valid work a stored hash gives
    [ErrBlockExists]; with valid work and a fresh hash a root that is not
    stored gives [ErrMissingPrevious]; only past these three checks is the
    handler of the variant run.  The three errors leave the transaction
    untouched. *)
Theorem addBlock_check_order (blk : Block) (s : Store) :
  (block_Valid blk = false -> addBlock blk s = (s, Err ErrBadWork)) /\
  (block_Valid blk = true -> is_Some (blocks s !! block_Hash blk) ->
   addBlock blk s = (s, Err ErrBlockExists)) /\
  (block_Valid blk = true -> blocks s !! block_Hash blk = None ->
   blocks s !! block_Root blk = None ->
   addBlock blk s = (s, Err ErrMissingPrevious)) /\
  (block_Valid blk = true -> blocks s !! block_Hash blk = None ->
   is_Some (blocks s !! block_Root blk) ->
   addBlock blk s =
   match blk with
   | BOpen b => addOpenBlock b s
   | BSend b => addSendBlock b s
   | BReceive b => addReceiveBlock b s
   | BChange b => addChangeBlock b s
   | BOther _ => (s, Panic "bad block type")
   end).
Proof.
  unfold addBlock, bind, HasBlock, fail, panic. cbv zeta.
  repeat split.
  - intros Hv. rewrite Hv. reflexivity.
  - intros Hv [b Hb]. rewrite Hv; cbn. rewrite Hb. reflexivity.
  - intros Hv Hh Hr. rewrite Hv; cbn. rewrite Hh; cbn. rewrite Hr. reflexivity.
  - intros Hv Hh [b Hb]. rewrite Hv; cbn. rewrite Hh; cbn. rewrite Hb; cbn.
    destruct blk; reflexivity.
Qed.

Lemma addBlock_panic_inv (blk : Block) (s : Store) (msg : string) :
  snd (addBlock blk s) = Panic msg ->
  (exists p, blk = BOther p) /\ msg = "bad block type"%string /\
  block_Valid blk = true /\ blocks s !! block_Hash blk = None /\
  is_Some (blocks s !! block_Root blk).
Proof.
  destruct (handler_no_panic s) as (Ho & Hs & Hr & Hc).
  unfold addBlock, bind, HasBlock, fail, panic. cbv zeta.
  destruct (block_Valid blk) eqn:Hv; cbn; [|discriminate].
  destruct (blocks s !! block_Hash blk) eqn:Hh; cbn; [discriminate|].
  destruct (blocks s !! block_Root blk) eqn:Hr'; cbn -[addOpenBlock addSendBlock
    addReceiveBlock addChangeBlock]; [|discriminate].
  destruct blk as [b'|b'|b'|b'|p]; intros Hp.
  - exfalso. exact (Ho _ _ Hp).
  - exfalso. exact (Hs _ _ Hp).
  - exfalso. exact (Hr _ _ Hp).
  - exfalso. exact (Hc _ _ Hp).
  - cbn in Hp. injection Hp as <-. eauto 10.
Qed.

(** C10: the call panics exactly when a value of a foreign block type gets
    past the three checks, and the panic is the one of the default branch;
    for a block of the four variants [addBlock] returns, with nil or with
    an error. *)
Theorem addBlock_panic_iff (blk : Block) (s : Store) :
  (forall msg, snd (addBlock blk s) = Panic msg <->
     (exists p, blk = BOther p) /\ msg = "bad block type"%string /\
     block_Valid blk = true /\ blocks s !! block_Hash blk = None /\
     is_Some (blocks s !! block_Root blk)) /\
  ((forall p, blk <> BOther p) ->
     snd (addBlock blk s) = Ok tt \/ exists e, snd (addBlock blk s) = Err e).
Proof.
  split.
  - intros msg. split; [apply addBlock_panic_inv|].
    intros ([p ->] & -> & Hv & Hh & Hr').
    rewrite (addBlock_dispatch (BOther p) s Hv Hh Hr'). reflexivity.
  - intros Hfour.
    destruct (snd (addBlock blk s)) as [[]|e|msg] eqn:Heq; eauto.
    exfalso. apply addBlock_panic_inv in Heq as ([p ->] & _). exact (Hfour p eq_refl).
Qed.

End AddBlockChecks.

Section ScenariosChecks.
#[local] Existing Instance fixture.ops.

Lemma addBlock_check_order_witness :
  addBlock (BSend fixture.sendBadWork) fixture.genesisStore
    = (fixture.genesisStore, Err ErrBadWork) /\
  addBlock (BOpen fixture.genesis) fixture.genesisStore
    = (fixture.genesisStore, Err ErrBlockExists) /\
  addBlock (BSend fixture.sendOrphan) fixture.genesisStore
    = (fixture.genesisStore, Err ErrMissingPrevious) /\
  addBlock (BSend fixture.send1) fixture.genesisStore
    = addSendBlock fixture.send1 fixture.genesisStore.
Proof.
  split; [|split; [|split]].
  - apply (addBlock_check_order (BSend fixture.sendBadWork) fixture.genesisStore).
    reflexivity.
  - apply (addBlock_check_order (BOpen fixture.genesis) fixture.genesisStore).
    + reflexivity.
    + vm_compute. eauto.
  - apply (addBlock_check_order (BSend fixture.sendOrphan) fixture.genesisStore);
      reflexivity.
  - apply (addBlock_check_order (BSend fixture.send1) fixture.genesisStore).
    + reflexivity.
    + reflexivity.
    + vm_compute. eauto.
Defined.

Lemma addBlock_panic_iff_witness :
  snd (addBlock fixture.foreign fixture.genesisStore) = Panic "bad block type" /\
  (snd (addBlock (BSend fixture.sendZero) fixture.genesisStore) = Ok tt \/
   exists e, snd (addBlock (BSend fixture.sendZero) fixture.genesisStore) = Err e).
Proof.
  split.
  - apply (addBlock_panic_iff fixture.foreign fixture.genesisStore).
    split; [exists 900%N; reflexivity|].
    split; [reflexivity|]. split; [reflexivity|]. split; [reflexivity|].
    vm_compute. eauto.
  - apply (addBlock_panic_iff (BSend fixture.sendZero) fixture.genesisStore).
    intros p. discriminate.
Defined.

End ScenariosChecks.

(** ** Genesis *)

Section Genesis.
Context `{BlockOps}.

(** C8: with a validly signed genesis block, [NewLedger] on a store without
    blocks (and without a record or frontier in the way) installs the
    block, the account record [{head = rep = open = hash, balance}] and the
    frontier; on a store that has blocks it succeeds, changing nothing,
    when the genesis hash is stored, and fails with [ErrBadGenesis],
    changing nothing, when it is not; opening the empty store and then
    opening the result again succeeds twice and leaves one block. *)
Theorem NewLedger_genesis (opts : LedgerOptions) :
  let G := GenesisBlock opts in
  let h := block_Hash (BOpen G) in
  let info := mkAddressInfo h h h (GenesisBalance opts) in
  address_Verify (open_Address G) h (open_Signature G) = true ->
  (forall s, blocks s = ∅ -> addresses s !! open_Address G = None ->
             frontiers s !! h = None ->
     NewLedger s opts =
     (mkStore (<[h := BOpen G]> (blocks s)) (<[open_Address G := info]> (addresses s))
              (<[h := open_Address G]> (frontiers s)) (pendings s) (representation s),
      Ok tt)) /\
  (forall s, blocks s <> ∅ ->
     (is_Some (blocks s !! h) -> NewLedger s opts = (s, Ok tt)) /\
     (blocks s !! h = None -> NewLedger s opts = (s, Err ErrBadGenesis))) /\
  (exists s1, NewLedger emptyStore opts = (s1, Ok tt) /\
              blocks s1 = {[ h := BOpen G ]} /\
              addresses s1 = {[ open_Address G := info ]} /\
              frontiers s1 = {[ h := open_Address G ]} /\
              NewLedger s1 opts = (s1, Ok tt) /\
              CountBlocks s1 = Ok 1%nat).
Proof.
  intros G h info Hsig.
  assert (Hempty : forall s, blocks s = ∅ -> addresses s !! open_Address G = None ->
             frontiers s !! h = None ->
     NewLedger s opts =
     (mkStore (<[h := BOpen G]> (blocks s)) (<[open_Address G := info]> (addresses s))
              (<[h := open_Address G]> (frontiers s)) (pendings s) (representation s),
      Ok tt)).
  { intros s Hb Ha Hf. unfold NewLedger, setGenesis. fold G. cbv zeta. fold h.
    rewrite Hsig. cbn [negb]. unfold Update, bind, Empty.
    rewrite (bool_decide_eq_true_2 _ Hb). cbn [negb].
    unfold txn_AddBlock. fold h. rewrite Hb, lookup_empty.
    unfold AddAddress; tx_simpl. rewrite Ha.
    unfold AddFrontier; tx_simpl. rewrite Hf. reflexivity. }
  assert (Hfull : forall s, blocks s <> ∅ ->
     (is_Some (blocks s !! h) -> NewLedger s opts = (s, Ok tt)) /\
     (blocks s !! h = None -> NewLedger s opts = (s, Err ErrBadGenesis))).
  { intros s Hb. unfold NewLedger, setGenesis. fold G. cbv zeta. fold h.
    rewrite Hsig. cbn [negb]. unfold Update, bind, Empty.
    rewrite (bool_decide_eq_false_2 _ Hb). cbn [negb]. unfold HasBlock.
    split.
    - intros [b Hb']. rewrite Hb'. reflexivity.
    - intros Hb'. rewrite Hb'. reflexivity. }
  split; [exact Hempty|]. split; [exact Hfull|].
  eexists. split; [apply (Hempty emptyStore); apply lookup_empty || reflexivity|].
  cbn [blocks addresses frontiers emptyStore].
  split; [reflexivity|]. split; [reflexivity|]. split; [reflexivity|].
  split.
  - apply Hfull.
    + cbn. apply insert_non_empty.
    + cbn. rewrite lookup_insert_eq. eauto.
  - unfold CountBlocks, View, txn_CountBlocks. cbn.
    rewrite map_size_insert_None by apply lookup_empty.
    rewrite map_size_empty. reflexivity.
Qed.

End Genesis.

Section ScenariosGenesis.
#[local] Existing Instance fixture.ops.

Lemma NewLedger_genesis_witness :
  exists s1, NewLedger emptyStore fixture.opts = (s1, Ok tt) /\
             NewLedger s1 fixture.opts = (s1, Ok tt) /\
             CountBlocks s1 = Ok 1%nat /\
             NewLedger s1 fixture.opts' = (s1, Err ErrBadGenesis).
Proof.
  destruct (NewLedger_genesis fixture.opts) as (_ & _ & s1 & H1 & Hb & _ & _ & H2 & H3).
  - reflexivity.
  - exists s1. split; [exact H1|]. split; [exact H2|]. split; [exact H3|].
    destruct (NewLedger_genesis fixture.opts') as (_ & Hfull & _).
    + reflexivity.
    + apply Hfull.
      * rewrite Hb. apply insert_non_empty.
      * rewrite Hb. reflexivity.
Defined.

End ScenariosGenesis.

(** ** Send blocks *)

Section Send.
Context `{BlockOps}.

(** C5: a send block on an account with balance [B] that states the new
    balance [b] (the frontier, the signature and the head being in order).
    With [B <= b] it is turned down as a negative or zero spend and nothing
    is written.  With [b < B], on a ledger where the block is new and the
    account's representative block is stored, it is applied: the pending
    record of the destination under the block's hash holds [B - b], and the
    account record has the block's hash as head and [b] as balance. *)
Theorem addSendBlock_balance (b : SendBlock) (s : Store) n info :
  let h := block_Hash (BSend b) in
  frontiers s !! send_PreviousHash b = Some n ->
  address_Verify n h (send_Signature b) = true ->
  addresses s !! n = Some info ->
  info_HeadBlock info = send_PreviousHash b ->
  (info_Balance info <= send_Balance b ->
   addSendBlock b s =
   (s, Err (ErrNegativeSpend (send_Balance b) (info_Balance info)))) /\
  (send_Balance b < info_Balance info ->
   0 <= send_Balance b -> info_Balance info < 2 ^ 128 ->
   pendings s !! (send_Destination b, h) = None ->
   (exists rblk rep, blocks s !! info_RepBlock info = Some rblk /\
                     representativeOf rblk = Some rep) ->
   blocks s !! h = None ->
   exists s', addSendBlock b s = (s', Ok tt) /\
     pendings s' !! (send_Destination b, h) =
       Some (mkPending n (info_Balance info - send_Balance b)) /\
     addresses s' !! n =
       Some (mkAddressInfo h (info_RepBlock info) (info_OpenBlock info) (send_Balance b))).
Proof.
  intros h Hf Hsig Ha Hhead. split.
  - intros Hle. unfold addSendBlock. cbv zeta. fold h. cbn [block_Root].
    unfold bind at 1. unfold GetFrontier. rewrite Hf. tx_simpl. rewrite Hsig. tx_simpl.
    unfold bind at 1. unfold GetAddress at 1. rewrite Ha.
    rewrite (proj2 (Hash_Equal_true _ _) Hhead). tx_simpl.
    unfold wallet.Compare.
    destruct (Z.compare_spec (send_Balance b) (info_Balance info)); try reflexivity.
    lia.
  - intros Hlt Hb0 HB Hp (rblk & rep & Hb & Hr) Hh.
    eexists. split; [exact (addSendBlock_Ok b s n info rblk rep Hf Hsig Ha Hhead Hlt Hp Hb Hr Hh)|].
    tx_simpl. split; [|reflexivity].
    rewrite Sub_exact; [reflexivity | lia | exact HB].
Qed.

(** C2, what the code does: the handlers call [DeleteFrontier] with the
    hash of the new block, which has no frontier yet, so the frontier
    keyed by the previous block stays.  After every send, receive or change
    block that [addBlock] applied, the account has a frontier under the
    previous hash and one under the new hash, two different keys, and
    only the second is the head of its record. *)
Theorem stale_frontier_after_apply (blk : Block) (s s' : Store) :
  (forall b, blk <> BOpen b) ->
  addBlock blk s = (s', Ok tt) ->
  exists account info,
    frontiers s !! block_Root blk = Some account /\
    frontiers s' !! block_Root blk = Some account /\
    frontiers s' !! block_Hash blk = Some account /\
    block_Root blk <> block_Hash blk /\
    addresses s' !! account = Some info /\
    info_HeadBlock info = block_Hash blk.
Proof.
  intros Hnot Hok.
  destruct (addBlock_Ok_inv _ _ _ Hok) as (Hv & Hh & Hroot).
  assert (Hne : block_Root blk <> block_Hash blk).
  { intros Heq. rewrite Heq, Hh in Hroot. destruct Hroot; discriminate. }
  rewrite (addBlock_dispatch _ _ Hv Hh Hroot) in Hok.
  destruct blk as [b|b|b|b|p].
  - exfalso. exact (Hnot b eq_refl).
  - destruct (addSendBlock_Ok_inv _ _ _ Hok)
      as (n & info & rblk & rep & Hf & Hsig & Ha & Hhead & Hlt & Hp & Hb & Hr & _).
    rewrite (addSendBlock_Ok b s n info rblk rep Hf Hsig Ha Hhead Hlt Hp Hb Hr Hh) in Hok.
    injection Hok as <-. cbn [block_Root] in *. tx_simpl.
    eexists n, _. split; [exact Hf|].
    rewrite lookup_insert_ne by congruence.
    rewrite lookup_delete_ne by congruence.
    split; [exact Hf|]. split; [reflexivity|]. split; [exact Hne|].
    split; [apply lookup_insert_eq | reflexivity].
  - destruct (addReceiveBlock_Ok_inv _ _ _ Hok)
      as (n & info & pend & rblk & rep & Hf & Hsig & Ha & Hhead & Hp & Hb & Hr & _).
    rewrite (addReceiveBlock_Ok b s n info pend rblk rep Hf Hsig Ha Hhead Hp Hb Hr Hh) in Hok.
    injection Hok as <-. cbn [block_Root] in *. tx_simpl.
    eexists n, _. split; [exact Hf|].
    rewrite lookup_insert_ne by congruence.
    rewrite lookup_delete_ne by congruence.
    split; [exact Hf|]. split; [reflexivity|]. split; [exact Hne|].
    split; [apply lookup_insert_eq | reflexivity].
  - exfalso. destruct (addChangeBlock_Err b s) as [e He].
    rewrite Hok in He. discriminate.
  - discriminate.
Qed.

End Send.

Section ScenariosSend.
#[local] Existing Instance fixture.ops.

Lemma addSendBlock_balance_witness :
  addSendBlock fixture.sendZero fixture.genesisStore =
    (fixture.genesisStore,
     Err (ErrNegativeSpend fixture.genesisBalance fixture.genesisBalance)) /\
  exists s', addSendBlock fixture.send1 fixture.genesisStore = (s', Ok tt) /\
    pendings s' !! (200%N, 18%N) = Some (mkPending 100 10) /\
    addresses s' !! 100%N = Some (mkAddressInfo 18 9 9 (fixture.genesisBalance - 10)).
Proof.
  split.
  - refine (proj1 (addSendBlock_balance fixture.sendZero fixture.genesisStore 100
                     (mkAddressInfo 9 9 9 fixture.genesisBalance) _ _ _ _) _);
      reflexivity.
  - refine (proj2 (addSendBlock_balance fixture.send1 fixture.genesisStore 100
                     (mkAddressInfo 9 9 9 fixture.genesisBalance) _ _ _ _)
                  _ _ _ _ _ _);
      try reflexivity; try (vm_compute; discriminate).
    exists (BOpen fixture.genesis), 100%N. split; reflexivity.
Defined.

Lemma stale_frontier_after_apply_witness :
  exists account info,
    frontiers fixture.genesisStore !! 9%N = Some account /\
    frontiers fixture.afterSend !! 9%N = Some account /\
    frontiers fixture.afterSend !! 18%N = Some account /\
    9%N <> 18%N /\
    addresses fixture.afterSend !! account = Some info /\
    info_HeadBlock info = 18%N.
Proof.
  refine (stale_frontier_after_apply (BSend fixture.send1) fixture.genesisStore
            fixture.afterSend _ _).
  - intros b. discriminate.
  - vm_compute. reflexivity.
Defined.

(** The two frontiers of the genesis account after its first send, and
    the count that no longer matches the number of accounts. *)
Example two_frontiers_after_send :
  map_to_list (frontiers fixture.afterSend) = [(18%N, 100%N); (9%N, 100%N)] /\
  size (frontiers fixture.afterSend) = 2%nat /\
  size (addresses fixture.afterSend) = 1%nat.
Proof. vm_compute. repeat split. Qed.

End ScenariosSend.

(** ** What stays true across calls *)

Create HintDb ledger.
#[export] Hint Opaque AddRepresentation SubRepresentation GetRepresentation
  setRepresentation : ledger.

Section Frames.
Context `{BlockOps}.

Lemma preserves_readonly {A} (P : Store -> Prop) (m : Tx A) :
  readonly m -> preserves P m.
Proof. intros Hr s HP. rewrite Hr. exact HP. Qed.

Lemma preserves_bind {A B} (P : Store -> Prop) (m : Tx A) (k : A -> Tx B) :
  preserves P m -> (forall a, preserves P (k a)) -> preserves P (bind m k).
Proof.
  intros Hm Hk s HP. unfold bind. specialize (Hm s HP).
  destruct (m s) as [s1 [a|e|p]]; cbn in *; try exact Hm.
  apply Hk. exact Hm.
Qed.

Lemma preserves_orReturn {A} (P : Store -> Prop) (e : Error) (m : Tx A) :
  preserves P m -> preserves P (orReturn e m).
Proof.
  intros Hm s HP. unfold orReturn. specialize (Hm s HP).
  destruct (m s) as [s1 [a|e'|p]]; exact Hm.
Qed.

Lemma preserves_errIsNil {A} (P : Store -> Prop) (m : Tx A) :
  preserves P m -> preserves P (errIsNil m).
Proof.
  intros Hm s HP. unfold errIsNil. specialize (Hm s HP).
  destruct (m s) as [s1 [a|e'|p]]; exact Hm.
Qed.

Lemma readonly_ret {A} (a : A) : readonly (ret a).
Proof. intros s. reflexivity. Qed.
Lemma readonly_fail {A} (e : Error) : readonly (@fail A e).
Proof. intros s. reflexivity. Qed.
Lemma readonly_panic {A} (p : string) : readonly (@panic A p).
Proof. intros s. reflexivity. Qed.
Lemma readonly_GetBlock h : readonly (GetBlock h).
Proof. intros s. unfold GetBlock. destruct (blocks s !! h); reflexivity. Qed.
Lemma readonly_HasBlock h : readonly (HasBlock h).
Proof. intros s. unfold HasBlock. destruct (blocks s !! h); reflexivity. Qed.
Lemma readonly_GetAddress a : readonly (GetAddress a).
Proof. intros s. unfold GetAddress. destruct (addresses s !! a); reflexivity. Qed.
Lemma readonly_GetFrontier h : readonly (GetFrontier h).
Proof. intros s. unfold GetFrontier. destruct (frontiers s !! h); reflexivity. Qed.
Lemma readonly_GetPending a h : readonly (GetPending a h).
Proof. intros s. unfold GetPending. destruct (pendings s !! (a, h)); reflexivity. Qed.
Lemma readonly_getRepresentative a : readonly (getRepresentative a).
Proof.
  intros s. unfold getRepresentative, bind, GetAddress, GetBlock, ret, fail.
  destruct (addresses s !! a) as [info|]; [|reflexivity].
  destruct (blocks s !! info_RepBlock info) as [[]|]; reflexivity.
Qed.

Variable a : Address.
Variable src : Hash.

Lemma claimed_txn_AddBlock blk : preserves (claimed a src) (txn_AddBlock blk).
Proof.
  intros s (Ha & Hb & Hp). unfold txn_AddBlock.
  destruct (blocks s !! block_Hash blk) eqn:Hh; cbn; [by repeat split|].
  repeat split; trivial. cbn.
  destruct (decide (block_Hash blk = src)) as [->|Hne].
  - rewrite lookup_insert_eq. eauto.
  - by rewrite lookup_insert_ne.
Qed.

Lemma claimed_AddAddress a' info : preserves (claimed a src) (AddAddress a' info).
Proof.
  intros s (Ha & Hb & Hp). unfold AddAddress.
  destruct (addresses s !! a') eqn:Ha'; cbn; [by repeat split|].
  repeat split; trivial. cbn.
  destruct (decide (a' = a)) as [->|Hne].
  - rewrite lookup_insert_eq. eauto.
  - by rewrite lookup_insert_ne.
Qed.

Lemma claimed_UpdateAddress a' info : preserves (claimed a src) (UpdateAddress a' info).
Proof.
  intros s (Ha & Hb & Hp). unfold UpdateAddress. cbn.
  repeat split; trivial. cbn.
  destruct (decide (a' = a)) as [->|Hne].
  - rewrite lookup_insert_eq. eauto.
  - by rewrite lookup_insert_ne.
Qed.

Lemma claimed_AddFrontier f : preserves (claimed a src) (AddFrontier f).
Proof.
  intros s HP. unfold AddFrontier.
  destruct (frontiers s !! frontier_Hash f); exact HP.
Qed.

Lemma claimed_DeleteFrontier h : preserves (claimed a src) (DeleteFrontier h).
Proof. intros s HP. exact HP. Qed.

Lemma claimed_AddPending d h pend :
  h <> src -> preserves (claimed a src) (AddPending d h pend).
Proof.
  intros Hne s (Ha & Hb & Hp). unfold AddPending.
  destruct (pendings s !! (d, h)); cbn; [by repeat split|].
  repeat split; trivial. cbn. rewrite lookup_insert_ne by congruence. exact Hp.
Qed.

Lemma claimed_DeletePending d h : preserves (claimed a src) (DeletePending d h).
Proof.
  intros s (Ha & Hb & Hp). unfold DeletePending. cbn.
  repeat split; trivial. cbn.
  destruct (decide ((d, h) = (a, src))) as [->|Hne].
  - apply lookup_delete_eq.
  - by rewrite lookup_delete_ne.
Qed.

Lemma claimed_AddRepresentation r m : preserves (claimed a src) (AddRepresentation r m).
Proof. intros s HP. rewrite AddRepresentation_eq. exact HP. Qed.

Lemma claimed_SubRepresentation r m : preserves (claimed a src) (SubRepresentation r m).
Proof. intros s HP. rewrite SubRepresentation_eq. exact HP. Qed.

End Frames.

#[export] Hint Resolve preserves_readonly readonly_ret readonly_fail readonly_panic
  readonly_GetBlock readonly_HasBlock readonly_GetAddress readonly_GetFrontier
  readonly_GetPending readonly_getRepresentative
  preserves_orReturn preserves_errIsNil
  claimed_txn_AddBlock claimed_AddAddress claimed_UpdateAddress claimed_AddFrontier
  claimed_DeleteFrontier claimed_AddPending claimed_DeletePending
  claimed_AddRepresentation claimed_SubRepresentation : ledger.

Ltac pres :=
  repeat first
    [ solve [eauto with ledger]
    | match goal with
      | |- preserves _ (if ?b then _ else _) => destruct b
      | |- preserves _ (match ?x with _ => _ end) => destruct x
      end
    | apply preserves_bind; [|intros ?] ].

Section Claimed.
Context `{BlockOps}.
Variable a : Address.
Variable src : Hash.

Lemma claimed_addOpenBlock b : preserves (claimed a src) (addOpenBlock b).
Proof. unfold addOpenBlock. cbv zeta. pres. Qed.

Lemma claimed_addSendBlock b :
  block_Hash (BSend b) <> src -> preserves (claimed a src) (addSendBlock b).
Proof. intros Hne. unfold addSendBlock. cbv zeta. pres. Qed.

Lemma claimed_addReceiveBlock b : preserves (claimed a src) (addReceiveBlock b).
Proof. unfold addReceiveBlock. cbv zeta. pres. Qed.

Lemma claimed_addChangeBlock b : preserves (claimed a src) (addChangeBlock b).
Proof. unfold addChangeBlock. cbv zeta. pres. Qed.

Lemma claimed_addBlock blk : preserves (claimed a src) (addBlock blk).
Proof.
  intros s HP. unfold addBlock, bind, HasBlock, fail, panic. cbv zeta.
  destruct (block_Valid blk); cbn; [|exact HP].
  destruct (blocks s !! block_Hash blk) eqn:Hh; cbn; [exact HP|].
  destruct (blocks s !! block_Root blk); cbn -[addOpenBlock addSendBlock
    addReceiveBlock addChangeBlock]; [|exact HP].
  destruct blk as [b'|b'|b'|b'|p].
  - apply claimed_addOpenBlock, HP.
  - apply claimed_addSendBlock; [|exact HP].
    intros Heq. destruct HP as (_ & [blk Hb] & _). cbn in Hh. congruence.
  - apply claimed_addReceiveBlock, HP.
  - apply claimed_addChangeBlock, HP.
  - exact HP.
Qed.

Lemma claimed_later s1 s2 : later s1 s2 -> claimed a src s1 -> claimed a src s2.
Proof.
  induction 1 as [s|s1 s2 s3 blk r Hl IH Hstep]; intros HP; [exact HP|].
  specialize (IH HP). pose proof (claimed_addBlock blk s2 IH) as Hc.
  rewrite Hstep in Hc. exact Hc.
Qed.

End Claimed.

(** ** Open blocks *)

Section Open.
Context `{BlockOps}.

(** C6, as the code has it.  A valid open block with hash [h] for a new
    account, claiming a pending record of amount [a], is applied: the
    account gets the record [{head = rep = open = h, balance = a}], the
    pending record is deleted and [AddRepresentation] writes, for the
    block's representative, the bytes of the weight it read plus [a]
    (modulo 2^128); what [GetRepresentation] then returns is what
    [UnmarshalBinary] makes of these bytes.  In every later state of
    the ledger the pending record stays absent and the account stays
    present.  So a later receive on that account's chain claiming the
    same source, once past the frontier, signature and head checks, fails
    with [ErrMissingSource]; a later validly signed open block for the
    account fails earlier, with "account already exists", because
    [addOpenBlock] looks the account up before the pending record. *)
Theorem addOpenBlock_claims_pending (b : OpenBlock) (s : Store) (pend : Pending) :
  let h := block_Hash (BOpen b) in
  let addr := open_Address b in
  let src := open_SourceHash b in
  let rep := open_Representative b in
  block_Valid (BOpen b) = true ->
  blocks s !! h = None ->
  is_Some (blocks s !! src) ->
  address_Verify addr h (open_Signature b) = true ->
  addresses s !! addr = None ->
  pendings s !! (addr, src) = Some pend ->
  frontiers s !! h = None ->
  exists s1,
    addBlock (BOpen b) s = (s1, Ok tt) /\
    addresses s1 !! addr = Some (mkAddressInfo h h h (pending_Amount pend)) /\
    pendings s1 !! (addr, src) = None /\
    storedWeight s1 rep =
      Some (wallet.MarshalBinary (wallet.Add (repOf s rep) (pending_Amount pend))) /\
    GetRepresentation rep s1 =
      (s1, wallet.UnmarshalBinary
             (wallet.MarshalBinary (wallet.Add (repOf s rep) (pending_Amount pend)))) /\
    (0 <= repOf s rep -> 0 <= pending_Amount pend ->
     repOf s rep + pending_Amount pend < 2 ^ 128 ->
     wallet.Add (repOf s rep) (pending_Amount pend) = repOf s rep + pending_Amount pend) /\
    forall s2, later s1 s2 ->
      pendings s2 !! (addr, src) = None /\
      (forall r, receive_SourceHash r = src ->
         frontiers s2 !! receive_PreviousHash r = Some addr ->
         address_Verify addr (block_Hash (BReceive r)) (receive_Signature r) = true ->
         (forall info, addresses s2 !! addr = Some info ->
                       info_HeadBlock info = receive_PreviousHash r) ->
         addReceiveBlock r s2 = (s2, Err ErrMissingSource)) /\
      (forall b2, open_Address b2 = addr ->
         address_Verify addr (block_Hash (BOpen b2)) (open_Signature b2) = true ->
         addOpenBlock b2 s2 = (s2, Err (ErrNew "account already exists"))).
Proof.
  intros h addr src rep Hv Hh Hsrc Hsig Ha Hp Hf.
  eexists. split.
  { rewrite (addBlock_dispatch (BOpen b) s Hv Hh Hsrc).
    exact (addOpenBlock_Ok b s pend Hsig Ha Hp Hf Hh). }
  fold h addr src rep. tx_simpl.
  split; [reflexivity|].
  split; [apply lookup_delete_eq|].
  split; [apply storedWeight_written|].
  split.
  { rewrite GetRepresentation_repOf, repOf_written, UnmarshalBinary_MarshalBinary.
    reflexivity. }
  split.
  { intros H0 H1 H2. apply Add_exact; assumption. }
  intros s2 Hlater.
  assert (Hc : claimed addr src s2).
  { apply (claimed_later addr src _ _ Hlater). repeat split; cbn.
    - rewrite lookup_insert_eq. eauto.
    - destruct (decide (h = src)) as [->|Hne].
      + rewrite lookup_insert_eq. eauto.
      + by rewrite lookup_insert_ne.
    - apply lookup_delete_eq. }
  destruct Hc as ([info Hinfo] & _ & Hnone).
  split; [exact Hnone|]. split.
  - intros r Hr Hfr Hsr Hhead.
    unfold addReceiveBlock. cbv zeta. cbn [block_Root].
    unfold bind at 1. unfold GetFrontier. rewrite Hfr. tx_simpl. rewrite Hsr. tx_simpl.
    unfold bind at 1. unfold GetAddress at 1. rewrite Hinfo.
    rewrite (proj2 (Hash_Equal_true _ _) (Hhead _ Hinfo)). tx_simpl.
    unfold bind at 1. unfold orReturn, GetPending. rewrite Hr, Hnone. reflexivity.
  - intros b2 Hb2 Hs2.
    unfold addOpenBlock. cbv zeta. rewrite Hb2, Hs2. tx_simpl.
    unfold bind at 1. unfold errIsNil, GetAddress. rewrite Hinfo. reflexivity.
Qed.

End Open.

Section ScenariosOpen.
#[local] Existing Instance fixture.ops.

Lemma addOpenBlock_claims_pending_witness :
  exists s1,
    addBlock (BOpen fixture.open1) fixture.afterSend = (s1, Ok tt) /\
    addresses s1 !! 200%N = Some (mkAddressInfo 25 25 25 10) /\
    pendings s1 !! (200%N, 18%N) = None /\
    storedWeight s1 300 = Some (wallet.MarshalBinary 10) /\
    GetRepresentation 300 s1 = (s1, Ok (10 * 2 ^ 120)) /\
    addReceiveBlock fixture.receive1 s1 = (s1, Err ErrMissingSource) /\
    addOpenBlock fixture.open2 s1 = (s1, Err (ErrNew "account already exists")).
Proof.
  destruct (addOpenBlock_claims_pending fixture.open1 fixture.afterSend (mkPending 100 10))
    as (s1 & Hok & Hinfo & Hpend & Hst & Hget & Hrep & Hlater);
    try reflexivity.
  { vm_compute. eauto. }
  exists s1.
  split; [exact Hok|]. split; [exact Hinfo|]. split; [exact Hpend|].
  split.
  { etransitivity; [exact Hst|].
    rewrite Hrep by (vm_compute; first [reflexivity | discriminate]). reflexivity. }
  split.
  { etransitivity; [exact Hget|].
    rewrite Hrep by (vm_compute; first [reflexivity | discriminate]). reflexivity. }
  destruct (Hlater s1 (later_refl s1)) as (_ & Hrecv & Hopen).
  split.
  - apply Hrecv; try reflexivity.
    + injection Hok as <-. reflexivity.
    + intros info Hi. rewrite Hinfo in Hi. injection Hi as <-. reflexivity.
  - apply Hopen; reflexivity.
Defined.

(** C6 as stated fails for the open block: after [open1] has claimed
    [send1] for account 200, a second validly signed open block for the
    same account and source is turned down with "account already
    exists", not with [ErrMissingSource]. *)
Lemma second_open_counterexample :
  addBlock (BOpen fixture.open1) fixture.afterSend = (fixture.afterOpen, Ok tt) /\
  open_Address fixture.open2 = open_Address fixture.open1 /\
  open_SourceHash fixture.open2 = open_SourceHash fixture.open1 /\
  pendings fixture.afterOpen !! (200%N, 18%N) = None /\
  snd (addBlock (BOpen fixture.open2) fixture.afterOpen)
    = Err (ErrNew "account already exists") /\
  snd (addBlock (BOpen fixture.open2) fixture.afterOpen) <> Err ErrMissingSource.
Proof. vm_compute. repeat split; discriminate. Qed.

End ScenariosOpen.

(** ** Failed blocks *)

Section Failures.
Context `{BlockOps}.

(** An error from a check that precedes the first write of a handler
    leaves the transaction as it found it. *)
Lemma addBlock_validationError (blk : Block) (s s' : Store) (e : Error) :
  addBlock blk s = (s', Err e) -> validationError e = true -> s' = s.
Proof.
  unfold addBlock, bind, HasBlock, fail, panic. cbv zeta.
  destruct (block_Valid blk); tx_simpl; [|intros [= <- <-]; reflexivity].
  destruct (blocks s !! block_Hash blk) eqn:Hh; tx_simpl; [intros [= <- <-]; reflexivity|].
  destruct (blocks s !! block_Root blk) eqn:Hr; tx_simpl; [|intros [= <- <-]; reflexivity].
  destruct blk as [b'|b'|b'|b'|p]; [| | | |discriminate];
    tx_unfold; cbv zeta; tx_simpl; cbn [block_Root] in *;
    repeat tx_case; intros Heq; try discriminate;
    injection Heq as <- <-; try reflexivity; cbn; try discriminate; try congruence.
Qed.

Lemma addBlocks_loop_app (pre rest : list Block) (s : Store) :
  addBlocks_loop (pre ++ rest) s =
  match addBlocks_loop pre s with
  | (s1, Panic p) => (s1, Panic p)
  | (s1, _) => addBlocks_loop rest s1
  end.
Proof.
  revert s. induction pre as [|blk pre IH]; intros s; [reflexivity|].
  cbn. destruct (addBlock blk s) as [s1 [[]|e|p]]; try apply IH. reflexivity.
Qed.

(** C3: a block that fails with a validation error leaves no trace.
    [AddBlock] runs [addBlock] in a transaction of its own, so a block
    that fails leaves the store as it was, whatever the error.
    [AddBlocks] runs the whole batch in one transaction that is committed
    at the end; a block of the batch that fails with a validation error
    (bad work, block exists, missing previous, bad signature, account
    exists, unexpected head, missing source, negative or zero spend) has
    written nothing, and the batch commits what it commits without that
    block. *)
Theorem failed_block_leaves_no_trace (blk : Block) :
  (forall s e, snd (addBlock blk s) = Err e -> AddBlock blk s = (s, Err e)) /\
  (forall s s' e, addBlock blk s = (s', Err e) -> validationError e = true -> s' = s) /\
  (forall pre post s e,
     snd (addBlock blk (fst (addBlocks_loop pre s))) = Err e ->
     validationError e = true ->
     AddBlocks (pre ++ blk :: post) s = AddBlocks (pre ++ post) s).
Proof.
  split; [|split].
  - intros s e He. unfold AddBlock, Update.
    destruct (addBlock blk s) as [s' [u|e'|p]]; cbn in He; try discriminate.
    congruence.
  - apply addBlock_validationError.
  - intros pre post s e He Hval. unfold AddBlocks, Update.
    rewrite !addBlocks_loop_app.
    destruct (addBlocks_loop pre s) as [s1 r]. cbn [fst] in He.
    destruct (addBlock blk s1) as [s2 o] eqn:Hstep. cbn in He. subst o.
    rewrite (addBlock_validationError _ _ _ _ Hstep Hval) in Hstep.
    destruct r; cbn; rewrite ?Hstep; reflexivity.
Qed.

End Failures.

Section ScenariosFailures.
#[local] Existing Instance fixture.ops.

Lemma failed_block_leaves_no_trace_witness :
  AddBlock (BSend fixture.sendZero) fixture.genesisStore =
    (fixture.genesisStore,
     Err (ErrNegativeSpend fixture.genesisBalance fixture.genesisBalance)) /\
  AddBlocks ([BSend fixture.send1; BOpen fixture.open1] ++
             BOpen fixture.open2 :: [BReceive fixture.receive1])
            fixture.genesisStore =
  AddBlocks ([BSend fixture.send1; BOpen fixture.open1] ++ [BReceive fixture.receive1])
            fixture.genesisStore.
Proof.
  split.
  - apply (failed_block_leaves_no_trace (BSend fixture.sendZero)). reflexivity.
  - refine (proj2 (proj2 (failed_block_leaves_no_trace (BOpen fixture.open2)))
              [BSend fixture.send1; BOpen fixture.open1] [BReceive fixture.receive1]
              fixture.genesisStore (ErrNew "account already exists") _ _); reflexivity.
Defined.

(** An error that is not a validation error is another matter: the change
    block of the genesis account fails after the handler's first write
    (its representative block cannot be found, see C1), [AddBlocks] goes
    on and commits, and the committed account record has the hash of the
    failed block as head and as representative block. *)
Example failed_change_in_batch_is_committed :
  snd (addBlock (BChange fixture.change1) fixture.genesisStore) = Err ErrKeyNotFound /\
  snd (AddBlocks [BChange fixture.change1] fixture.genesisStore) = Ok tt /\
  fst (AddBlocks [BChange fixture.change1] fixture.genesisStore) <> fixture.genesisStore /\
  addresses (fst (AddBlocks [BChange fixture.change1] fixture.genesisStore)) !! 100%N
    = Some (mkAddressInfo 52 52 9 fixture.genesisBalance) /\
  blocks (fst (AddBlocks [BChange fixture.change1] fixture.genesisStore)) !! 52%N = None.
Proof.
  split; [reflexivity|]. split; [reflexivity|]. split; [|split; reflexivity].
  intros Heq.
  assert (Ha : addresses (fst (AddBlocks [BChange fixture.change1] fixture.genesisStore))
               !! 100%N = addresses fixture.genesisStore !! 100%N) by (rewrite Heq; reflexivity).
  vm_compute in Ha. discriminate.
Qed.

End ScenariosFailures.

(** ** Balances as text *)

Section BalanceText.
Local Open Scope N_scope.

Lemma bytes_len_16 (n : N) :
  wallet.bytes_len n = 16%nat -> 2 ^ 120 <= n < 2 ^ 128.
Proof.
  unfold wallet.bytes_len. destruct (N.eqb_spec n 0) as [->|Hn]; [discriminate|].
  intros Hlen. assert (Hq : N.log2 n / 8 = 15) by lia.
  assert (Hlog : 120 <= N.log2 n < 128).
  { pose proof (N.Div0.mul_div_le (N.log2 n) 8).
    pose proof (N.mul_succ_div_gt (N.log2 n) 8). lia. }
  destruct (N.log2_spec n) as [Hlo Hhi]; [lia|].
  split.
  - eapply N.le_trans; [|exact Hlo]. apply N.pow_le_mono_r; lia.
  - eapply N.lt_le_trans; [exact Hhi|]. apply N.pow_le_mono_r; lia.
Qed.

End BalanceText.

(** Whatever text is parsed, in whatever unit: [ParseBalance] hands
    [UnmarshalBinary] the shortest big-endian form of the integer, and
    [UnmarshalBinary] accepts 16 bytes only, so a balance comes back only
    when its most significant byte is not zero. *)
Lemma ParseBalance_Ok_range (s unit : string) (b : Balance) :
  wallet.ParseBalance s unit = Ok b -> 2 ^ 120 <= b < 2 ^ 128.
Proof.
  unfold wallet.ParseBalance.
  destruct (wallet.decimal_NewFromString s) as [d|e|p]; try discriminate.
  cbv zeta. unfold wallet.UnmarshalBinary.
  set (i := wallet.d_value (wallet.decimal_Mul d (wallet.units unit)) *
            wallet.bigPow 10 (wallet.d_exp (wallet.decimal_Mul d (wallet.units unit)))).
  destruct (Nat.eqb_spec (length (wallet.big_Bytes i)) wallet.BalanceSize) as [Hlen|];
    [|discriminate].
  cbn [negb]. intros [= <-].
  unfold wallet.big_Bytes in *. rewrite length_be_bytes in Hlen.
  unfold wallet.uint128_FromBytes, wallet.big_SetBytes.
  rewrite fold_be_bytes, Hlen.
  apply bytes_len_16 in Hlen. change (N.of_nat wallet.BalanceSize) with 16%N.
  rewrite N.mod_small by (change (256 ^ 16)%N with (2 ^ 128)%N; lia).
  change (2 ^ 120) with (Z.of_N (2 ^ 120)). change (2 ^ 128) with (Z.of_N (2 ^ 128)).
  lia.
Qed.

(** C9, what the code does: for every canonical balance below 2^120 the
    text that [String] prints does not parse back to the balance. *)
Theorem String_ParseBalance_below_2_120 (b : Balance) :
  0 <= b < 2 ^ 120 ->
  wallet.ParseBalance (wallet.String b) "Mxrb" <> Ok b.
Proof.
  intros [Hb0 Hb1] Hok. apply ParseBalance_Ok_range in Hok. lia.
Qed.

Lemma String_ParseBalance_below_2_120_witness :
  wallet.String 1 = "0.000000000000000000000000000001"%string /\
  wallet.ParseBalance "0.000000000000000000000000000001" "Mxrb" <> Ok 1.
Proof.
  split; [vm_compute; reflexivity|].
  apply (String_ParseBalance_below_2_120 1). lia.
Defined.

(** One raw, and ten units of Mxrb, printed and parsed back: the parser
    answers with the size error.  A balance with a non-zero top byte
    makes the round trip. *)
Example ParseBalance_String_one :
  wallet.ParseBalance (wallet.String 1) "Mxrb" = Err ErrBadBalanceSize.
Proof. vm_compute. reflexivity. Qed.

Example ParseBalance_String_ten_Mxrb :
  wallet.String (10 * 10 ^ 30) = "10"%string /\
  wallet.ParseBalance (wallet.String (10 * 10 ^ 30)) "Mxrb" = Err ErrBadBalanceSize.
Proof. vm_compute. split; reflexivity. Qed.

Example ParseBalance_String_top_bit :
  wallet.String (2 ^ 127) = "170141183.460469231731687303715884105728"%string /\
  wallet.ParseBalance (wallet.String (2 ^ 127)) "Mxrb" = Ok (2 ^ 127).
Proof. vm_compute. split; reflexivity. Qed.

(** * The store, table by table (store/badger.go) *)

Lemma Store_eta (s : Store) :
  mkStore (blocks s) (addresses s) (frontiers s) (pendings s) (representation s) = s.
Proof. destruct s. reflexivity. Qed.

Section StoreTables.
Context `{BlockOps}.

(** X1: [AddBlock] of a block whose hash is not stored puts the block under
    its hash: [GetBlock] returns it, [HasBlock] reports it, the count grows
    by one and every other hash reads as before.  The transaction's
    [AddBlock] never overwrites: any block with a stored hash is turned
    down with [ErrBlockExists] and nothing is written. *)
Theorem txn_AddBlock_lookup (blk : Block) (s : Store) :
  blocks s !! block_Hash blk = None ->
  exists s', txn_AddBlock blk s = (s', Ok tt) /\
    GetBlock (block_Hash blk) s' = (s', Ok blk) /\
    HasBlock (block_Hash blk) s' = (s', Ok true) /\
    txn_CountBlocks s' = (s', Ok (S (size (blocks s)))) /\
    (forall h, h <> block_Hash blk ->
       snd (GetBlock h s') = snd (GetBlock h s) /\
       snd (HasBlock h s') = snd (HasBlock h s)) /\
    (forall blk', block_Hash blk' = block_Hash blk ->
       txn_AddBlock blk' s' = (s', Err ErrBlockExists)).
Proof.
  intros Hh. unfold txn_AddBlock at 1. cbv zeta. rewrite Hh.
  eexists. split; [reflexivity|].
  unfold GetBlock, HasBlock, txn_CountBlocks, txn_AddBlock. cbn [blocks].
  rewrite lookup_insert_eq.
  split; [reflexivity|]. split; [reflexivity|].
  split; [by rewrite map_size_insert_None|].
  split.
  - intros h Hne. rewrite lookup_insert_ne by congruence.
    destruct (blocks s !! h); split; reflexivity.
  - intros blk' Heq. cbv zeta. rewrite Heq, lookup_insert_eq. reflexivity.
Qed.

(** X2: [DeleteBlock] takes back what [AddBlock] stored: adding a block with
    a fresh hash and deleting that hash gives the store back as it was.
    Deleting a hash that is not stored is no error and changes nothing;
    after a delete the hash is gone. *)
Theorem DeleteBlock_AddBlock (blk : Block) (s : Store) :
  blocks s !! block_Hash blk = None ->
  DeleteBlock (block_Hash blk) (fst (txn_AddBlock blk s)) = (s, Ok tt) /\
  DeleteBlock (block_Hash blk) s = (s, Ok tt) /\
  (forall h s1, HasBlock h (fst (DeleteBlock h s1)) = (fst (DeleteBlock h s1), Ok false)).
Proof.
  intros Hh. unfold txn_AddBlock, DeleteBlock. cbv zeta. rewrite Hh. cbn.
  rewrite delete_insert_id by exact Hh. rewrite delete_id by exact Hh.
  rewrite Store_eta. split; [reflexivity|]. split; [reflexivity|].
  intros h s1. unfold HasBlock. cbn. rewrite lookup_delete_eq. reflexivity.
Qed.

(** X3: [AddAddress] creates a record and never overwrites one.  On an
    address without a record it stores the record, which [GetAddress]
    then returns; on an address with a record it fails with "address
    already exists", writes nothing, and the old record stays. *)
Theorem AddAddress_GetAddress (a : Address) (info : AddressInfo) (s : Store) :
  (addresses s !! a = None ->
   exists s', AddAddress a info s = (s', Ok tt) /\
              GetAddress a s' = (s', Ok info) /\
              (forall a', a' <> a -> snd (GetAddress a' s') = snd (GetAddress a' s))) /\
  (forall old, addresses s !! a = Some old ->
   AddAddress a info s = (s, Err (ErrNew "address already exists")) /\
   GetAddress a s = (s, Ok old)).
Proof.
  unfold AddAddress, GetAddress. split.
  - intros Ha. rewrite Ha. eexists. split; [reflexivity|]. cbn.
    rewrite lookup_insert_eq. split; [reflexivity|].
    intros a' Hne. rewrite lookup_insert_ne by congruence.
    destruct (addresses s !! a'); reflexivity.
  - intros old Ha. rewrite Ha. split; reflexivity.
Qed.

(** X4: [UpdateAddress] writes whether or not a record exists: afterwards
    [GetAddress] returns the record given, and a second update replaces
    the first.  [DeleteAddress] removes the record: [GetAddress] then
    fails with key-not-found.  No other address is touched by either. *)
Theorem UpdateAddress_overwrites (a : Address) (info info2 : AddressInfo) (s : Store) :
  let s1 := fst (UpdateAddress a info s) in
  snd (UpdateAddress a info s) = Ok tt /\
  GetAddress a s1 = (s1, Ok info) /\
  fst (UpdateAddress a info2 s1) = fst (UpdateAddress a info2 s) /\
  snd (GetAddress a (fst (DeleteAddress a s1))) = Err ErrKeyNotFound /\
  (forall a', a' <> a ->
     snd (GetAddress a' s1) = snd (GetAddress a' s) /\
     snd (GetAddress a' (fst (DeleteAddress a s))) = snd (GetAddress a' s)).
Proof.
  unfold UpdateAddress, DeleteAddress, GetAddress. cbn.
  rewrite lookup_insert_eq, lookup_delete_eq, insert_insert_eq.
  repeat split; trivial.
  - rewrite lookup_insert_ne by congruence. destruct (addresses s !! a'); reflexivity.
  - rewrite lookup_delete_ne by congruence. destruct (addresses s !! a'); reflexivity.
Qed.

(** X5: a frontier added under a hash that has none is what [GetFrontier]
    returns for that hash, and the count grows by one; under a hash that
    has one [AddFrontier] fails with "frontier already exists" and writes
    nothing.  After [DeleteFrontier] the hash has no frontier, and deleting
    a hash without a frontier changes nothing. *)
Theorem AddFrontier_GetFrontier (f : Frontier) (s : Store) :
  (frontiers s !! frontier_Hash f = None ->
   exists s', AddFrontier f s = (s', Ok tt) /\
              GetFrontier (frontier_Hash f) s' = (s', Ok f) /\
              txn_CountFrontiers s' = (s', Ok (S (size (frontiers s)))) /\
              DeleteFrontier (frontier_Hash f) s' = (s, Ok tt) /\
              DeleteFrontier (frontier_Hash f) s = (s, Ok tt)) /\
  (is_Some (frontiers s !! frontier_Hash f) ->
   AddFrontier f s = (s, Err (ErrNew "frontier already exists"))) /\
  snd (GetFrontier (frontier_Hash f) (fst (DeleteFrontier (frontier_Hash f) s)))
    = Err ErrKeyNotFound.
Proof.
  unfold AddFrontier, GetFrontier, DeleteFrontier, txn_CountFrontiers. split; [|split].
  - intros Hf. rewrite Hf. eexists. split; [reflexivity|]. cbn.
    rewrite lookup_insert_eq, delete_insert_id, delete_id, Store_eta by exact Hf.
    rewrite map_size_insert_None by exact Hf.
    destruct f. repeat split; reflexivity.
  - intros [a Ha]. rewrite Ha. reflexivity.
  - cbn. rewrite lookup_delete_eq. reflexivity.
Qed.

(** X6: [GetFrontiers] returns one entry for each stored frontier, with the
    right address, but not with the hash the frontier is stored under:
    the hash of an entry is the first 32 bytes of the key, the prefix byte
    2 followed by the stored hash without its last byte. *)
Theorem GetFrontiers_entries (s : Store) :
  exists l, GetFrontiers s = (s, Ok l) /\
    length l = size (frontiers s) /\
    (forall f, f ∈ l <->
       exists h, frontiers s !! h = Some (frontier_Address f) /\
                 frontier_Hash f = (2 * 256 ^ 31 + h / 256)%N) /\
    (forall f, f ∈ l -> (2 * 256 ^ 31 <= frontier_Hash f)%N).
Proof.
  unfold GetFrontiers. eexists. split; [reflexivity|].
  split; [by rewrite length_map, length_map_to_list|].
  assert (Hin : forall f,
    f ∈ map (fun kv => mkFrontier (snd kv) (copyKey32 idPrefixFrontier (fst kv)))
            (map_to_list (frontiers s)) <->
    exists h, frontiers s !! h = Some (frontier_Address f) /\
              frontier_Hash f = (2 * 256 ^ 31 + h / 256)%N).
  { intros f. rewrite list_elem_of_fmap. split.
    - intros [[h a] [-> Hel]]. apply elem_of_map_to_list in Hel. exists h. split; [exact Hel|].
      reflexivity.
    - intros [h [Ha Hh]]. exists (h, frontier_Address f). split.
      + destruct f as [fa fh]. cbn in *. rewrite Hh. reflexivity.
      + by apply elem_of_map_to_list. }
  split; [exact Hin|].
  intros f Hf. apply Hin in Hf as [h [_ ->]]. apply N.le_add_r.
Qed.

(** X7: a pending record is kept under the pair of destination and send
    hash.  Added under a pair that has none, it is what [GetPending]
    returns for the pair, and every other pair, the same destination with
    another hash included, reads as before; under a pair that has one
    [AddPending] fails with "pending transaction already exists" and
    writes nothing.  [DeletePending] takes the record back. *)
Theorem AddPending_GetPending (d : Address) (h : Hash) (p : Pending) (s : Store) :
  (pendings s !! (d, h) = None ->
   exists s', AddPending d h p s = (s', Ok tt) /\
              GetPending d h s' = (s', Ok p) /\
              (forall d' h', (d', h') <> (d, h) ->
                 snd (GetPending d' h' s') = snd (GetPending d' h' s)) /\
              DeletePending d h s' = (s, Ok tt)) /\
  (is_Some (pendings s !! (d, h)) ->
   AddPending d h p s = (s, Err (ErrNew "pending transaction already exists"))) /\
  snd (GetPending d h (fst (DeletePending d h s))) = Err ErrKeyNotFound.
Proof.
  unfold AddPending, GetPending, DeletePending. split; [|split].
  - intros Hp. rewrite Hp. eexists. split; [reflexivity|]. cbn.
    rewrite lookup_insert_eq, delete_insert_id, Store_eta by exact Hp.
    split; [reflexivity|]. split; [|reflexivity].
    intros d' h' Hne. rewrite lookup_insert_ne by congruence.
    destruct (pendings s !! (d', h')); reflexivity.
  - intros [q Hq]. rewrite Hq. reflexivity.
  - cbn. rewrite lookup_delete_eq. reflexivity.
Qed.

(** X8: [Empty] looks at the block table alone: it answers true exactly when
    [CountBlocks] is 0, whatever the other four tables hold, and false
    once a block has been added. *)
Theorem Empty_CountBlocks (s : Store) :
  (snd (Empty s) = Ok true <-> snd (txn_CountBlocks s) = Ok 0%nat) /\
  (forall a f p r, snd (Empty (mkStore (blocks s) a f p r)) = snd (Empty s)) /\
  (forall blk s', txn_AddBlock blk s = (s', Ok tt) -> snd (Empty s') = Ok false).
Proof.
  unfold Empty, txn_CountBlocks. cbn. split; [|split].
  - split.
    + intros [= Hb]. apply bool_decide_eq_true in Hb. rewrite Hb, map_size_empty. reflexivity.
    + intros [= Hs]. apply map_size_empty_inv in Hs.
      rewrite (bool_decide_eq_true_2 _ Hs). reflexivity.
  - reflexivity.
  - intros blk s'. unfold txn_AddBlock. cbv zeta.
    destruct (blocks s !! block_Hash blk); [discriminate|]. intros [= <-]. cbn.
    rewrite bool_decide_eq_false_2; [reflexivity|]. apply insert_non_empty.
Qed.

End StoreTables.

(** X9: an address without a weight reads as zero, without an error.
    [AddRepresentation] returns nil, writes for the address the bytes
    [MarshalBinary] makes of [Add] of the value read and the amount, and
    touches no other address.  What [GetRepresentation] returns
    afterwards is what [UnmarshalBinary] makes of the bytes written,
    which come least significant byte first from the one and are read
    most significant byte first by the other: it is not the sum in
    general. *)
Theorem AddRepresentation_GetRepresentation (a : Address) (m : Balance) (s : Store) :
  (representation s !! a = None -> GetRepresentation a s = (s, Ok 0)) /\
  (let s1 := fst (AddRepresentation a m s) in
   snd (AddRepresentation a m s) = Ok tt /\
   storedWeight s1 a = Some (wallet.MarshalBinary (wallet.Add (repOf s a) m)) /\
   GetRepresentation a s1 =
     (s1, wallet.UnmarshalBinary (wallet.MarshalBinary (wallet.Add (repOf s a) m))) /\
   (forall a', a' <> a ->
      storedWeight s1 a' = storedWeight s a' /\ repOf s1 a' = repOf s a')).
Proof.
  split.
  - intros Ha. unfold GetRepresentation. rewrite Ha. reflexivity.
  - cbv zeta. rewrite AddRepresentation_eq. cbn [fst snd].
    split; [reflexivity|]. split; [apply storedWeight_written|]. split.
    + rewrite GetRepresentation_repOf, repOf_written, UnmarshalBinary_MarshalBinary.
      reflexivity.
    + intros a' Hne. split; [|by apply repOf_other].
      unfold storedWeight. cbn [representation]. by rewrite lookup_insert_ne.
Qed.

Section ScenariosStore.
#[local] Existing Instance fixture.ops.

Lemma txn_AddBlock_lookup_witness :
  exists s', txn_AddBlock (BSend fixture.send1) fixture.genesisStore = (s', Ok tt) /\
    GetBlock 18 s' = (s', Ok (BSend fixture.send1)) /\
    txn_AddBlock (BSend fixture.send1) s' = (s', Err ErrBlockExists).
Proof.
  destruct (txn_AddBlock_lookup (BSend fixture.send1) fixture.genesisStore)
    as (s' & Hadd & Hget & _ & _ & _ & Hagain); [reflexivity|].
  exists s'. split; [exact Hadd|]. split; [exact Hget|].
  apply Hagain. reflexivity.
Defined.

Lemma DeleteBlock_AddBlock_witness :
  DeleteBlock 18 (fst (txn_AddBlock (BSend fixture.send1) fixture.genesisStore))
    = (fixture.genesisStore, Ok tt).
Proof.
  refine (proj1 (DeleteBlock_AddBlock (BSend fixture.send1) fixture.genesisStore _)).
  reflexivity.
Defined.

Lemma AddAddress_GetAddress_witness :
  (exists s', AddAddress 200 (mkAddressInfo 25 25 25 10) fixture.genesisStore = (s', Ok tt) /\
              GetAddress 200 s' = (s', Ok (mkAddressInfo 25 25 25 10))) /\
  AddAddress 100 (mkAddressInfo 25 25 25 10) fixture.genesisStore =
    (fixture.genesisStore, Err (ErrNew "address already exists")).
Proof.
  destruct (AddAddress_GetAddress 200 (mkAddressInfo 25 25 25 10) fixture.genesisStore)
    as [Hnew _].
  destruct (AddAddress_GetAddress 100 (mkAddressInfo 25 25 25 10) fixture.genesisStore)
    as [_ Hold].
  split.
  - destruct Hnew as (s' & Hadd & Hget & _); [reflexivity|]. eauto.
  - apply (Hold (mkAddressInfo 9 9 9 fixture.genesisBalance)). reflexivity.
Defined.

Lemma UpdateAddress_overwrites_witness :
  GetAddress 100 (fst (UpdateAddress 100 (mkAddressInfo 18 9 9 5) fixture.genesisStore))
  = (fst (UpdateAddress 100 (mkAddressInfo 18 9 9 5) fixture.genesisStore),
     Ok (mkAddressInfo 18 9 9 5)) /\
  snd (GetAddress 200 (fst (UpdateAddress 100 (mkAddressInfo 18 9 9 5) fixture.genesisStore)))
  = snd (GetAddress 200 fixture.genesisStore).
Proof.
  destruct (UpdateAddress_overwrites 100 (mkAddressInfo 18 9 9 5) (mkAddressInfo 18 9 9 5)
              fixture.genesisStore) as (_ & Hget & _ & _ & Hother).
  split; [exact Hget|]. apply Hother. discriminate.
Defined.

Lemma AddFrontier_GetFrontier_witness :
  (exists s', AddFrontier (mkFrontier 100 18) fixture.genesisStore = (s', Ok tt) /\
              GetFrontier 18 s' = (s', Ok (mkFrontier 100 18))) /\
  AddFrontier (mkFrontier 100 9) fixture.genesisStore =
    (fixture.genesisStore, Err (ErrNew "frontier already exists")).
Proof.
  split.
  - destruct (proj1 (AddFrontier_GetFrontier (mkFrontier 100 18) fixture.genesisStore))
      as (s' & Hadd & Hget & _); [reflexivity|]. eauto.
  - apply (AddFrontier_GetFrontier (mkFrontier 100 9) fixture.genesisStore).
    vm_compute. eauto.
Defined.

Lemma GetFrontiers_entries_witness :
  exists l, GetFrontiers fixture.genesisStore = (fixture.genesisStore, Ok l) /\
            mkFrontier 100 (2 * 256 ^ 31) ∈ l /\ mkFrontier 100 9 ∉ l.
Proof.
  destruct (GetFrontiers_entries fixture.genesisStore) as (l & Hl & _ & Hin & Hlow).
  exists l. split; [exact Hl|]. split.
  - apply Hin. exists 9%N. split; reflexivity.
  - intros Hel. apply Hlow in Hel. vm_compute in Hel. apply Hel. reflexivity.
Defined.

Lemma AddPending_GetPending_witness :
  (exists s', AddPending 200 18 (mkPending 100 10) fixture.genesisStore = (s', Ok tt) /\
              GetPending 200 18 s' = (s', Ok (mkPending 100 10)) /\
              DeletePending 200 18 s' = (fixture.genesisStore, Ok tt)) /\
  AddPending 200 18 (mkPending 100 7) fixture.afterSend =
    (fixture.afterSend, Err (ErrNew "pending transaction already exists")).
Proof.
  split.
  - destruct (proj1 (AddPending_GetPending 200 18 (mkPending 100 10) fixture.genesisStore))
      as (s' & Hadd & Hget & _ & Hdel); [reflexivity|]. eauto.
  - apply (AddPending_GetPending 200 18 (mkPending 100 7) fixture.afterSend).
    vm_compute. eauto.
Defined.

Lemma Empty_CountBlocks_witness :
  snd (Empty (mkStore ∅ ∅ {[ 9%N := 100%N ]} ∅ ∅)) = Ok true /\
  snd (Empty (fst (txn_AddBlock (BOpen fixture.genesis) emptyStore))) = Ok false.
Proof.
  split.
  - apply (Empty_CountBlocks (mkStore ∅ ∅ {[ 9%N := 100%N ]} ∅ ∅)). reflexivity.
  - refine (proj2 (proj2 (Empty_CountBlocks emptyStore)) (BOpen fixture.genesis) _ _).
    reflexivity.
Defined.

Lemma AddRepresentation_GetRepresentation_witness :
  GetRepresentation 300 fixture.genesisStore = (fixture.genesisStore, Ok 0) /\
  snd (GetRepresentation 300 (fst (AddRepresentation 300 10 fixture.genesisStore))) =
    Ok (10 * 2 ^ 120) /\
  repOf (fst (AddRepresentation 300 10 fixture.afterSend)) 100 = repOf fixture.afterSend 100.
Proof.
  split; [|split].
  - apply (AddRepresentation_GetRepresentation 300 0 fixture.genesisStore). reflexivity.
  - destruct (AddRepresentation_GetRepresentation 300 10 fixture.genesisStore)
      as (_ & _ & _ & Hget & _).
    rewrite Hget. reflexivity.
  - apply (AddRepresentation_GetRepresentation 300 10 fixture.afterSend). discriminate.
Defined.

End ScenariosStore.

(** * The ledger, step by step (store/ledger.go) *)

Section Steps.
Context `{BlockOps}.

(** A call of [addBlock] that returns an error has written neither a block
    nor a frontier. *)
Lemma addBlock_Err_tables (blk : Block) (s s' : Store) (e : Error) :
  addBlock blk s = (s', Err e) ->
  blocks s' = blocks s /\ frontiers s' = frontiers s.
Proof.
  unfold addBlock, bind, HasBlock, fail, panic. cbv zeta.
  destruct (block_Valid blk); tx_simpl; [|intros [= <- <-]; split; reflexivity].
  destruct (blocks s !! block_Hash blk) eqn:Hh; tx_simpl;
    [intros [= <- <-]; split; reflexivity|].
  destruct (blocks s !! block_Root blk) eqn:Hr; tx_simpl;
    [|intros [= <- <-]; split; reflexivity].
  destruct blk as [b'|b'|b'|b'|p]; [| | | |discriminate];
    tx_unfold; cbv zeta; tx_simpl; cbn [block_Root] in *;
    repeat tx_case; intros Heq; try discriminate;
    injection Heq as <- <-; try (split; reflexivity);
    rewrite ?lookup_delete_eq in *; congruence.
Qed.

Lemma addBlock_Panic_tables (blk : Block) (s s' : Store) (msg : string) :
  addBlock blk s = (s', Panic msg) -> s' = s.
Proof.
  intros Heq.
  assert (Hp : snd (addBlock blk s) = Panic msg) by (rewrite Heq; reflexivity).
  apply addBlock_panic_inv in Hp as ([p ->] & _ & Hv & Hh & Hr).
  rewrite (addBlock_dispatch _ _ Hv Hh Hr) in Heq. congruence.
Qed.

(** A call of [addBlock] that returns nil has written the block under its
    hash and a frontier under the same hash, and no other block or
    frontier. *)
Lemma addBlock_Ok_tables (blk : Block) (s s' : Store) :
  addBlock blk s = (s', Ok tt) ->
  blocks s !! block_Hash blk = None /\
  blocks s' = <[block_Hash blk := blk]> (blocks s) /\
  exists n, frontiers s' = <[block_Hash blk := n]> (delete (block_Hash blk) (frontiers s)).
Proof.
  intros Hok. destruct (addBlock_Ok_inv _ _ _ Hok) as (Hv & Hh & Hroot).
  split; [exact Hh|].
  rewrite (addBlock_dispatch _ _ Hv Hh Hroot) in Hok.
  destruct blk as [b|b|b|b|p].
  - destruct (addOpenBlock_Ok_inv _ _ _ Hok) as (pend & Hsig & Ha & Hp & Hf & _).
    rewrite (addOpenBlock_Ok b s pend Hsig Ha Hp Hf Hh) in Hok.
    injection Hok as <-. cbn. split; [reflexivity|].
    eexists. rewrite insert_delete_eq. reflexivity.
  - destruct (addSendBlock_Ok_inv _ _ _ Hok)
      as (n & info & rblk & rep & Hf & Hsig & Ha & Hhead & Hlt & Hp & Hb & Hr & _).
    rewrite (addSendBlock_Ok b s n info rblk rep Hf Hsig Ha Hhead Hlt Hp Hb Hr Hh) in Hok.
    injection Hok as <-. cbn. eauto.
  - destruct (addReceiveBlock_Ok_inv _ _ _ Hok)
      as (n & info & pend & rblk & rep & Hf & Hsig & Ha & Hhead & Hp & Hb & Hr & _).
    rewrite (addReceiveBlock_Ok b s n info pend rblk rep Hf Hsig Ha Hhead Hp Hb Hr Hh) in Hok.
    injection Hok as <-. cbn. eauto.
  - exfalso. destruct (addChangeBlock_Err b s) as [e He].
    rewrite Hok in He. discriminate.
  - discriminate.
Qed.

(** The blocks after any call of [addBlock]. *)
Lemma addBlock_blocks (blk : Block) (s : Store) :
  blocks (fst (addBlock blk s)) = blocks s \/
  (blocks s !! block_Hash blk = None /\
   blocks (fst (addBlock blk s)) = <[block_Hash blk := blk]> (blocks s)).
Proof.
  destruct (addBlock blk s) as [s' [[]|e|msg]] eqn:Heq; cbn.
  - right. destruct (addBlock_Ok_tables _ _ _ Heq) as (? & ? & _). eauto.
  - left. apply (addBlock_Err_tables _ _ _ _ Heq).
  - left. by rewrite (addBlock_Panic_tables _ _ _ _ Heq).
Qed.

(** A property that every call of [addBlock] keeps is kept by the loop of
    [AddBlocks] and by the two entry points. *)
Lemma addBlocks_loop_keeps (P : Store -> Prop) :
  (forall blk s, P s -> P (fst (addBlock blk s))) ->
  forall blks s, P s -> P (fst (addBlocks_loop blks s)).
Proof.
  intros Hstep blks. induction blks as [|blk blks IH]; intros s HP; [exact HP|].
  cbn. specialize (Hstep blk s HP).
  destruct (addBlock blk s) as [s1 [[]|e|msg]]; cbn in Hstep; auto.
Qed.

Lemma Update_keeps_Ok {A} (P : Store -> Prop) (fn : Tx A) (s : Store) :
  P s -> (forall s1 a, fn s = (s1, Ok a) -> P s1) -> P (fst (Update fn s)).
Proof.
  intros HP Hfn. unfold Update. destruct (fn s) as [s1 [a|e|msg]]; eauto.
Qed.

Lemma Update_keeps {A} (P : Store -> Prop) (fn : Tx A) (s : Store) :
  P s -> P (fst (fn s)) -> P (fst (Update fn s)).
Proof.
  intros HP Hfn. apply Update_keeps_Ok; [exact HP|].
  intros s1 a Heq. by rewrite Heq in Hfn.
Qed.

(** X10: the block table is append-only.  Whatever a call of [AddBlock] or
    [AddBlocks] returns, a block that was stored is still stored under the
    same hash, unchanged; and when every block sits under its own hash
    before the call, the same holds after it. *)
Theorem blocks_append_only (s : Store) :
  (forall blk h b, blocks s !! h = Some b ->
     blocks (fst (addBlock blk s)) !! h = Some b /\
     blocks (fst (AddBlock blk s)) !! h = Some b) /\
  (forall blks h b, blocks s !! h = Some b ->
     blocks (fst (AddBlocks blks s)) !! h = Some b) /\
  (hashKeyed s ->
   (forall blk, hashKeyed (fst (AddBlock blk s))) /\
   (forall blks, hashKeyed (fst (AddBlocks blks s)))).
Proof.
  assert (Hstep : forall h b blk s0, blocks s0 !! h = Some b ->
                    blocks (fst (addBlock blk s0)) !! h = Some b).
  { intros h b blk s0 Hb. destruct (addBlock_blocks blk s0) as [-> | [Hh ->]]; [exact Hb|].
    rewrite lookup_insert_ne; [exact Hb | congruence]. }
  assert (Hkey : forall blk s0, hashKeyed s0 -> hashKeyed (fst (addBlock blk s0))).
  { intros blk s0 Hk h b. destruct (addBlock_blocks blk s0) as [-> | [Hh ->]]; [apply Hk|].
    destruct (decide (block_Hash blk = h)) as [<-|Hne].
    - rewrite lookup_insert_eq. by intros [= <-].
    - rewrite lookup_insert_ne by exact Hne. apply Hk. }
  split; [|split].
  - intros blk h b Hb. split; [by apply Hstep|].
    apply (Update_keeps (fun s0 => blocks s0 !! h = Some b)); [exact Hb | by apply Hstep].
  - intros blks h b Hb.
    apply (Update_keeps (fun s0 => blocks s0 !! h = Some b)); [exact Hb|].
    apply (addBlocks_loop_keeps (fun s0 => blocks s0 !! h = Some b)); [|exact Hb].
    intros blk s0. apply Hstep.
  - intros Hk. split.
    + intros blk. apply (Update_keeps hashKeyed); [exact Hk | by apply Hkey].
    + intros blks. apply (Update_keeps hashKeyed); [exact Hk|].
      apply (addBlocks_loop_keeps hashKeyed); [exact Hkey | exact Hk].
Qed.

(** X11: a block that was applied cannot be applied again: submitted once
    more, to the ledger it left or to any later one, it is turned down
    with [ErrBlockExists] and nothing is written. *)
Theorem applied_block_is_not_replayed (blk : Block) (s s1 : Store) :
  addBlock blk s = (s1, Ok tt) ->
  blocks s1 !! block_Hash blk = Some blk /\
  forall s2, later s1 s2 ->
    addBlock blk s2 = (s2, Err ErrBlockExists) /\
    AddBlock blk s2 = (s2, Err ErrBlockExists).
Proof.
  intros Hok. destruct (addBlock_Ok_inv _ _ _ Hok) as (Hv & _ & _).
  destruct (addBlock_Ok_tables _ _ _ Hok) as (_ & Hb & _).
  assert (Hstored : blocks s1 !! block_Hash blk = Some blk)
    by (rewrite Hb; apply lookup_insert_eq).
  split; [exact Hstored|].
  intros s2 Hlater.
  assert (Hs2 : blocks s2 !! block_Hash blk = Some blk).
  { induction Hlater as [s0|s0 s2 s3 blk' r Hl IH Hstep]; [exact Hstored|].
    specialize (IH Hok Hb Hstored).
    destruct (addBlock_blocks blk' s2) as [Heq | [Hh Heq]];
      rewrite Hstep in Heq; cbn in Heq; rewrite Heq; [exact IH|].
    rewrite lookup_insert_ne; [exact IH | congruence]. }
  assert (Hadd : addBlock blk s2 = (s2, Err ErrBlockExists)).
  { unfold addBlock, bind, HasBlock, fail. cbv zeta. rewrite Hv. cbn. rewrite Hs2. reflexivity. }
  split; [exact Hadd|]. unfold AddBlock, Update. rewrite Hadd. reflexivity.
Qed.

(** X12: there is a frontier for every stored block.  The empty store has
    the same keys in its frontier table as in its block table, and
    [NewLedger], [AddBlock] and [AddBlocks] keep the two sets of keys
    equal whatever they return; so [CountFrontiers] and [CountBlocks]
    agree, also on a ledger whose accounts have chains of several blocks. *)
Theorem frontier_for_every_block :
  frontierPerBlock emptyStore /\
  (forall s, frontierPerBlock s ->
     (forall opts, frontierPerBlock (fst (NewLedger s opts))) /\
     (forall blk, frontierPerBlock (fst (AddBlock blk s))) /\
     (forall blks, frontierPerBlock (fst (AddBlocks blks s))) /\
     snd (txn_CountFrontiers s) = snd (txn_CountBlocks s)).
Proof.
  assert (Hstep : forall blk s, frontierPerBlock s -> frontierPerBlock (fst (addBlock blk s))).
  { intros blk s Hd. unfold frontierPerBlock in *.
    destruct (addBlock blk s) as [s' [[]|e|msg]] eqn:Heq; cbn.
    - destruct (addBlock_Ok_tables _ _ _ Heq) as (_ & -> & n & ->).
      rewrite insert_delete_eq, !dom_insert_L, Hd. reflexivity.
    - destruct (addBlock_Err_tables _ _ _ _ Heq) as [-> ->]. exact Hd.
    - by rewrite (addBlock_Panic_tables _ _ _ _ Heq). }
  split; [reflexivity|].
  intros s Hd. split; [|split; [|split]].
  - intros opts. unfold NewLedger, setGenesis. cbv zeta.
    destruct (address_Verify _ _ _); cbn [negb fst]; [|exact Hd].
    apply (Update_keeps_Ok frontierPerBlock); [exact Hd|]. intros s1 a.
    unfold bind, Empty, HasBlock, txn_AddBlock, AddAddress, AddFrontier, fail, ret.
    repeat tx_case; intros [= <- <-]; try exact Hd.
    unfold frontierPerBlock in *. cbn. rewrite !dom_insert_L, Hd. reflexivity.
  - intros blk. apply (Update_keeps frontierPerBlock); [exact Hd | by apply Hstep].
  - intros blks. apply (Update_keeps frontierPerBlock); [exact Hd|].
    apply (addBlocks_loop_keeps frontierPerBlock); [exact Hstep | exact Hd].
  - unfold txn_CountFrontiers, txn_CountBlocks. cbn. f_equal.
    rewrite <- !size_dom. unfold frontierPerBlock in Hd. by rewrite Hd.
Qed.

End Steps.

Section ScenariosSteps.
#[local] Existing Instance fixture.ops.

Lemma blocks_append_only_witness :
  blocks (fst (AddBlocks [BChange fixture.change1; BSend fixture.send1] fixture.genesisStore))
    !! 9%N = Some (BOpen fixture.genesis) /\
  hashKeyed (fst (AddBlock (BSend fixture.send1) fixture.genesisStore)).
Proof.
  destruct (blocks_append_only fixture.genesisStore) as (_ & Hbatch & Hkey).
  split.
  - apply Hbatch. reflexivity.
  - apply Hkey. intros h blk Hb.
    apply elem_of_map_to_list in Hb. vm_compute in Hb.
    apply list_elem_of_singleton in Hb. injection Hb as -> ->. reflexivity.
Defined.

Lemma applied_block_is_not_replayed_witness :
  AddBlock (BSend fixture.send1) fixture.afterSend = (fixture.afterSend, Err ErrBlockExists) /\
  AddBlock (BSend fixture.send1) fixture.afterOpen = (fixture.afterOpen, Err ErrBlockExists).
Proof.
  destruct (applied_block_is_not_replayed (BSend fixture.send1) fixture.genesisStore
              fixture.afterSend) as [_ Hlater]; [reflexivity|].
  split.
  - apply (Hlater fixture.afterSend). apply later_refl.
  - apply (Hlater fixture.afterOpen).
    apply (later_step _ fixture.afterSend _ (BOpen fixture.open1) (Ok tt));
      [apply later_refl | reflexivity].
Defined.

Lemma frontier_for_every_block_witness :
  frontierPerBlock fixture.genesisStore /\
  frontierPerBlock (fst (AddBlock (BSend fixture.send1) fixture.genesisStore)) /\
  snd (txn_CountFrontiers fixture.afterOpen) = snd (txn_CountBlocks fixture.afterOpen).
Proof.
  destruct frontier_for_every_block as [Hempty Hkeep].
  assert (Hg : frontierPerBlock fixture.genesisStore).
  { destruct (Hkeep _ Hempty) as (Hnew & _). exact (Hnew fixture.opts). }
  destruct (Hkeep _ Hg) as (_ & Hadd & Hbatch & _).
  split; [exact Hg|]. split; [apply Hadd|].
  assert (Ho : frontierPerBlock fixture.afterOpen)
    by exact (Hbatch [BSend fixture.send1; BOpen fixture.open1]).
  apply (Hkeep _ Ho).
Defined.

End ScenariosSteps.

(** * What the handlers write (store/ledger.go) *)

Section Effects.
Context `{BlockOps}.

(** X13: [addReceiveBlock].  Without a frontier under the previous hash
    the handler returns badger's key-not-found; with the frontier, a good
    signature and the account's head at the previous hash, a missing
    pending entry for (account, source) gives [ErrMissingSource] and
    nothing is written; and with the pending entry, the representative's
    block and a fresh hash the block is applied: the account's head moves
    to the block, its balance grows by the pending amount (exactly, when
    the sum fits 128 bits), the pending entry is gone, the bytes written
    for the account's representative are those of the weight read plus
    the same amount, no other weight is touched, and the block and its
    frontier are stored. *)
Theorem addReceiveBlock_credits (b : ReceiveBlock) (s : Store) :
  let h := block_Hash (BReceive b) in
  let src := receive_SourceHash b in
  (frontiers s !! receive_PreviousHash b = None ->
   addReceiveBlock b s = (s, Err ErrKeyNotFound)) /\
  (forall n info,
     frontiers s !! receive_PreviousHash b = Some n ->
     address_Verify n h (receive_Signature b) = true ->
     addresses s !! n = Some info ->
     info_HeadBlock info = receive_PreviousHash b ->
     (pendings s !! (n, src) = None ->
      addReceiveBlock b s = (s, Err ErrMissingSource)) /\
     (forall pend rblk rep,
        pendings s !! (n, src) = Some pend ->
        blocks s !! info_RepBlock info = Some rblk ->
        representativeOf rblk = Some rep ->
        blocks s !! h = None ->
        exists s',
          addReceiveBlock b s = (s', Ok tt) /\
          addresses s' !! n =
            Some (mkAddressInfo h (info_RepBlock info) (info_OpenBlock info)
                    (wallet.Add (info_Balance info) (pending_Amount pend))) /\
          (0 <= info_Balance info -> 0 <= pending_Amount pend ->
           info_Balance info + pending_Amount pend < 2 ^ 128 ->
           wallet.Add (info_Balance info) (pending_Amount pend) =
           info_Balance info + pending_Amount pend) /\
          pendings s' !! (n, src) = None /\
          storedWeight s' rep =
            Some (wallet.MarshalBinary (wallet.Add (repOf s rep) (pending_Amount pend))) /\
          (forall a, a <> rep -> repOf s' a = repOf s a) /\
          frontiers s' !! h = Some n /\
          blocks s' !! h = Some (BReceive b))).
Proof.
  intros h src. split.
  - intros Hf. unfold addReceiveBlock, bind, GetFrontier. cbn [block_Root].
    rewrite Hf. reflexivity.
  - intros n info Hf Hsig Ha Hhead. split.
    + intros Hp. unfold addReceiveBlock. cbv zeta. fold h. cbn [block_Root].
      unfold bind at 1. unfold GetFrontier. rewrite Hf. tx_simpl. rewrite Hsig. tx_simpl.
      unfold bind at 1. unfold GetAddress at 1. rewrite Ha.
      rewrite (proj2 (Hash_Equal_true _ _) Hhead). tx_simpl.
      unfold bind at 1. unfold orReturn, GetPending. fold src. rewrite Hp. reflexivity.
    + intros pend rblk rep Hp Hb Hr Hh.
      eexists. split; [exact (addReceiveBlock_Ok b s n info pend rblk rep
                                Hf Hsig Ha Hhead Hp Hb Hr Hh)|].
      cbn [addresses pendings frontiers blocks]. fold h.
      split; [apply lookup_insert_eq|].
      split; [intros; by apply Add_exact|].
      split; [apply lookup_delete_eq|].
      split; [apply storedWeight_written|].
      split; [intros a Hne; by apply repOf_other|].
      split; apply lookup_insert_eq.
Qed.

(** X14: the weight a send takes from the representative.  When
    [addSendBlock] returns nil, the bytes written for the sender's
    representative are those of the weight read minus the balance
    written in the block, which is the balance the account keeps, not
    the amount sent; no other weight is touched.  For a representative
    whose weight read was the account's balance, the value written is
    therefore the amount sent (the amount of the pending entry), while
    the account still holds the block's balance. *)
Theorem addSendBlock_debits_new_balance (b : SendBlock) (s s' : Store) :
  let h := block_Hash (BSend b) in
  addSendBlock b s = (s', Ok tt) ->
  exists n info rblk rep,
    frontiers s !! send_PreviousHash b = Some n /\
    addresses s !! n = Some info /\
    blocks s !! info_RepBlock info = Some rblk /\
    representativeOf rblk = Some rep /\
    storedWeight s' rep =
      Some (wallet.MarshalBinary (wallet.Sub (repOf s rep) (send_Balance b))) /\
    (forall a, a <> rep -> repOf s' a = repOf s a) /\
    (repOf s rep = info_Balance info ->
     (exists pend, pendings s' !! (send_Destination b, h) = Some pend /\
                   pending_Address pend = n /\
                   storedWeight s' rep = Some (wallet.MarshalBinary (pending_Amount pend)) /\
                   (0 <= send_Balance b -> info_Balance info < 2 ^ 128 ->
                    pending_Amount pend = info_Balance info - send_Balance b)) /\
     (forall info', addresses s' !! n = Some info' ->
                    info_Balance info' = send_Balance b)).
Proof.
  intros h Hok.
  destruct (addSendBlock_Ok_inv _ _ _ Hok)
    as (n & info & rblk & rep & Hf & Hsig & Ha & Hhead & Hlt & Hp & Hb & Hr & Hh).
  rewrite (addSendBlock_Ok b s n info rblk rep Hf Hsig Ha Hhead Hlt Hp Hb Hr Hh) in Hok.
  injection Hok as <-. fold h.
  exists n, info, rblk, rep.
  repeat (split; [assumption|]).
  split; [apply storedWeight_written|].
  split; [intros a Hne; by apply repOf_other|].
  intros Hsole. rewrite Hsole. cbn [pendings addresses]. split.
  - eexists. split; [apply lookup_insert_eq|]. cbn [pending_Address pending_Amount].
    split; [reflexivity|]. split; [apply storedWeight_written|].
    intros Hb0 Hb1. apply Sub_exact; unfold wallet.uint128_modulus; lia.
  - intros info'. rewrite lookup_insert_eq. by intros [= <-].
Qed.

(** The representative of an account after a block was applied. *)
Lemma addBlock_Ok_getRepresentative (blk : Block) (s s' : Store) (a rep : Address) :
  addBlock blk s = (s', Ok tt) ->
  getRepresentative a s = (s, Ok rep) ->
  getRepresentative a s' = (s', Ok rep).
Proof.
  intros Hok Hg.
  apply getRepresentative_Ok_inv in Hg as (_ & info & rblk & Ha & Hb & Hr).
  destruct (addBlock_Ok_inv _ _ _ Hok) as (Hv & Hh & Hroot).
  rewrite (addBlock_dispatch _ _ Hv Hh Hroot) in Hok.
  assert (Hne : info_RepBlock info <> block_Hash blk) by congruence.
  destruct blk as [b|b|b|b|p].
  - destruct (addOpenBlock_Ok_inv _ _ _ Hok) as (pend & Hsig & Ha' & Hp & Hf & _).
    rewrite (addOpenBlock_Ok b s pend Hsig Ha' Hp Hf Hh) in Hok. injection Hok as <-.
    apply (getRepresentative_eq _ _ info rblk); [|  |exact Hr]; cbn.
    + rewrite lookup_insert_ne by congruence. exact Ha.
    + rewrite lookup_insert_ne by congruence. exact Hb.
  - destruct (addSendBlock_Ok_inv _ _ _ Hok)
      as (n & info0 & rblk0 & rep0 & Hf & Hsig & Ha0 & Hhead & Hlt & Hp & Hb0 & Hr0 & _).
    rewrite (addSendBlock_Ok b s n info0 rblk0 rep0 Hf Hsig Ha0 Hhead Hlt Hp Hb0 Hr0 Hh)
      in Hok. injection Hok as <-.
    destruct (decide (a = n)) as [->|Hna].
    + assert (info0 = info) as -> by congruence.
      eapply getRepresentative_eq; [cbn; apply lookup_insert_eq | | exact Hr].
      cbn. rewrite lookup_insert_ne by congruence. exact Hb.
    + apply (getRepresentative_eq _ _ info rblk); [|  |exact Hr]; cbn.
      * rewrite lookup_insert_ne by congruence. exact Ha.
      * rewrite lookup_insert_ne by congruence. exact Hb.
  - destruct (addReceiveBlock_Ok_inv _ _ _ Hok)
      as (n & info0 & pend & rblk0 & rep0 & Hf & Hsig & Ha0 & Hhead & Hp & Hb0 & Hr0 & _).
    rewrite (addReceiveBlock_Ok b s n info0 pend rblk0 rep0 Hf Hsig Ha0 Hhead Hp Hb0 Hr0 Hh)
      in Hok. injection Hok as <-.
    destruct (decide (a = n)) as [->|Hna].
    + assert (info0 = info) as -> by congruence.
      eapply getRepresentative_eq; [cbn; apply lookup_insert_eq | | exact Hr].
      cbn. rewrite lookup_insert_ne by congruence. exact Hb.
    + apply (getRepresentative_eq _ _ info rblk); [|  |exact Hr]; cbn.
      * rewrite lookup_insert_ne by congruence. exact Ha.
      * rewrite lookup_insert_ne by congruence. exact Hb.
  - exfalso. destruct (addChangeBlock_Err b s) as [e He].
    rewrite Hok in He. discriminate.
  - discriminate.
Qed.

(** X15: an account keeps the representative of its open block.  After
    [addOpenBlock] has returned nil, [getRepresentative] of the new
    account is the representative named in the open block; and no call
    of [AddBlock], whatever block it is given and whatever it returns,
    changes what [getRepresentative] returns for an account. *)
Theorem representative_set_at_open :
  (forall b s s', addOpenBlock b s = (s', Ok tt) ->
     getRepresentative (open_Address b) s' = (s', Ok (open_Representative b))) /\
  (forall blk s a rep, getRepresentative a s = (s, Ok rep) ->
     getRepresentative a (fst (AddBlock blk s)) = (fst (AddBlock blk s), Ok rep)).
Proof.
  split.
  - intros b s s' Hok.
    destruct (addOpenBlock_Ok_inv _ _ _ Hok) as (pend & Hsig & Ha & Hp & Hf & Hh).
    rewrite (addOpenBlock_Ok b s pend Hsig Ha Hp Hf Hh) in Hok. injection Hok as <-.
    eapply getRepresentative_eq; cbn.
    + apply lookup_insert_eq.
    + cbn. apply lookup_insert_eq.
    + reflexivity.
  - intros blk s a rep Hg. unfold AddBlock, Update.
    destruct (addBlock blk s) as [s' [[]|e|msg]] eqn:Hstep; cbn [fst]; [|exact Hg..].
    exact (addBlock_Ok_getRepresentative _ _ _ _ _ Hstep Hg).
Qed.

(** X16: a send followed by the open of its destination moves the amount
    and nothing else.  The send leaves a pending entry for the
    destination; the open block that names the send as its source and is
    signed by the destination is then applied, the new account holds
    what the sender gave up, sender and receiver together hold what the
    sender held, and the pending table is as it was before the send. *)
Theorem send_then_open_conserves (b : SendBlock) (o : OpenBlock) (s s1 : Store) :
  let hs := block_Hash (BSend b) in
  let ho := block_Hash (BOpen o) in
  addSendBlock b s = (s1, Ok tt) ->
  open_Address o = send_Destination b ->
  open_SourceHash o = hs ->
  address_Verify (open_Address o) ho (open_Signature o) = true ->
  addresses s !! send_Destination b = None ->
  blocks s !! ho = None -> frontiers s !! ho = None -> ho <> hs ->
  exists s2 n info,
    addOpenBlock o s1 = (s2, Ok tt) /\
    frontiers s !! send_PreviousHash b = Some n /\
    addresses s !! n = Some info /\
    addresses s2 !! n =
      Some (mkAddressInfo hs (info_RepBlock info) (info_OpenBlock info) (send_Balance b)) /\
    addresses s2 !! send_Destination b =
      Some (mkAddressInfo ho ho ho (wallet.Sub (info_Balance info) (send_Balance b))) /\
    (0 <= send_Balance b -> info_Balance info < 2 ^ 128 ->
     send_Balance b + wallet.Sub (info_Balance info) (send_Balance b) = info_Balance info) /\
    pendings s2 = pendings s.
Proof.
  intros hs ho Hok Haddr Hsrc Hsig Hnew Hbo Hfo Hne.
  destruct (addSendBlock_Ok_inv _ _ _ Hok)
    as (n & info & rblk & rep & Hf & Hsig' & Ha & Hhead & Hlt & Hp & Hb & Hr & Hh).
  rewrite (addSendBlock_Ok b s n info rblk rep Hf Hsig' Ha Hhead Hlt Hp Hb Hr Hh) in Hok.
  injection Hok as <-. fold hs in Hp, Hh |- *.
  assert (Hn : n <> send_Destination b) by congruence.
  eexists _, n, info. split.
  - apply (addOpenBlock_Ok o _
             (mkPending n (wallet.Sub (info_Balance info) (send_Balance b)))).
    + exact Hsig.
    + cbn. rewrite Haddr, lookup_insert_ne by exact Hn. exact Hnew.
    + cbn. rewrite Haddr, Hsrc. apply lookup_insert_eq.
    + cbn. fold ho. rewrite lookup_insert_ne by congruence.
      rewrite lookup_delete_ne by congruence. exact Hfo.
    + cbn. fold ho. rewrite lookup_insert_ne by congruence. exact Hbo.
  - split; [exact Hf|]. split; [exact Ha|].
    cbn [addresses pendings pending_Amount]. fold ho. rewrite Haddr, Hsrc.
    split; [rewrite lookup_insert_ne by congruence; apply lookup_insert_eq|].
    split; [apply lookup_insert_eq|].
    split.
    + intros Hb0 Hb1. rewrite Sub_exact by (unfold wallet.uint128_modulus; lia). lia.
    + rewrite delete_insert_eq. apply delete_id. exact Hp.
Qed.

End Effects.

Section ScenariosEffects.
#[local] Existing Instance fixture.ops.

Lemma addReceiveBlock_credits_witness :
  addReceiveBlock fixture.receive1 fixture.genesisStore =
    (fixture.genesisStore, Err ErrKeyNotFound) /\
  addReceiveBlock fixture.receive1 fixture.afterOpen =
    (fixture.afterOpen, Err ErrMissingSource) /\
  exists s', addReceiveBlock fixture.receive2 fixture.afterSend2 = (s', Ok tt) /\
             addresses s' !! 200%N = Some (mkAddressInfo 83%N 25%N 25%N (wallet.Add 10 20)) /\
             storedWeight s' 300%N =
               Some (wallet.MarshalBinary (wallet.Add (repOf fixture.afterSend2 300%N) 20)).
Proof.
  split; [|split].
  - apply (proj1 (addReceiveBlock_credits fixture.receive1 fixture.genesisStore)).
    reflexivity.
  - refine (proj1 (proj2 (addReceiveBlock_credits fixture.receive1 fixture.afterOpen)
                     200%N (mkAddressInfo 25%N 25%N 25%N 10) _ _ _ _) _);
      reflexivity.
  - pose proof (addReceiveBlock_credits fixture.receive2 fixture.afterSend2) as Hthm.
    cbv zeta in Hthm. destruct Hthm as [_ Hthm].
    destruct (Hthm 200%N (mkAddressInfo 25%N 25%N 25%N 10)) as [_ Hcred];
      [reflexivity..|].
    destruct (Hcred (mkPending 100%N 20) (BOpen fixture.open1) 300%N)
      as (s' & Hok & Ha & _ & _ & Hrep & _); [reflexivity..|].
    exists s'. split; [exact Hok|]. split; [exact Ha | exact Hrep].
Defined.

Lemma addSendBlock_debits_new_balance_witness :
  exists rep,
    storedWeight fixture.afterSend rep =
    Some (wallet.MarshalBinary
            (wallet.Sub (repOf fixture.genesisStore rep) (fixture.genesisBalance - 10))).
Proof.
  destruct (addSendBlock_debits_new_balance fixture.send1 fixture.genesisStore
              fixture.afterSend) as (n & info & rblk & rep & _ & _ & _ & _ & Hrep & _).
  - reflexivity.
  - exists rep. exact Hrep.
Defined.

Lemma representative_set_at_open_witness :
  getRepresentative 200%N fixture.afterOpen = (fixture.afterOpen, Ok 300%N) /\
  getRepresentative 100%N (fst (AddBlock (BSend fixture.send1) fixture.genesisStore)) =
    (fst (AddBlock (BSend fixture.send1) fixture.genesisStore), Ok 100%N).
Proof.
  destruct representative_set_at_open as [Hopen Hkeep].
  split.
  - apply (Hopen fixture.open1 fixture.afterSend). reflexivity.
  - apply Hkeep. reflexivity.
Defined.

Lemma send_then_open_conserves_witness :
  exists s2, addOpenBlock fixture.open1 fixture.afterSend = (s2, Ok tt) /\
             pendings s2 = pendings fixture.genesisStore.
Proof.
  destruct (send_then_open_conserves fixture.send1 fixture.open1 fixture.genesisStore
              fixture.afterSend) as (s2 & n & info & Hok & _ & _ & _ & _ & _ & Hp);
    try reflexivity; try discriminate.
  exists s2. split; [exact Hok | exact Hp].
Defined.

End ScenariosEffects.

(** * Accounts and batches (store/ledger.go) *)

Section Accounts.
Context `{BlockOps}.

(** The record of an account after a call of [addBlock] that returns nil. *)
Lemma addBlock_Ok_addresses (blk : Block) (s s' : Store) :
  addBlock blk s = (s', Ok tt) ->
  exists n info' h,
    addresses s' = <[n := info']> (addresses s) /\
    frontiers s' = <[h := n]> (delete h (frontiers s)) /\
    h = block_Hash blk /\ info_HeadBlock info' = h /\ blocks s !! h = None /\
    (forall info, addresses s !! n = Some info ->
                  info_OpenBlock info' = info_OpenBlock info).
Proof.
  intros Hok. destruct (addBlock_Ok_inv _ _ _ Hok) as (Hv & Hh & Hroot).
  rewrite (addBlock_dispatch _ _ Hv Hh Hroot) in Hok.
  destruct blk as [b|b|b|b|p].
  - destruct (addOpenBlock_Ok_inv _ _ _ Hok) as (pend & Hsig & Ha & Hp & Hf & _).
    rewrite (addOpenBlock_Ok b s pend Hsig Ha Hp Hf Hh) in Hok. injection Hok as <-.
    eexists _, _, _. cbn [addresses frontiers]. split; [reflexivity|].
    split; [by rewrite insert_delete_eq|]. split; [reflexivity|].
    split; [reflexivity|]. split; [exact Hh|]. intros info. rewrite Ha. discriminate.
  - destruct (addSendBlock_Ok_inv _ _ _ Hok)
      as (n & info0 & rblk & rep & Hf & Hsig & Ha & Hhead & Hlt & Hp & Hb & Hr & _).
    rewrite (addSendBlock_Ok b s n info0 rblk rep Hf Hsig Ha Hhead Hlt Hp Hb Hr Hh) in Hok.
    injection Hok as <-.
    eexists _, _, _. cbn [addresses frontiers]. split; [reflexivity|].
    split; [reflexivity|]. split; [reflexivity|]. split; [reflexivity|].
    split; [exact Hh|]. intros info. rewrite Ha. by intros [= <-].
  - destruct (addReceiveBlock_Ok_inv _ _ _ Hok)
      as (n & info0 & pend & rblk & rep & Hf & Hsig & Ha & Hhead & Hp & Hb & Hr & _).
    rewrite (addReceiveBlock_Ok b s n info0 pend rblk rep Hf Hsig Ha Hhead Hp Hb Hr Hh)
      in Hok. injection Hok as <-.
    eexists _, _, _. cbn [addresses frontiers]. split; [reflexivity|].
    split; [reflexivity|]. split; [reflexivity|]. split; [reflexivity|].
    split; [exact Hh|]. intros info. rewrite Ha. by intros [= <-].
  - exfalso. destruct (addChangeBlock_Err b s) as [e He].
    rewrite Hok in He. discriminate.
  - discriminate.
Qed.

(** The record of an account after a call of [addBlock] that returns an
    error: the handlers that fail after their first write have written
    the record of the account they read. *)
Lemma addBlock_Err_addresses (blk : Block) (s s' : Store) (e : Error) (a : Address)
    (info : AddressInfo) :
  addBlock blk s = (s', Err e) ->
  addresses s !! a = Some info ->
  exists info', addresses s' !! a = Some info' /\
                info_OpenBlock info' = info_OpenBlock info.
Proof.
  intros Hstep Ha. revert Hstep.
  unfold addBlock, bind, HasBlock, fail, panic. cbv zeta.
  destruct (block_Valid blk); tx_simpl; [|intros [= <- <-]; eauto].
  destruct (blocks s !! block_Hash blk) eqn:Hh; tx_simpl; [intros [= <- <-]; eauto|].
  destruct (blocks s !! block_Root blk) eqn:Hr; tx_simpl; [|intros [= <- <-]; eauto].
  destruct blk as [b'|b'|b'|b'|p]; [| | | |discriminate];
    tx_unfold; cbv zeta; tx_simpl; cbn [block_Root] in *;
    repeat tx_case; intros Heq; try discriminate;
    injection Heq as <- <-; cbn [addresses]; eauto;
    match goal with
    | |- context [<[?n := _]> (addresses s) !! a] =>
        destruct (decide (a = n)) as [->|Hne];
        [rewrite lookup_insert_eq; eexists; split; [reflexivity|]; cbn; congruence
        |rewrite lookup_insert_ne by congruence; eauto]
    end.
Qed.

(** X17: an account, once recorded, stays recorded, and the hash of its
    open block never changes.  This holds for every call of [addBlock],
    whatever it returns (the writes of a handler that fails half-way
    included), and so for [AddBlock] and for every batch of
    [AddBlocks]. *)
Theorem accounts_persist (s : Store) (a : Address) (info : AddressInfo) :
  addresses s !! a = Some info ->
  let kept (s' : Store) :=
    exists info', addresses s' !! a = Some info' /\
                  info_OpenBlock info' = info_OpenBlock info in
  (forall blk, kept (fst (addBlock blk s)) /\ kept (fst (AddBlock blk s))) /\
  (forall blks, kept (fst (AddBlocks blks s))).
Proof.
  intros Ha kept.
  assert (Hnow : kept s) by (exists info; eauto).
  assert (Hstep : forall blk s0, kept s0 -> kept (fst (addBlock blk s0))).
  { unfold kept. intros blk s0 (info0 & Ha0 & Ho0).
    destruct (addBlock blk s0) as [s' [[]|e|msg]] eqn:Heq; cbn [fst].
    - destruct (addBlock_Ok_addresses _ _ _ Heq) as (n & info' & h & -> & _ & _ & _ & _ & Ho).
      destruct (decide (a = n)) as [->|Hne].
      + exists info'. rewrite lookup_insert_eq. split; [reflexivity|].
        rewrite (Ho _ Ha0). exact Ho0.
      + exists info0. rewrite lookup_insert_ne by congruence. eauto.
    - destruct (addBlock_Err_addresses _ _ _ _ _ _ Heq Ha0) as (info' & Ha' & Ho').
      exists info'. split; [exact Ha' | congruence].
    - rewrite (addBlock_Panic_tables _ _ _ _ Heq). exists info0; eauto. }
  split.
  - intros blk. split; [by apply Hstep|].
    apply (Update_keeps kept); [exact Hnow | by apply Hstep].
  - intros blks. apply (Update_keeps kept); [exact Hnow|].
    apply (addBlocks_loop_keeps kept); [exact Hstep | exact Hnow].
Qed.

(** The ledger [NewLedger] makes of the empty store. *)
Lemma NewLedger_emptyStore (opts : LedgerOptions) :
  let G := GenesisBlock opts in
  let h := block_Hash (BOpen G) in
  address_Verify (open_Address G) h (open_Signature G) = true ->
  NewLedger emptyStore opts =
  (mkStore {[ h := BOpen G ]}
           {[ open_Address G := mkAddressInfo h h h (GenesisBalance opts) ]}
           {[ h := open_Address G ]} ∅ ∅, Ok tt).
Proof.
  intros G h Hsig. unfold NewLedger, setGenesis. fold G. cbv zeta. fold h.
  rewrite Hsig. cbn [negb]. unfold Update, bind, Empty.
  rewrite (bool_decide_eq_true_2 (blocks emptyStore = ∅) eq_refl). cbn [negb].
  unfold txn_AddBlock. fold h. cbn [blocks emptyStore]. rewrite lookup_empty.
  unfold AddAddress; tx_simpl. cbn [addresses emptyStore]. rewrite lookup_empty.
  unfold AddFrontier; tx_simpl. cbn [frontiers emptyStore]. rewrite lookup_empty.
  reflexivity.
Qed.

(** X18: the head of every account is a frontier of that account.  This
    holds on the ledger [NewLedger] makes of the empty store, and on a
    store with a frontier for every block every call of [AddBlock],
    whatever it returns, keeps it. *)
Theorem heads_are_frontiers :
  (forall opts, headsAreFrontiers (fst (NewLedger emptyStore opts))) /\
  (forall s blk, frontierPerBlock s -> headsAreFrontiers s ->
                 headsAreFrontiers (fst (AddBlock blk s))).
Proof.
  split.
  - intros opts.
    destruct (address_Verify (open_Address (GenesisBlock opts))
                (block_Hash (BOpen (GenesisBlock opts)))
                (open_Signature (GenesisBlock opts))) eqn:Hsig.
    + rewrite (NewLedger_emptyStore _ Hsig). intros a info. cbn.
      destruct (decide (a = open_Address (GenesisBlock opts))) as [->|Hne].
      * rewrite lookup_singleton_eq. intros [= <-]. cbn. apply lookup_singleton_eq.
      * rewrite lookup_singleton_ne by congruence. discriminate.
    + unfold NewLedger, setGenesis. cbv zeta. rewrite Hsig. cbn.
      intros a info. unfold emptyStore. cbn. rewrite lookup_empty. discriminate.
  - intros s blk Hd Hheads. unfold AddBlock, Update.
    destruct (addBlock blk s) as [s' [[]|e|msg]] eqn:Heq; cbn [fst]; [|exact Hheads..].
    destruct (addBlock_Ok_addresses _ _ _ Heq)
      as (n & info' & h & Ha & Hf & _ & Hhead & Hh & _).
    assert (Hfh : frontiers s !! h = None).
    { apply not_elem_of_dom. unfold frontierPerBlock in Hd. rewrite Hd.
      by apply not_elem_of_dom. }
    intros a info. rewrite Ha, Hf, insert_delete_eq.
    destruct (decide (a = n)) as [->|Hne].
    + rewrite lookup_insert_eq. intros [= <-]. rewrite Hhead. apply lookup_insert_eq.
    + rewrite lookup_insert_ne by congruence. intros Hai.
      specialize (Hheads _ _ Hai).
      rewrite lookup_insert_ne by congruence. exact Hheads.
Qed.

End Accounts.

Section Batches.
Context `{BlockOps}.

Lemma addBlocks_loop_outcome (blks : list Block) (s : Store) :
  (exists s', addBlocks_loop blks s = (s', Ok tt)) \/
  (exists s', addBlocks_loop blks s = (s', Panic "bad block type")).
Proof.
  revert s. induction blks as [|blk blks IH]; intros s; [left; by eexists|].
  cbn. destruct (addBlock blk s) as [s1 [[]|e|msg]] eqn:Hstep; try apply IH.
  right. exists s1.
  assert (Hp : snd (addBlock blk s) = Panic msg) by (by rewrite Hstep).
  apply addBlock_panic_inv in Hp as (_ & -> & _). reflexivity.
Qed.

Lemma addBlocks_loop_known (blks : list Block) (s : Store) :
  Forall knownVariant blks ->
  addBlocks_loop blks s = (fst (addBlocks_loop blks s), Ok tt).
Proof.
  intros Hall. revert s. induction Hall as [|blk blks Hk _ IH]; intros s; [reflexivity|].
  cbn. destruct (addBlock blk s) as [s1 [[]|e|msg]] eqn:Hstep; try apply IH.
  exfalso. assert (Hp : snd (addBlock blk s) = Panic msg) by (by rewrite Hstep).
  apply addBlock_panic_inv in Hp as ([p ->] & _). by apply (Hk p).
Qed.

(** X19: what [AddBlocks] returns.  It never returns an error: the errors
    of the blocks are dropped inside the loop.  On a batch of open, send,
    receive and change blocks it returns nil and commits the store the
    loop leaves, the writes of the blocks that failed included.  The one
    other outcome is the panic of [addBlock] on a foreign block type, and
    then nothing of the batch is committed, the blocks applied before
    the foreign one included. *)
Theorem AddBlocks_outcome (blks : list Block) (s : Store) :
  (forall e, snd (AddBlocks blks s) <> Err e) /\
  (Forall knownVariant blks ->
   AddBlocks blks s = (fst (addBlocks_loop blks s), Ok tt)) /\
  (forall msg, snd (AddBlocks blks s) = Panic msg ->
   AddBlocks blks s = (s, Panic "bad block type") /\ ~ Forall knownVariant blks).
Proof.
  split; [|split].
  - intros e. unfold AddBlocks, Update.
    destruct (addBlocks_loop_outcome blks s) as [[s' ->] | [s' ->]]; discriminate.
  - intros Hall. unfold AddBlocks, Update.
    rewrite (addBlocks_loop_known _ _ Hall). reflexivity.
  - intros msg. unfold AddBlocks, Update.
    destruct (addBlocks_loop_outcome blks s) as [[s' Hl] | [s' Hl]];
      rewrite Hl; [discriminate|].
    intros _. split; [reflexivity|].
    intros Hall. rewrite (addBlocks_loop_known _ _ Hall) in Hl. discriminate.
Qed.

(** X20: batches compose.  A batch of open, send, receive and change
    blocks submitted to [AddBlocks] in one call leaves the store that
    two calls, one for each part of the batch, leave; and a block that
    [addBlock] applies is committed alike by [AddBlock] and by
    [AddBlocks] on the batch of that block alone. *)
Theorem AddBlocks_app (l1 l2 : list Block) (s : Store) :
  Forall knownVariant l1 -> Forall knownVariant l2 ->
  AddBlocks (l1 ++ l2) s = AddBlocks l2 (fst (AddBlocks l1 s)) /\
  (forall blk s', addBlock blk s = (s', Ok tt) -> AddBlocks [blk] s = AddBlock blk s).
Proof.
  intros H1 H2. split.
  - assert (H12 : Forall knownVariant (l1 ++ l2)) by (apply Forall_app; by split).
    unfold AddBlocks, Update.
    rewrite (addBlocks_loop_known _ _ H12).
    rewrite addBlocks_loop_app.
    rewrite (addBlocks_loop_known _ _ H1). cbn [fst].
    rewrite (addBlocks_loop_known l2 _ H2). reflexivity.
  - intros blk s' Hok. unfold AddBlocks, AddBlock, Update. cbn. rewrite Hok. reflexivity.
Qed.

(** X21: [CountBlocks] after a submission.  A block that [AddBlock]
    applies raises the count by one, a block it turns down leaves the
    count; and a batch raises the count by at most its length, whatever
    happens to its blocks. *)
Theorem CountBlocks_after (s : Store) (n : nat) :
  CountBlocks s = Ok n ->
  (forall blk s', AddBlock blk s = (s', Ok tt) -> CountBlocks s' = Ok (S n)) /\
  (forall blk s' e, AddBlock blk s = (s', Err e) -> CountBlocks s' = Ok n) /\
  (forall blks, exists m, CountBlocks (fst (AddBlocks blks s)) = Ok m /\
                          (n <= m <= n + length blks)%nat).
Proof.
  unfold CountBlocks, View, txn_CountBlocks. cbn. intros [= <-].
  assert (Hstep : forall blk s0,
            (size (blocks s0) <= size (blocks (fst (addBlock blk s0)))
             <= S (size (blocks s0)))%nat).
  { intros blk s0. destruct (addBlock_blocks blk s0) as [-> | [Hh ->]]; [lia|].
    rewrite map_size_insert_None by exact Hh. lia. }
  split; [|split].
  - intros blk s'. unfold AddBlock, Update.
    destruct (addBlock blk s) as [s1 [[]|e|msg]] eqn:Hok; intros [= <-].
    destruct (addBlock_Ok_tables _ _ _ Hok) as (Hh & -> & _).
    by rewrite map_size_insert_None.
  - intros blk s' e. unfold AddBlock, Update.
    destruct (addBlock blk s) as [s1 [[]|e'|msg]]; intros [= <-]; reflexivity.
  - intros blks. eexists. split; [reflexivity|].
    unfold AddBlocks, Update.
    assert (Hloop : forall l s0,
              (size (blocks s0) <= size (blocks (fst (addBlocks_loop l s0)))
               <= size (blocks s0) + length l)%nat).
    { induction l as [|blk l IH]; intros s0; [cbn; lia|].
      cbn [addBlocks_loop length]. specialize (Hstep blk s0).
      destruct (addBlock blk s0) as [s1 [[]|e|msg]]; cbn [fst] in *;
        specialize (IH s1); lia. }
    specialize (Hloop blks s).
    destruct (addBlocks_loop blks s) as [s1 [[]|e|msg]]; cbn [fst] in *; lia.
Qed.

End Batches.

Section ScenariosAccounts.
#[local] Existing Instance fixture.ops.

Lemma accounts_persist_witness :
  exists info',
    addresses (fst (AddBlocks [BChange fixture.change1; BSend fixture.send1]
                      fixture.genesisStore)) !! 100%N = Some info' /\
    info_OpenBlock info' = 9%N.
Proof.
  refine (proj2 (accounts_persist fixture.genesisStore 100%N
                   (mkAddressInfo 9%N 9%N 9%N fixture.genesisBalance) _)
            [BChange fixture.change1; BSend fixture.send1]).
  reflexivity.
Defined.

Lemma heads_are_frontiers_witness :
  headsAreFrontiers fixture.genesisStore /\
  headsAreFrontiers (fst (AddBlock (BSend fixture.send1) fixture.genesisStore)).
Proof.
  destruct heads_are_frontiers as [Hgen Hkeep].
  assert (Hg : headsAreFrontiers fixture.genesisStore) by exact (Hgen fixture.opts).
  split; [exact Hg|]. apply Hkeep; [|exact Hg].
  vm_compute. reflexivity.
Defined.

Lemma AddBlocks_outcome_witness :
  AddBlocks [BSend fixture.sendOrphan; BSend fixture.send1] fixture.genesisStore =
    (fixture.afterSend, Ok tt) /\
  AddBlocks [BSend fixture.send1; fixture.foreign] fixture.genesisStore =
    (fixture.genesisStore, Panic "bad block type").
Proof.
  destruct (AddBlocks_outcome [BSend fixture.sendOrphan; BSend fixture.send1]
              fixture.genesisStore) as (_ & Hnil & _).
  destruct (AddBlocks_outcome [BSend fixture.send1; fixture.foreign]
              fixture.genesisStore) as (_ & _ & Hpanic).
  split.
  - rewrite Hnil; [reflexivity|]. repeat constructor; intros p; discriminate.
  - apply (Hpanic "bad block type"%string). reflexivity.
Defined.

Lemma AddBlocks_app_witness :
  AddBlocks ([BSend fixture.send1] ++ [BOpen fixture.open1]) fixture.genesisStore =
  AddBlocks [BOpen fixture.open1] (fst (AddBlocks [BSend fixture.send1] fixture.genesisStore)).
Proof.
  apply (AddBlocks_app [BSend fixture.send1] [BOpen fixture.open1] fixture.genesisStore);
    repeat constructor; intros p; discriminate.
Defined.

Lemma CountBlocks_after_witness :
  CountBlocks fixture.afterSend = Ok 2%nat /\
  CountBlocks (fst (AddBlock (BSend fixture.sendOrphan) fixture.genesisStore)) = Ok 1%nat.
Proof.
  destruct (CountBlocks_after fixture.genesisStore 1%nat) as (Hok & Herr & _);
    [reflexivity|].
  split.
  - apply (Hok (BSend fixture.send1)). reflexivity.
  - apply (Herr (BSend fixture.sendOrphan) _ ErrMissingPrevious). reflexivity.
Defined.

End ScenariosAccounts.

(** * Parsing a balance (wallet/balance.go) *)

Lemma bytes_len_16_iff (n : N) :
  wallet.bytes_len n = 16%nat <-> (2 ^ 120 <= n < 2 ^ 128)%N.
Proof.
  split.
  - intros Hlen. pose proof (bytes_len_16 n Hlen) as Hr.
    change (2 ^ 120) with (Z.of_N (2 ^ 120)) in Hr.
    change (2 ^ 128) with (Z.of_N (2 ^ 128)) in Hr. lia.
  - intros [Hlo Hhi]. unfold wallet.bytes_len.
    assert (H0 : (0 < n)%N).
    { eapply N.lt_le_trans; [|exact Hlo]. reflexivity. }
    destruct (N.eqb_spec n 0) as [->|_]; [inversion H0|].
    assert (Hl : (120 <= N.log2 n)%N).
    { change 120%N with (N.log2 (2 ^ 120)). by apply N.log2_le_mono. }
    assert (Hh : (N.log2 n < 128)%N) by exact (proj1 (N.log2_lt_pow2 n 128 H0) Hhi).
    assert (Hq : (N.log2 n / 8 = 15)%N).
    { symmetry. apply (N.div_unique _ _ _ (N.log2 n - 120)); lia. }
    rewrite Hq. reflexivity.
Qed.

(** [UnmarshalBinary] of [i.Bytes()]: the slice has the bytes of the
    absolute value without leading zeros, so its length is 16 exactly
    when the absolute value needs all 16 bytes. *)
Lemma UnmarshalBinary_big_Bytes (x : Z) (b : Balance) :
  wallet.UnmarshalBinary (wallet.big_Bytes x) = Ok b <->
  b = Z.abs x /\ 2 ^ 120 <= Z.abs x < 2 ^ 128.
Proof.
  unfold wallet.UnmarshalBinary, wallet.big_Bytes.
  rewrite length_be_bytes.
  change (2 ^ 120) with (Z.of_N (2 ^ 120)). change (2 ^ 128) with (Z.of_N (2 ^ 128)).
  destruct (Nat.eqb_spec (wallet.bytes_len (Z.abs_N x)) wallet.BalanceSize) as [Hlen|Hlen];
    cbn [negb].
  - unfold wallet.uint128_FromBytes, wallet.big_SetBytes.
    rewrite fold_be_bytes, Hlen.
    apply bytes_len_16_iff in Hlen. change (N.of_nat wallet.BalanceSize) with 16%N.
    rewrite N.mod_small by (change (256 ^ 16)%N with (2 ^ 128)%N; lia).
    rewrite N.mul_0_l, N.add_0_l, N2Z.inj_abs_N.
    split; [intros [= <-]; split; [reflexivity | lia] | intros [-> _]; reflexivity].
  - split; [discriminate|]. intros [_ Hr]. exfalso. apply Hlen.
    apply bytes_len_16_iff. lia.
Qed.

(** X22: a unit that is not in the [units] table.  Indexing the table
    gives the zero decimal, the product is zero whatever the string says,
    and zero has no bytes: [ParseBalance] returns no balance for any
    string. *)
Theorem ParseBalance_unknown_unit (s unit : string) (b : Balance) :
  unit ∉ ["raw"; "uxrb"; "mxrb"; "xrb"; "kxrb"; "Mxrb"; "Gxrb"]%string ->
  wallet.ParseBalance s unit <> Ok b.
Proof.
  intros Hunit.
  assert (Hu : wallet.units unit = wallet.mkDecimal 0 0).
  { unfold wallet.units.
    repeat match goal with
    | |- context [String.eqb unit ?u] =>
        destruct (String.eqb_spec unit u) as [->|_];
        [exfalso; apply Hunit; set_solver|]
    end. reflexivity. }
  unfold wallet.ParseBalance.
  destruct (wallet.decimal_NewFromString s) as [d|e|p]; try discriminate.
  cbv zeta. rewrite Hu. unfold wallet.decimal_Mul. cbn [wallet.d_value wallet.d_exp].
  rewrite Z.mul_0_r, Z.mul_0_l. intros Hok.
  apply UnmarshalBinary_big_Bytes in Hok as [_ Hr]. cbn in Hr. lia.
Qed.

(** X23: the balance [ParseBalance] returns.  For a string that
    [decimal.NewFromString] reads as [v * 10^e] and a unit of the table
    worth [10^u], the integer handed to [UnmarshalBinary] is [v] times
    [10^(e+u)] when [e+u] is positive and [v] itself when it is not (the
    digits below one raw are kept and the point is dropped, nothing is
    divided), and of that integer the bytes of the absolute value are
    taken (a minus sign is dropped).  A balance is returned exactly when
    that absolute value needs all 16 bytes, and it is that value. *)
Theorem ParseBalance_value (s unit : string) (d : wallet.Decimal) (b : Balance) :
  wallet.decimal_NewFromString s = Ok d ->
  let e := wallet.d_exp d + wallet.d_exp (wallet.units unit) in
  let i := Z.abs (wallet.d_value d * wallet.d_value (wallet.units unit)) *
           (if e <=? 0 then 1 else 10 ^ e) in
  wallet.ParseBalance s unit = Ok b <-> (b = i /\ 2 ^ 120 <= i < 2 ^ 128).
Proof.
  intros Hd e i. unfold wallet.ParseBalance. rewrite Hd. cbv zeta.
  rewrite UnmarshalBinary_big_Bytes.
  unfold wallet.decimal_Mul, wallet.bigPow. cbn [wallet.d_value wallet.d_exp]. fold e.
  assert (Hi : Z.abs (wallet.d_value d * wallet.d_value (wallet.units unit) *
                      (if e <=? 0 then 1 else 10 ^ e)) = i).
  { unfold i. rewrite Z.abs_mul. f_equal.
    destruct (e <=? 0) eqn:He; [reflexivity|].
    apply Z.abs_eq. apply Z.pow_nonneg. lia. }
  rewrite Hi. reflexivity.
Qed.

Lemma ParseBalance_unknown_unit_witness :
  wallet.ParseBalance "340282366920938463463374607431768211455" "nano" <>
  Ok (2 ^ 128 - 1).
Proof.
  apply ParseBalance_unknown_unit. vm_compute. 
  intros Hin. repeat (apply elem_of_cons in Hin as [Hin|Hin]; [discriminate|]).
  by apply elem_of_nil in Hin.
Defined.

Lemma ParseBalance_value_witness :
  wallet.ParseBalance "-34028236692093846346337460743176821145.5" "raw" =
  Ok (2 ^ 128 - 1).
Proof.
  apply (ParseBalance_value _ "raw"
           (wallet.mkDecimal (-340282366920938463463374607431768211455) (-1))).
  - vm_compute. reflexivity.
  - split; [vm_compute; reflexivity|].
    split; vm_compute; first [reflexivity | discriminate].
Defined.

(** * Printing a balance and reading it back (wallet/balance.go) *)

Ltac digit_eval :=
  repeat match goal with
  | |- context [digitValue (Ascii ?b0 ?b1 ?b2 ?b3 ?b4 ?b5 ?b6 ?b7)] =>
      let v := eval vm_compute in (digitValue (Ascii b0 b1 b2 b3 b4 b5 b6 b7)) in
      change (digitValue (Ascii b0 b1 b2 b3 b4 b5 b6 b7)) with v
  end; cbv iota.

Lemma digitValue_lt (c : ascii) (d : N) : digitValue c = Some d -> (d < 10)%N.
Proof.
  destruct c as [[|] [|] [|] [|] [|] [|] [|] [|]]; cbn; intros [= <-]; lia.
Qed.

Lemma decimalValue_of_uint_acc (s : string) :
  forall u p, NilEmpty.uint_of_string s = Some u ->
    decimalValue (Npos p) s = Some (Npos (Pos.of_uint_acc u p)).
Proof.
  induction s as [|c r IH]; intros u p; cbn [NilEmpty.uint_of_string decimalValue].
  - intros [= <-]. reflexivity.
  - destruct (NilEmpty.uint_of_string r) as [u'|]; [|discriminate].
    intros Hc. apply uint_of_char_spec in Hc.
    repeat (destruct Hc as [[-> ->]|Hc]); [..|destruct Hc as [-> ->]];
      cbn [Pos.of_uint_acc]; digit_eval;
      match goal with
      | |- decimalValue ?a r = Some (N.pos (Pos.of_uint_acc u' ?q)) =>
          replace a with (N.pos q) by lia; by apply IH
      end.
Qed.

Lemma decimalValue_of_uint (s : string) :
  forall u, NilEmpty.uint_of_string s = Some u ->
    decimalValue 0 s = Some (Pos.of_uint u).
Proof.
  induction s as [|c r IH]; intros u; cbn [NilEmpty.uint_of_string decimalValue].
  - intros [= <-]. reflexivity.
  - destruct (NilEmpty.uint_of_string r) as [u'|] eqn:Hr; [|discriminate].
    intros Hc. apply uint_of_char_spec in Hc.
    destruct Hc as [[-> ->]|Hc]; [digit_eval; cbn [Pos.of_uint]; by apply IH|].
    repeat (destruct Hc as [[-> ->]|Hc]); [..|destruct Hc as [-> ->]];
      digit_eval; cbn [Pos.of_uint N.mul N.add];
      apply (decimalValue_of_uint_acc r u' _ Hr).
Qed.

Lemma decimalValue_uint_of_string (s : string) :
  forall acc v, decimalValue acc s = Some v ->
    exists u, NilEmpty.uint_of_string s = Some u.
Proof.
  induction s as [|c r IH]; intros acc v; cbn [NilEmpty.uint_of_string decimalValue].
  - eauto.
  - destruct (digitValue c) as [d|] eqn:Hd; [|discriminate].
    intros Hv. destruct (IH _ _ Hv) as [u' ->].
    destruct c as [[|] [|] [|] [|] [|] [|] [|] [|]]; cbn in Hd; try discriminate;
      cbn; eauto.
Qed.

Lemma append_cons (c : ascii) (s t : string) : String c s +:+ t = String c (s +:+ t).
Proof. reflexivity. Qed.

Lemma digitValue_0 (c : ascii) : digitValue c = Some 0%N -> c = "0"%char.
Proof.
  destruct c as [[|] [|] [|] [|] [|] [|] [|] [|]]; cbn; intros [=]; reflexivity.
Qed.

Lemma decimalValue_app (s t : string) (acc : N) :
  decimalValue acc (s +:+ t) =
  match decimalValue acc s with Some a => decimalValue a t | None => None end.
Proof.
  revert acc. induction s as [|c r IH]; intros acc; [reflexivity|].
  change (String c r +:+ t) with (String c (r +:+ t)). cbn [decimalValue].
  destruct (digitValue c); [apply IH | reflexivity].
Qed.

Lemma decimalValue_shift (s : string) :
  forall acc v, decimalValue acc s = Some v ->
    exists w, decimalValue 0 s = Some w /\
              v = (acc * 10 ^ N.of_nat (String.length s) + w)%N /\
              (w < 10 ^ N.of_nat (String.length s))%N.
Proof.
  induction s as [|c r IH]; intros acc v.
  - cbn. intros [= <-]. exists 0%N. repeat split; lia.
  - cbn [decimalValue String.length]. destruct (digitValue c) as [d|] eqn:Hd; [|discriminate].
    intros Hv. pose proof (digitValue_lt _ _ Hd) as Hlt.
    destruct (IH _ _ Hv) as (w & Hw & -> & Hwlt).
    destruct (decimalValue (10 * 0 + d) r) as [w'|] eqn:Hw'.
    + destruct (IH _ _ Hw') as (w2 & Hw2 & -> & _).
      assert (w2 = w) as -> by congruence.
      exists (d * 10 ^ N.of_nat (String.length r) + w)%N.
      rewrite Nat2N.inj_succ, N.pow_succ_r'.
      set (X := (10 ^ N.of_nat (String.length r))%N) in *. clearbody X.
      split; [|split]; [f_equal; ring | ring | nia].
    + exfalso. destruct (decimalValue_uint_of_string _ _ _ Hw) as [u Hu].
      destruct d as [|p].
      * change (10 * 0 + 0)%N with 0%N in Hw'. congruence.
      * change (10 * 0 + N.pos p)%N with (N.pos p) in Hw'.
        rewrite (decimalValue_of_uint_acc _ _ _ Hu) in Hw'. discriminate.
Qed.

Lemma decimalValue_repeat0 (k : nat) (acc : N) :
  decimalValue acc (wallet.repeat0 k) = Some (acc * 10 ^ N.of_nat k)%N.
Proof.
  revert acc. induction k as [|k IH]; intros acc; cbn [wallet.repeat0 decimalValue].
  - f_equal. cbn. lia.
  - digit_eval. rewrite IH, Nat2N.inj_succ, N.pow_succ_r'. f_equal. lia.
Qed.

(** *** [strings.TrimRight(s, "0")] *)

Lemma trimRight0_cons (c : ascii) (r : string) :
  wallet.trimRight0 (String c r) =
  match wallet.trimRight0 r with
  | EmptyString => if Ascii.eqb c "0" then EmptyString else String c EmptyString
  | r' => String c r'
  end.
Proof. reflexivity. Qed.

Lemma trimRight0_spec (t : string) :
  exists k, t = wallet.trimRight0 t +:+ wallet.repeat0 k.
Proof.
  induction t as [|c r [k IH]]; [by exists 0%nat|].
  rewrite trimRight0_cons. destruct (wallet.trimRight0 r) as [|c' r'] eqn:E.
  - destruct (Ascii.eqb_spec c "0") as [->|_].
    + exists (S k). cbn. by rewrite IH at 1.
    + exists k. cbn. by rewrite IH at 1.
  - exists k. cbn. by rewrite IH at 1.
Qed.

Lemma trimRight0_idem (t : string) :
  wallet.trimRight0 (wallet.trimRight0 t) = wallet.trimRight0 t.
Proof.
  induction t as [|c r IH]; [reflexivity|].
  rewrite trimRight0_cons. destruct (wallet.trimRight0 r) as [|c' r'] eqn:E.
  - destruct (Ascii.eqb_spec c "0") as [->|Hne]; [reflexivity|].
    rewrite trimRight0_cons. cbn [wallet.trimRight0].
    destruct (Ascii.eqb_spec c "0"); [contradiction | reflexivity].
  - rewrite trimRight0_cons, IH. reflexivity.
Qed.

Lemma trimRight0_last (t : string) :
  forall acc w, decimalValue acc (wallet.trimRight0 t) = Some w ->
    wallet.trimRight0 t <> EmptyString -> (w mod 10 <> 0)%N.
Proof.
  induction t as [|c r IH]; intros acc w; [intros _ Hne; by destruct Hne|].
  rewrite trimRight0_cons. destruct (wallet.trimRight0 r) as [|c' r'] eqn:E.
  - destruct (Ascii.eqb_spec c "0") as [->|Hc]; [intros _ Hne; by destruct Hne|].
    cbn [decimalValue]. destruct (digitValue c) as [d|] eqn:Hd; [|discriminate].
    intros [= <-] _. pose proof (digitValue_lt _ _ Hd) as Hlt.
    assert (d <> 0%N) by (intros ->; by apply Hc, digitValue_0).
    rewrite N.add_comm, N.mul_comm, N.Div0.mod_add, N.mod_small by exact Hlt. assumption.
  - cbn [decimalValue]. destruct (digitValue c) as [d|]; [|discriminate].
    intros Hw _. apply (IH _ _ Hw). discriminate.
Qed.

(** *** Substrings *)

Lemma substring_full (s : string) : String.substring 0 (String.length s) s = s.
Proof. induction s as [|c r IH]; cbn; [reflexivity | by rewrite IH]. Qed.

Lemma substring_split (s : string) :
  forall k, (k <= String.length s)%nat ->
    s = String.substring 0 k s +:+ String.substring k (String.length s - k) s.
Proof.
  induction s as [|c r IH]; intros k Hk.
  - cbn in Hk. assert (k = 0%nat) as -> by lia. reflexivity.
  - destruct k as [|k].
    + cbn [String.substring String.length Nat.sub]. cbn. by rewrite substring_full.
    + cbn [String.substring String.length Nat.sub]. cbn [String.length] in Hk.
      rewrite append_cons. f_equal. apply IH. lia.
Qed.

Lemma length_substring_0 (s : string) :
  forall k, (k <= String.length s)%nat -> String.length (String.substring 0 k s) = k.
Proof.
  induction s as [|c r IH]; intros k Hk.
  - cbn in Hk. assert (k = 0%nat) as -> by lia. reflexivity.
  - destruct k as [|k]; [reflexivity|]. cbn in *. f_equal. apply IH. lia.
Qed.

Lemma length_append (s t : string) :
  String.length (s +:+ t) = (String.length s + String.length t)%nat.
Proof.
  induction s as [|c r IH]; [reflexivity|].
  rewrite append_cons. cbn [String.length]. by rewrite IH.
Qed.

Lemma length_repeat0 (k : nat) : String.length (wallet.repeat0 k) = k.
Proof. induction k as [|k IH]; cbn; [reflexivity | by rewrite IH]. Qed.

(** *** [strings.Split(s, ".")] and [SetString] on digits *)

Lemma splitDot_digits (s : string) :
  forall acc v, decimalValue acc s = Some v -> wallet.splitDot s = [s].
Proof.
  induction s as [|c r IH]; intros acc v; [reflexivity|].
  cbn [decimalValue wallet.splitDot].
  destruct (digitValue c) as [d|] eqn:Hd; [|discriminate].
  intros Hv. rewrite (IH _ _ Hv).
  destruct (Ascii.eqb_spec c ".") as [->|_]; [discriminate | reflexivity].
Qed.

Lemma splitDot_point (s t : string) :
  forall acc v acc' v', decimalValue acc s = Some v -> decimalValue acc' t = Some v' ->
    wallet.splitDot (s +:+ "." +:+ t) = [s; t].
Proof.
  induction s as [|c r IH]; intros acc v acc' v' Hs Ht.
  - change ("" +:+ "." +:+ t) with (String "."%char t). cbn.
    by rewrite (splitDot_digits _ _ _ Ht).
  - cbn [decimalValue] in Hs. destruct (digitValue c) as [d|] eqn:Hd; [|discriminate].
    change (String c r +:+ "." +:+ t) with (String c (r +:+ "." +:+ t)).
    cbn [wallet.splitDot]. rewrite (IH _ _ _ _ Hs Ht).
    destruct (Ascii.eqb_spec c ".") as [->|_]; [discriminate | reflexivity].
Qed.

Lemma big_SetString_digits (s : string) (v : N) :
  s <> EmptyString -> decimalValue 0 s = Some v ->
  wallet.big_SetString s = Some (Z.of_N v).
Proof.
  intros Hne Hv. destruct (decimalValue_uint_of_string _ _ _ Hv) as [u Hu].
  pose proof (decimalValue_of_uint _ _ Hu) as Hv'.
  assert (Pos.of_uint u = v) as <- by congruence.
  destruct s as [|c r]; [by destruct Hne|].
  assert (Hs : wallet.big_SetString (String c r) =
               option_map Z.of_uint (NilZero.uint_of_string (String c r))).
  { cbn [decimalValue] in Hv. destruct (digitValue c) as [d|] eqn:Hd; [|discriminate].
    destruct c as [[|] [|] [|] [|] [|] [|] [|] [|]]; cbn in Hd; try discriminate;
      reflexivity. }
  rewrite Hs. unfold NilZero.uint_of_string. rewrite Hu. reflexivity.
Qed.

(** *** [big.Int.String] *)

Lemma decimalValue_big_String (n : Z) :
  0 < n -> decimalValue 0 (wallet.big_String n) = Some (Z.to_N n).
Proof.
  intros Hn. destruct n as [|p|p]; try lia.
  unfold wallet.big_String. cbn [Z.to_int NilZero.string_of_int Z.to_N].
  unfold NilZero.string_of_uint.
  pose proof (DecimalPos.Unsigned.to_uint_nonnil p) as Hnil.
  assert (Hs : match Pos.to_uint p with
               | Decimal.Nil => "0"%string
               | _ => NilEmpty.string_of_uint (Pos.to_uint p)
               end = NilEmpty.string_of_uint (Pos.to_uint p))
    by (destruct (Pos.to_uint p); [by destruct Hnil | reflexivity..]).
  rewrite Hs, (decimalValue_of_uint _ _ (NilEmpty.usu _)).
  by rewrite DecimalPos.Unsigned.of_to.
Qed.

Lemma BigInt_canonical (b : Balance) : 0 <= b < 2 ^ 128 -> wallet.BigInt b = b.
Proof.
  intros Hb. unfold wallet.BigInt, wallet.Bytes, wallet.uint128_GetBytes, wallet.big_SetBytes.
  rewrite fold_be_bytes. unfold wallet.uint128_modulus.
  rewrite Z.mod_small by exact Hb.
  change (N.of_nat 16) with 16%N.
  rewrite N.mod_small by (change (256 ^ 16)%N with (2 ^ 128)%N;
                          change (2 ^ 128) with (Z.of_N (2 ^ 128)) in Hb; lia).
  lia.
Qed.

Lemma String_Mxrb (b : Balance) :
  0 <= b < 2 ^ 128 ->
  wallet.String b = wallet.decimal_String (wallet.mkDecimal (b * 1000) (-33)).
Proof.
  intros Hb. unfold wallet.String, wallet.UnitString. rewrite BigInt_canonical by exact Hb.
  change (wallet.units "Mxrb") with (wallet.mkDecimal 1 30).
  unfold wallet.decimal_NewFromBigInt, wallet.decimal_DivRound, wallet.decimal_QuoRem,
    wallet.BalanceMaxPrecision.
  cbn [wallet.d_exp wallet.d_value].
  change (0 - 30 - - (33)) with 3. change (3 <? 0) with false. cbv iota beta zeta.
  rewrite Z.quot_1_r, Z.rem_1_r. cbn [wallet.d_exp wallet.d_value].
  change (wallet.decimal_Cmp _ _) with Lt.
  change (10 ^ 3) with 1000. change (- (33)) with (-33).
  unfold wallet.decimal_Truncate. cbn [wallet.d_exp].
  change ((33 >=? 0) && (- (33) >? -33)) with false. reflexivity.
Qed.

(** [d.String()] of a positive coefficient with exponent -33 and more
    than 33 digits: the point goes in before the last 33 digits, and the
    zeros at the end of the fraction are dropped, the point with them
    when nothing is left. *)
Lemma decimal_String_point (n : Z) :
  0 < n -> (33 < String.length (wallet.big_String n))%nat ->
  wallet.decimal_String (wallet.mkDecimal n (-33)) =
  let str := wallet.big_String n in
  let intPart := String.substring 0 (String.length str - 33) str in
  let frac := wallet.trimRight0 (String.substring (String.length str - 33) 33 str) in
  match frac with
  | EmptyString => intPart
  | _ => intPart +:+ "." +:+ frac
  end.
Proof.
  intros Hn Hlen. unfold wallet.decimal_String. cbn [wallet.d_exp wallet.d_value].
  change (-33 >=? 0) with false. cbv iota. rewrite Z.abs_eq by lia.
  change (Z.to_nat (- -33)) with 33%nat.
  rewrite (proj2 (Nat.ltb_lt _ _) Hlen).
  rewrite (proj2 (Z.ltb_ge _ _)) by lia. reflexivity.
Qed.


Lemma ParseBalance_digits (s : string) (v : N) (e : Z) :
  wallet.decimal_NewFromString s = Ok (wallet.mkDecimal (Z.of_N v) e) ->
  - 30 <= e <= 0 ->
  2 ^ 120 <= Z.of_N v * 10 ^ (e + 30) < 2 ^ 128 ->
  wallet.ParseBalance s "Mxrb" = Ok (Z.of_N v * 10 ^ (e + 30)).
Proof.
  intros Hd He Hr. unfold wallet.ParseBalance. rewrite Hd. cbv zeta.
  change (wallet.units "Mxrb") with (wallet.mkDecimal 1 30).
  unfold wallet.decimal_Mul, wallet.bigPow. cbn [wallet.d_value wallet.d_exp].
  rewrite Z.mul_1_r.
  assert (Hp : (if e + 30 <=? 0 then 1 else 10 ^ (e + 30)) = 10 ^ (e + 30)).
  { destruct (Z.leb_spec (e + 30) 0) as [Hle|_]; [|reflexivity].
    assert (e + 30 = 0) as -> by lia. reflexivity. }
  rewrite Hp. apply UnmarshalBinary_big_Bytes.
  rewrite Z.abs_eq by lia. split; [reflexivity | exact Hr].
Qed.

Lemma multiple_of_ten (v : N) (x : Z) : Z.of_N v = x * 10 -> (v mod 10 = 0)%N.
Proof.
  intros Hv. apply N2Z.inj. rewrite N2Z.inj_mod, Hv. apply Z_mod_mult.
Qed.

(** X24: [String] and [ParseBalance] round-trip on the upper range.  For
    a balance of at least 2^120 (below 2^128), [String] prints the value
    in Mxrb with the point before the last 33 digits of the value times
    1000 and the trailing zeros dropped; [ParseBalance] with unit "Mxrb"
    reads the digits back, scales by what is left of 10^30, gets 16 bytes
    and returns the balance.  So a 128-bit balance survives
    [MarshalText] and [UnmarshalText] exactly when it is at least
    2^120. *)
Theorem String_ParseBalance_round_trip (b : Balance) :
  0 <= b < 2 ^ 128 ->
  (2 ^ 120 <= b <-> wallet.ParseBalance (wallet.String b) "Mxrb" = Ok b) /\
  (2 ^ 120 <= b <-> wallet.UnmarshalText (wallet.MarshalText b) = Ok b).
Proof.
  intros Hcan.
  cut (2 ^ 120 <= b <-> wallet.ParseBalance (wallet.String b) "Mxrb" = Ok b);
    [intros Hrt; split; exact Hrt|].
  split; [|intros Hok; apply ParseBalance_Ok_range in Hok; lia].
  intros Hlow. assert (Hb : 2 ^ 120 <= b < 2 ^ 128) by lia. clear Hcan Hlow.
  rewrite String_Mxrb by lia.
  assert (Hn : 0 < b * 1000) by lia.
  pose proof (decimalValue_big_String _ Hn) as Hval.
  destruct (decimalValue_shift _ _ _ Hval) as (w & Hw & Heq & Hlt).
  assert (Hlen : (33 < String.length (wallet.big_String (b * 1000)))%nat).
  { destruct (Nat.lt_ge_cases 33 (String.length (wallet.big_String (b * 1000))))
      as [Hl|Hl]; [exact Hl|exfalso].
    assert (Hpow : (10 ^ N.of_nat (String.length (wallet.big_String (b * 1000)))
                    <= 10 ^ 33)%N) by (apply N.pow_le_mono_r; lia).
    assert (Hbig : (10 ^ 33 < Z.to_N (b * 1000))%N).
    { change (10 ^ 33)%N with (Z.to_N (10 ^ 33)). apply Z2N.inj_lt; [lia | lia|].
      eapply Z.lt_le_trans with (2 ^ 120 * 1000); [reflexivity | lia]. }
    lia. }
  rewrite decimal_String_point by assumption. cbv zeta.
  set (str := wallet.big_String (b * 1000)) in *.
  pose proof (substring_split str (String.length str - 33)) as Hsplit.
  replace (String.length str - (String.length str - 33))%nat with 33%nat in Hsplit by lia.
  pose proof (length_substring_0 str (String.length str - 33)) as Hlip.
  set (ip := String.substring 0 (String.length str - 33) str) in *.
  set (fr := String.substring (String.length str - 33) 33 str) in *.
  specialize (Hsplit ltac:(lia)). specialize (Hlip ltac:(lia)).
  assert (Hlfr : String.length fr = 33%nat).
  { pose proof (f_equal String.length Hsplit) as Hl. rewrite length_append in Hl. lia. }
  destruct (trimRight0_spec fr) as [k Hk].
  pose proof (trimRight0_idem fr) as Hidem.
  pose proof (trimRight0_last fr) as Hlast.
  set (fr' := wallet.trimRight0 fr) in *.
  assert (Hlk : (String.length fr' + k = 33)%nat).
  { pose proof (f_equal String.length Hk) as Hl.
    rewrite length_append, length_repeat0 in Hl. lia. }
  rewrite Hsplit, Hk, decimalValue_app in Hval.
  destruct (decimalValue 0 ip) as [vi|] eqn:Hvi; [|discriminate].
  rewrite decimalValue_app in Hval.
  destruct (decimalValue vi fr') as [v|] eqn:Hv; [|discriminate].
  rewrite decimalValue_repeat0 in Hval. injection Hval as Hprod.
  assert (Hip : ip <> EmptyString).
  { intros E. rewrite E in Hlip. cbn in Hlip. lia. }
  assert (Hb1000 : Z.of_N v * 10 ^ Z.of_nat k = b * 1000).
  { apply (f_equal Z.of_N) in Hprod. rewrite Z2N.id in Hprod by lia.
    rewrite <- Hprod, N2Z.inj_mul, N2Z.inj_pow, nat_N_Z. reflexivity. }
  destruct fr' as [|c r'] eqn:Efr.
  - (* the fraction is all zeros: an integer is printed *)
    cbn in Hlk. subst k. cbn in Hv. injection Hv as <-.
    replace b with (Z.of_N vi * 10 ^ (0 + 30)).
    2:{ change (Z.of_nat 33) with 33 in Hb1000. change (10 ^ 33) with (10 ^ 30 * 1000) in Hb1000.
        change (0 + 30) with 30. lia. }
    apply ParseBalance_digits.
    + unfold wallet.decimal_NewFromString. rewrite (splitDot_digits _ _ _ Hvi).
      by rewrite (big_SetString_digits _ _ Hip Hvi).
    + lia.
    + change (Z.of_nat 33) with 33 in Hb1000. change (10 ^ 33) with (10 ^ 30 * 1000) in Hb1000.
      change (0 + 30) with 30. lia.
  - (* digits are left after the point *)
    rewrite <- Efr in *. assert (Hne : fr' <> EmptyString) by (rewrite Efr; discriminate).
    specialize (Hlast _ _ Hv Hne).
    assert (Hk3 : (3 <= k)%nat).
    { destruct k as [|[|[|k]]]; [exfalso..|lia].
      - change (10 ^ Z.of_nat 0) with 1 in Hb1000.
        apply Hlast, (multiple_of_ten v (b * 100)). lia.
      - change (10 ^ Z.of_nat 1) with 10 in Hb1000.
        apply Hlast, (multiple_of_ten v (b * 10)). lia.
      - change (10 ^ Z.of_nat 2) with 100 in Hb1000.
        apply Hlast, (multiple_of_ten v b). lia. }
    assert (Hbv : b = Z.of_N v * 10 ^ (- Z.of_nat (String.length fr') + 30)).
    { replace (- Z.of_nat (String.length fr') + 30) with (Z.of_nat k - 3) by lia.
      replace (Z.of_nat k) with ((Z.of_nat k - 3) + 3) in Hb1000 by lia.
      rewrite Z.pow_add_r in Hb1000 by lia. change (10 ^ 3) with 1000 in Hb1000. lia. }
    rewrite Hbv at 1.
    apply ParseBalance_digits.
    + unfold wallet.decimal_NewFromString.
      replace (match fr' with "" => ip | _ => ip +:+ "." +:+ fr' end)
        with (ip +:+ "." +:+ fr') by (rewrite Efr; reflexivity).
      rewrite (splitDot_point _ _ _ _ _ _ Hvi Hv). rewrite Hidem.
      rewrite (big_SetString_digits (ip +:+ fr') v).
      * reflexivity.
      * destruct ip; [by destruct Hip | discriminate].
      * by rewrite decimalValue_app, Hvi.
    + lia.
    + rewrite <- Hbv. exact Hb.
Qed.

Lemma String_ParseBalance_round_trip_witness :
  wallet.UnmarshalText (wallet.MarshalText (2 ^ 127)) = Ok (2 ^ 127).
Proof.
  apply (String_ParseBalance_round_trip (2 ^ 127)); lia.
Defined.

(** * Genesis again, forks and the order of the checks (store/ledger.go) *)

Section Forks.
Context `{BlockOps}.

(** [NewLedger] on a store that holds blocks: the genesis block of the
    options must be among them. *)
Lemma NewLedger_full (s : Store) (opts : LedgerOptions) :
  let G := GenesisBlock opts in
  let h := block_Hash (BOpen G) in
  address_Verify (open_Address G) h (open_Signature G) = true ->
  blocks s <> ∅ ->
  NewLedger s opts =
  (s, match blocks s !! h with Some _ => Ok tt | None => Err ErrBadGenesis end).
Proof.
  intros G h Hsig Hb. unfold NewLedger, setGenesis. fold G. cbv zeta. fold h.
  rewrite Hsig. cbn [negb]. unfold Update, bind, Empty.
  rewrite (bool_decide_eq_false_2 _ Hb). cbn [negb]. unfold HasBlock.
  destruct (blocks s !! h); reflexivity.
Qed.

(** [NewLedger] on a store without blocks: the genesis block, the record
    of its account and its frontier go in together or not at all. *)
Lemma NewLedger_empty (s : Store) (opts : LedgerOptions) :
  let G := GenesisBlock opts in
  let h := block_Hash (BOpen G) in
  address_Verify (open_Address G) h (open_Signature G) = true ->
  blocks s = ∅ ->
  NewLedger s opts =
  match addresses s !! open_Address G with
  | Some _ => (s, Err (ErrNew "address already exists"))
  | None =>
      match frontiers s !! h with
      | Some _ => (s, Err (ErrNew "frontier already exists"))
      | None =>
          (mkStore (<[h := BOpen G]> (blocks s))
                   (<[open_Address G := mkAddressInfo h h h (GenesisBalance opts)]>
                      (addresses s))
                   (<[h := open_Address G]> (frontiers s)) (pendings s) (representation s),
           Ok tt)
      end
  end.
Proof.
  intros G h Hsig Hb. unfold NewLedger, setGenesis. fold G. cbv zeta. fold h.
  rewrite Hsig. cbn [negb]. unfold Update, bind, Empty.
  rewrite (bool_decide_eq_true_2 _ Hb). cbn [negb].
  unfold txn_AddBlock. fold h. rewrite Hb, lookup_empty.
  unfold AddAddress; tx_simpl.
  destruct (addresses s !! open_Address G); [reflexivity|].
  unfold AddFrontier; tx_simpl.
  destruct (frontiers s !! h); reflexivity.
Qed.

(** X25: [NewLedger] is idempotent and leaves no trace when it fails.
    Whatever store it is given, it does not panic, an error leaves the
    store as it was, and calling it again with the same options on the
    store it left gives the same result and the same store. *)
Theorem NewLedger_idempotent (s : Store) (opts : LedgerOptions) :
  (forall e, snd (NewLedger s opts) = Err e -> fst (NewLedger s opts) = s) /\
  (forall msg, snd (NewLedger s opts) <> Panic msg) /\
  NewLedger (fst (NewLedger s opts)) opts = NewLedger s opts.
Proof.
  destruct (address_Verify (open_Address (GenesisBlock opts))
              (block_Hash (BOpen (GenesisBlock opts)))
              (open_Signature (GenesisBlock opts))) eqn:Hsig.
  2:{ unfold NewLedger, setGenesis. cbv zeta. rewrite Hsig. cbn.
      rewrite ?Hsig. cbn. split; [reflexivity | split; [discriminate | reflexivity]]. }
  destruct (decide (blocks s = ∅)) as [Hb|Hb].
  - rewrite (NewLedger_empty s opts Hsig Hb).
    destruct (addresses s !! open_Address (GenesisBlock opts)) eqn:Ha.
    { cbn [fst snd]. rewrite (NewLedger_empty s opts Hsig Hb), Ha.
      split; [reflexivity | split; [discriminate | reflexivity]]. }
    destruct (frontiers s !! block_Hash (BOpen (GenesisBlock opts))) eqn:Hf.
    { cbn [fst snd]. rewrite (NewLedger_empty s opts Hsig Hb), Ha, Hf.
      split; [reflexivity | split; [discriminate | reflexivity]]. }
    cbn [fst snd]. split; [discriminate|]. split; [discriminate|].
    rewrite NewLedger_full; [|exact Hsig | cbn; apply insert_non_empty].
    cbn [blocks]. rewrite lookup_insert_eq. reflexivity.
  - rewrite (NewLedger_full s opts Hsig Hb). cbn [fst snd].
    rewrite (NewLedger_full s opts Hsig Hb).
    split; [reflexivity | split; [|reflexivity]].
    destruct (blocks s !! _); discriminate.
Qed.

(** The head of an account after a call of [addBlock] that returns an
    error: it is as before, or it is the hash of the block, which is not
    stored. *)
Lemma addBlock_Err_heads (blk : Block) (s s' : Store) (e : Error) (a : Address)
    (info : AddressInfo) :
  addBlock blk s = (s', Err e) ->
  addresses s !! a = Some info ->
  exists info', addresses s' !! a = Some info' /\
    (info_HeadBlock info' = info_HeadBlock info \/
     (info_HeadBlock info' = block_Hash blk /\ blocks s !! block_Hash blk = None)).
Proof.
  intros Hstep Ha. revert Hstep.
  unfold addBlock, bind, HasBlock, fail, panic. cbv zeta.
  destruct (block_Valid blk); tx_simpl; [|intros [= <- <-]; eauto].
  destruct (blocks s !! block_Hash blk) eqn:Hh; tx_simpl; [intros [= <- <-]; eauto|].
  destruct (blocks s !! block_Root blk) eqn:Hr; tx_simpl; [|intros [= <- <-]; eauto].
  destruct blk as [b'|b'|b'|b'|p]; [| | | |discriminate];
    tx_unfold; cbv zeta; tx_simpl; cbn [block_Root] in *;
    repeat tx_case; intros Heq; try discriminate;
    injection Heq as <- <-; cbn [addresses]; eauto;
    match goal with
    | |- context [<[?n := _]> (addresses s) !! a] =>
        destruct (decide (a = n)) as [->|Hne];
        [rewrite lookup_insert_eq; eexists; split; [reflexivity|]; cbn; eauto
        |rewrite lookup_insert_ne by congruence; eauto]
    end.
Qed.

Lemma forkPoint_step (root : Hash) (n : Address) (blk : Block) (s : Store) :
  forkPoint root n s -> forkPoint root n (fst (addBlock blk s)).
Proof.
  intros (Hroot & Hf & info & Ha & Hhead).
  destruct (addBlock blk s) as [s' [[]|e|msg]] eqn:Heq; cbn [fst].
  - destruct (addBlock_Ok_tables _ _ _ Heq) as (Hh & Hb & _).
    destruct (addBlock_Ok_addresses _ _ _ Heq)
      as (n' & info' & h & Ha' & Hf' & -> & Hhead' & _ & _).
    assert (Hne : block_Hash blk <> root).
    { intros E. rewrite E in Hh. rewrite Hh in Hroot. by destruct Hroot. }
    split; [|split].
    + rewrite Hb, lookup_insert_ne by exact Hne. exact Hroot.
    + rewrite Hf', lookup_insert_ne, lookup_delete_ne by exact Hne. exact Hf.
    + rewrite Ha'. destruct (decide (n = n')) as [<-|Hn].
      * exists info'. rewrite lookup_insert_eq. split; [reflexivity | congruence].
      * exists info. rewrite lookup_insert_ne by congruence. eauto.
  - destruct (addBlock_Err_tables _ _ _ _ Heq) as [Hb Hf'].
    destruct (addBlock_Err_heads _ _ _ _ _ _ Heq Ha) as (info' & Ha' & Hcase).
    split; [by rewrite Hb|]. split; [by rewrite Hf'|].
    exists info'. split; [exact Ha'|].
    destruct Hcase as [-> | [-> Hh]]; [exact Hhead|].
    intros E. rewrite E in Hh. rewrite Hh in Hroot. by destruct Hroot.
  - rewrite (addBlock_Panic_tables _ _ _ _ Heq). split; [exact Hroot|]. eauto.
Qed.

(** A block of an existing chain whose previous block is a fork point is
    turned down by its handler before anything is written. *)
Lemma handler_at_forkPoint (root : Hash) (n : Address) (b2 : Block) (s : Store) :
  forkPoint root n s -> knownVariant b2 -> (forall o, b2 <> BOpen o) ->
  block_Root b2 = root ->
  match b2 with
  | BSend d =>
      addSendBlock d s =
      (s, Err (ErrNew (if address_Verify n (block_Hash b2) (send_Signature d)
                       then "unexpected head block for account"
                       else "bad block signature")))
  | BReceive r =>
      addReceiveBlock r s =
      (s, Err (ErrNew (if address_Verify n (block_Hash b2) (receive_Signature r)
                       then "unexpected head block for account"
                       else "bad block signature")))
  | BChange c =>
      addChangeBlock c s =
      (s, Err (ErrNew (if address_Verify n (block_Hash b2) (change_Signature c)
                       then "unexpected head block for account"
                       else "bad block signature")))
  | _ => True
  end.
Proof.
  intros (Hroot & Hf & info & Ha & Hhead) Hk Hno Hr.
  assert (Heqb : Hash_Equal (info_HeadBlock info) root = false)
    by (unfold Hash_Equal; by apply N.eqb_neq).
  destruct b2 as [o|d|r|c|p]; [exact I| | | |exact I]; cbn [block_Root] in Hr; subst root.
  - unfold addSendBlock. cbv zeta. cbn [block_Root].
    unfold bind at 1. unfold GetFrontier. rewrite Hf. tx_simpl.
    destruct (address_Verify n _ _); tx_simpl; [|reflexivity].
    unfold bind at 1. unfold GetAddress at 1. rewrite Ha, Heqb. reflexivity.
  - unfold addReceiveBlock. cbv zeta. cbn [block_Root].
    unfold bind at 1. unfold GetFrontier. rewrite Hf. tx_simpl.
    destruct (address_Verify n _ _); tx_simpl; [|reflexivity].
    unfold bind at 1. unfold GetAddress at 1. rewrite Ha, Heqb. reflexivity.
  - unfold addChangeBlock. cbv zeta. cbn [block_Root].
    unfold bind at 1. unfold GetFrontier. rewrite Hf. tx_simpl.
    destruct (address_Verify n _ _); tx_simpl; [|reflexivity].
    unfold bind at 1. unfold GetAddress at 1. rewrite Ha, Heqb. reflexivity.
Qed.

(** X26: a fork is turned down.  Once a send, receive or change block has
    been applied on top of a block, no second block on top of that same
    block is ever applied: in the store the first block left, and in
    every store reached from it by further calls of [addBlock] whatever
    they returned, [addBlock] returns an error for every send, receive or
    change block with that previous block, and writes nothing.  The
    frontier of the previous block is still there, so the block is not
    stopped by [GetFrontier]: with valid work, a fresh hash and the
    account's signature it is the comparison of the account's head with
    the frontier that fails, "unexpected head block for account". *)
Theorem fork_is_rejected (blk : Block) (s s1 : Store) :
  (forall o, blk <> BOpen o) ->
  addBlock blk s = (s1, Ok tt) ->
  exists account,
    frontiers s !! block_Root blk = Some account /\
    forall s2, later s1 s2 ->
      frontiers s2 !! block_Root blk = Some account /\
      (forall b2, knownVariant b2 -> (forall o, b2 <> BOpen o) ->
         block_Root b2 = block_Root blk ->
         exists e, addBlock b2 s2 = (s2, Err e)) /\
      (forall d, send_PreviousHash d = block_Root blk ->
         block_Valid (BSend d) = true ->
         blocks s2 !! block_Hash (BSend d) = None ->
         address_Verify account (block_Hash (BSend d)) (send_Signature d) = true ->
         addBlock (BSend d) s2 = (s2, Err (ErrNew "unexpected head block for account"))).
Proof.
  intros Hno Hok.
  destruct (addBlock_Ok_inv _ _ _ Hok) as (Hv & Hh & Hroot).
  destruct (addBlock_Ok_tables _ _ _ Hok) as (_ & Hb & _).
  destruct (addBlock_Ok_addresses _ _ _ Hok)
    as (n & info' & h & Ha & Hf & -> & Hhead & _ & _).
  assert (Hne : block_Hash blk <> block_Root blk).
  { intros E. rewrite E in Hh. rewrite Hh in Hroot. by destruct Hroot. }
  assert (Hfs : frontiers s !! block_Root blk = Some n).
  { pose proof Hok as Hok'. rewrite (addBlock_dispatch _ _ Hv Hh Hroot) in Hok'.
    destruct blk as [b|b|b|b|p].
    - by destruct (Hno b).
    - destruct (addSendBlock_Ok_inv _ _ _ Hok')
        as (n0 & info0 & rblk & rep & Hf0 & Hsig & Ha0 & Hhd & Hlt & Hp & Hb0 & Hr0 & _).
      rewrite (addSendBlock_Ok b s n0 info0 rblk rep Hf0 Hsig Ha0 Hhd Hlt Hp Hb0 Hr0 Hh)
        in Hok'. injection Hok' as <-. cbn in Hf.
      apply (f_equal (fun m => m !! block_Hash (BSend b))) in Hf.
      rewrite !lookup_insert_eq in Hf. injection Hf as <-. exact Hf0.
    - destruct (addReceiveBlock_Ok_inv _ _ _ Hok')
        as (n0 & info0 & pend & rblk & rep & Hf0 & Hsig & Ha0 & Hhd & Hp & Hb0 & Hr0 & _).
      rewrite (addReceiveBlock_Ok b s n0 info0 pend rblk rep Hf0 Hsig Ha0 Hhd Hp Hb0 Hr0 Hh)
        in Hok'. injection Hok' as <-. cbn in Hf.
      apply (f_equal (fun m => m !! block_Hash (BReceive b))) in Hf.
      rewrite !lookup_insert_eq in Hf. injection Hf as <-. exact Hf0.
    - exfalso. destruct (addChangeBlock_Err b s) as [e He].
      rewrite Hok' in He. discriminate.
    - discriminate. }
  exists n. split; [exact Hfs|].
  assert (Hfp1 : forkPoint (block_Root blk) n s1).
  { split; [|split].
    - rewrite Hb, lookup_insert_ne by exact Hne. exact Hroot.
    - rewrite Hf, lookup_insert_ne, lookup_delete_ne by exact Hne. exact Hfs.
    - exists info'. rewrite Ha, lookup_insert_eq. split; [reflexivity | congruence]. }
  intros s2 Hlater.
  assert (Hfp : forkPoint (block_Root blk) n s2).
  { clear -Hfp1 Hlater. induction Hlater as [s0|s0 s2 s3 blk' r Hl IH Hstep]; [exact Hfp1|].
    specialize (IH Hfp1). pose proof (forkPoint_step _ _ blk' _ IH) as Hs.
    by rewrite Hstep in Hs. }
  split; [apply Hfp|]. split.
  - intros b2 Hk Hno2 Hr2.
    pose proof (handler_at_forkPoint _ _ b2 s2 Hfp Hk Hno2 Hr2) as Hh2.
    unfold addBlock, bind, HasBlock, fail. cbv zeta.
    destruct (block_Valid b2); cbn [negb]; [|eauto].
    destruct (blocks s2 !! block_Hash b2); [eauto|].
    rewrite Hr2. destruct Hfp as ([rb Hrb] & _). rewrite Hrb. cbn [negb].
    destruct b2 as [o|d|r|c|p]; [by destruct (Hno2 o) | eauto.. | by destruct (Hk p)].
  - intros d Hprev Hvd Hhd Hsig.
    assert (Hk : knownVariant (BSend d)) by (intros p; discriminate).
    assert (Hno2 : forall o, BSend d <> BOpen o) by (intros o; discriminate).
    pose proof (handler_at_forkPoint _ _ (BSend d) s2 Hfp Hk Hno2 Hprev) as Hh2.
    cbn beta iota in Hh2. rewrite Hsig in Hh2.
    rewrite addBlock_dispatch; [exact Hh2 | exact Hvd | exact Hhd|].
    cbn [block_Root]. rewrite Hprev. apply Hfp.
Qed.

(** X27: the checks of [addSendBlock], in their order.  Without a
    frontier under the previous hash the handler returns badger's
    key-not-found; with a frontier, a signature that the frontier's
    account did not make gives "bad block signature"; with the
    signature, a missing account record gives key-not-found and a record
    whose head is not the previous hash gives "unexpected head block for
    account"; and past these and the comparison of the balances, a
    pending entry already there for the destination and the block's hash
    gives "pending transaction already exists".  None of them has
    written anything. *)
Theorem addSendBlock_checks (b : SendBlock) (s : Store) :
  let h := block_Hash (BSend b) in
  (frontiers s !! send_PreviousHash b = None ->
   addSendBlock b s = (s, Err ErrKeyNotFound)) /\
  (forall n, frontiers s !! send_PreviousHash b = Some n ->
     (address_Verify n h (send_Signature b) = false ->
      addSendBlock b s = (s, Err (ErrNew "bad block signature"))) /\
     (address_Verify n h (send_Signature b) = true ->
      (addresses s !! n = None -> addSendBlock b s = (s, Err ErrKeyNotFound)) /\
      (forall info, addresses s !! n = Some info ->
         (info_HeadBlock info <> send_PreviousHash b ->
          addSendBlock b s = (s, Err (ErrNew "unexpected head block for account"))) /\
         (info_HeadBlock info = send_PreviousHash b ->
          send_Balance b < info_Balance info ->
          is_Some (pendings s !! (send_Destination b, h)) ->
          addSendBlock b s = (s, Err (ErrNew "pending transaction already exists")))))).
Proof.
  intros h. split.
  - intros Hf. unfold addSendBlock, bind, GetFrontier. cbn [block_Root]. by rewrite Hf.
  - intros n Hf.
    assert (Hstart : addSendBlock b s =
      (if negb (address_Verify n h (send_Signature b)) then fail (ErrNew "bad block signature")
       else
         do info <- GetAddress n;
         if negb (Hash_Equal (info_HeadBlock info) (send_PreviousHash b)) then
           fail (ErrNew "unexpected head block for account")
         else
           match wallet.Compare (send_Balance b) (info_Balance info) with
           | wallet.BalanceCompSmaller =>
               do _ <- AddPending (send_Destination b) h
                         (mkPending n (wallet.Sub (info_Balance info) (send_Balance b)));
               do _ <- UpdateAddress n
                         (mkAddressInfo h (info_RepBlock info) (info_OpenBlock info)
                            (send_Balance b));
               do rep <- getRepresentative n;
               do _ <- SubRepresentation rep (send_Balance b);
               do _ <- DeleteFrontier h;
               do _ <- AddFrontier (mkFrontier n h);
               txn_AddBlock (BSend b)
           | _ => fail (ErrNegativeSpend (send_Balance b) (info_Balance info))
           end) s).
    { unfold addSendBlock. cbv zeta. fold h. cbn [block_Root].
      unfold bind at 1. unfold GetFrontier. rewrite Hf. reflexivity. }
    split.
    + intros Hsig. rewrite Hstart, Hsig. reflexivity.
    + intros Hsig. rewrite Hsig in Hstart. cbn [negb] in Hstart.
      unfold bind at 1 in Hstart. unfold GetAddress at 1 in Hstart. split.
      * intros Ha. rewrite Hstart, Ha. reflexivity.
      * intros info Ha. rewrite Ha in Hstart. split.
        -- intros Hhead. rewrite Hstart.
           assert (Heqb : Hash_Equal (info_HeadBlock info) (send_PreviousHash b) = false)
             by (unfold Hash_Equal; by apply N.eqb_neq).
           rewrite Heqb. reflexivity.
        -- intros Hhead Hlt [q Hq]. rewrite Hstart.
           rewrite (proj2 (Hash_Equal_true _ _) Hhead). cbn [negb].
           rewrite (proj2 (Compare_Smaller _ _) Hlt).
           unfold bind at 1. unfold AddPending. rewrite Hq. reflexivity.
Qed.

End Forks.

Section ScenariosForks.
#[local] Existing Instance fixture.ops.

Lemma NewLedger_idempotent_witness :
  NewLedger fixture.genesisStore fixture.opts = (fixture.genesisStore, Ok tt) /\
  fst (NewLedger fixture.afterSend fixture.opts') = fixture.afterSend.
Proof.
  destruct (NewLedger_idempotent emptyStore fixture.opts) as (_ & _ & Hagain).
  destruct (NewLedger_idempotent fixture.afterSend fixture.opts') as (Herr & _ & _).
  split; [exact Hagain|]. apply (Herr ErrBadGenesis). reflexivity.
Defined.

Lemma fork_is_rejected_witness :
  addBlock (BSend fixture.sendZero) fixture.afterOpen =
    (fixture.afterOpen, Err (ErrNew "unexpected head block for account")).
Proof.
  destruct (fork_is_rejected (BSend fixture.send1) fixture.genesisStore fixture.afterSend)
    as (account & Hacc & Hlater); [intros o; discriminate | reflexivity|].
  assert (account = 100%N) as -> by (vm_compute in Hacc; congruence).
  apply (Hlater fixture.afterOpen); try reflexivity.
  apply (later_step _ fixture.afterSend _ (BOpen fixture.open1) (Ok tt));
    [apply later_refl | reflexivity].
Defined.

Lemma addSendBlock_checks_witness :
  addSendBlock fixture.sendOrphan fixture.genesisStore =
    (fixture.genesisStore, Err ErrKeyNotFound) /\
  addSendBlock fixture.send1 (fst (AddPending 200 18 (mkPending 100 1) fixture.genesisStore)) =
    (fst (AddPending 200 18 (mkPending 100 1) fixture.genesisStore),
     Err (ErrNew "pending transaction already exists")).
Proof.
  split.
  - apply (addSendBlock_checks fixture.sendOrphan fixture.genesisStore). reflexivity.
  - pose proof (addSendBlock_checks fixture.send1
                  (fst (AddPending 200 18 (mkPending 100 1) fixture.genesisStore))) as Hthm.
    cbv zeta in Hthm. destruct Hthm as [_ Hthm].
    destruct (Hthm 100%N eq_refl) as [_ Hsig].
    destruct (Hsig eq_refl) as [_ Hinfo].
    apply (Hinfo (mkAddressInfo 9%N 9%N 9%N fixture.genesisBalance) eq_refl);
      [reflexivity | reflexivity | vm_compute; eauto].
Defined.

End ScenariosForks.
